(** * telecom-tracker: the spreadsheet parsing / aggregation pipeline

    A shallow embedding of [src/lib/excel-parser.ts] and of the multi-file
    merge of [src/app/page.tsx] ([handleUploadComplete]), with the
    properties of the pipeline stated and proved over it.

    Conventions of the embedding.

    - A JavaScript string is a [list ascii]; a character is read as the
      code unit U+0000..U+00FF it denotes (Latin-1).  On that range the
      built-ins used by the source ([trim], [toLowerCase],
      [normalize('NFD')] followed by the removal of U+0300..U+036F, the
      regular-expression classes) are finite tables, written out below.
    - A JavaScript number holding a coordinate is a double.  A finite
      double is held as the rational it equals ([Q]); [NaN] and the
      infinities are the other constructors of [double].  What the source
      computes on coordinates rounds as a double does: [parseFloat] and the
      subtraction return the double nearest to the exact result, the even
      one of two that are equally near ([roundQ], [toDouble]).
      Counters are [nat], instants ([Date.getTime()]) are [Z] milliseconds.
    - What the source takes from its environment (the clock, number and
      date formatting, the XLSX date-code table, the local-time calendar)
      is a field of the record [Externals]; every definition that needs
      one takes the record as an argument.
    - A [Map] is an association list in insertion order, as iteration over
      a JavaScript [Map] is. *)

From Stdlib Require Import List String Ascii Bool Arith ZArith QArith Qabs Lia.
From Stdlib Require Import Permutation Sorted DecimalString.
Import ListNotations.
Local Open Scope nat_scope.

Set Implicit Arguments.

(** ** Strings *)

Definition str := list ascii.

(** A string literal of the source. *)
Definition js (s : string) : str := list_ascii_of_string s.

Definition code (c : ascii) : nat := nat_of_ascii c.

Definition str_eqb (a b : str) : bool :=
  if list_eq_dec ascii_dec a b then true else false.

Lemma str_eqb_eq (a b : str) : str_eqb a b = true <-> a = b.
Proof.
  unfold str_eqb. destruct (list_eq_dec ascii_dec a b); split; congruence.
Qed.

Lemma str_eqb_refl (a : str) : str_eqb a a = true.
Proof. now apply str_eqb_eq. Qed.

Lemma str_eqb_neq (a b : str) : str_eqb a b = false <-> a <> b.
Proof.
  unfold str_eqb. destruct (list_eq_dec ascii_dec a b); split; congruence.
Qed.

(** [WhiteSpace] and [LineTerminator] of ECMAScript below U+0100: TAB, LF,
    VT, FF, CR, SP and NBSP.  This is the set of [String.prototype.trim]
    and of the class [\s]. *)
Definition isWhiteSpace (c : ascii) : bool :=
  let n := code c in
  ((9 <=? n) && (n <=? 13)) || (n =? 32) || (n =? 160).

(** The class [\d]: the ten ASCII digits. *)
Definition isDigit (c : ascii) : bool :=
  let n := code c in (48 <=? n) && (n <=? 57).

Fixpoint trimStart (s : str) : str :=
  match s with
  | c :: s' => if isWhiteSpace c then trimStart s' else s
  | [] => []
  end.

Definition trimEnd (s : str) : str := rev (trimStart (rev s)).

Definition trim (s : str) : str := trimEnd (trimStart s).

Fixpoint startsWith (s p : str) : bool :=
  match p, s with
  | [], _ => true
  | x :: p', c :: s' => Ascii.eqb x c && startsWith s' p'
  | _ :: _, [] => false
  end.

Fixpoint includes (s p : str) : bool :=
  startsWith s p ||
  match s with
  | [] => false
  | _ :: s' => includes s' p
  end.

(** [s.substring(n)] for [n] within the string. *)
Definition substring (n : nat) (s : str) : str := skipn n s.

(** [String.prototype.toLowerCase] on Latin-1: A..Z and the capital
    letters U+00C0..U+00DE (without the multiplication sign U+00D7) move
    up by 32. *)
Definition lowerChar (c : ascii) : ascii :=
  let n := code c in
  if ((65 <=? n) && (n <=? 90)) ||
     ((192 <=? n) && (n <=? 222) && negb (n =? 215))
  then ascii_of_nat (n + 32) else c.

Definition toLowerCase (s : str) : str := map lowerChar s.

(** [normalize('NFD')] followed by the removal of U+0300..U+036F, on one
    Latin-1 character: a letter with a canonical decomposition loses its
    combining mark and keeps its base letter; the input itself holds no
    combining mark (they start at U+0300). *)
Definition stripMark (c : ascii) : ascii :=
  let n := code c in
  if (192 <=? n) && (n <=? 197) then "A"%char
  else if n =? 199 then "C"%char
  else if (200 <=? n) && (n <=? 203) then "E"%char
  else if (204 <=? n) && (n <=? 207) then "I"%char
  else if n =? 209 then "N"%char
  else if (210 <=? n) && (n <=? 214) then "O"%char
  else if (217 <=? n) && (n <=? 220) then "U"%char
  else if n =? 221 then "Y"%char
  else if (224 <=? n) && (n <=? 229) then "a"%char
  else if n =? 231 then "c"%char
  else if (232 <=? n) && (n <=? 235) then "e"%char
  else if (236 <=? n) && (n <=? 239) then "i"%char
  else if n =? 241 then "n"%char
  else if (242 <=? n) && (n <=? 246) then "o"%char
  else if (249 <=? n) && (n <=? 252) then "u"%char
  else if (n =? 253) || (n =? 255) then "y"%char
  else c.

(** [normalizeString]: lower-case, decompose, drop the combining marks. *)
Definition normalizeString (s : str) : str := map stripMark (toLowerCase s).

(** ** JavaScript values read from a sheet *)

(** An instant, as [Date.prototype.getTime] gives it. *)
Definition Date := Z.

(** A cell of [XLSX.utils.sheet_to_json] (read with [cellDates: true] and
    [defval: '']), or [undefined] for a key the row lacks. *)
Inductive value :=
| VUndef
| VStr (s : str)
| VNum (q : Q)
| VBool (b : bool)
| VDate (d : Date).

(** The year/month/day/hour/minute/second of [XLSX.SSF.parse_date_code]. *)
Record DateCode := { dc_y : Z; dc_m : Z; dc_d : Z; dc_H : Z; dc_M : Z; dc_S : Z }.

Record Externals := {
  (** [new Date()] while row [i] of a sheet is read *)
  clock : nat -> Date;
  (** the suffix [Date.now()-Math.random()] of the identifier of row [i] *)
  idSuffix : nat -> str;
  (** [String(n)] for a number *)
  numberToString : Q -> str;
  (** [String(d)] for a date *)
  dateToString : Date -> str;
  (** [d.toLocaleDateString('fr-FR')] *)
  toLocaleDateString : Date -> str;
  (** [XLSX.SSF.parse_date_code] *)
  parse_date_code : Q -> option DateCode;
  (** [new Date(y, m, d, H, M, S)] in the local time zone *)
  localDate : Z -> Z -> Z -> Z -> Z -> Z -> Date;
  (** [new Date(s)], [None] when [getTime()] is [NaN] *)
  dateOfString : str -> option Date
}.

(** Truthiness ([!v] is its negation). *)
Definition truthy (v : value) : bool :=
  match v with
  | VUndef => false
  | VStr s => negb (str_eqb s [])
  | VNum q => negb (Qeq_bool q 0)
  | VBool b => b
  | VDate _ => true
  end.

(** [String(v)]. *)
Definition String_ (E : Externals) (v : value) : str :=
  match v with
  | VUndef => js "undefined"
  | VStr s => s
  | VNum q => numberToString E q
  | VBool true => js "true"
  | VBool false => js "false"
  | VDate d => dateToString E d
  end.

(** [v || ''] *)
Definition orEmpty (v : value) : value := if truthy v then v else VStr [].

(** ** Field Normalizer: phone numbers *)

Definition normalizePhoneNumber (E : Externals) (phone : value) : str :=
  if negb (truthy phone) then []
  else
    let phoneStr := trim (String_ E phone) in
    let phoneStr :=
      if startsWith phoneStr (js "237") then substring 3 phoneStr else phoneStr in
    filter isDigit phoneStr.

(** ** Regular expressions

    Every regular expression of the source is a sequence of character
    classes, each with a greedy quantifier and some of them captured.  An
    [atom] is one such quantified class; a pattern is a list of atoms. *)

Record atom := Atom {
  cls : ascii -> bool;   (* the class *)
  lo : nat;              (* least number of repetitions *)
  hi : option nat;       (* greatest number, [None] for unbounded *)
  cap : bool             (* a capture group around the atom *)
}.

(** Length of the longest prefix of [s] made of characters of [p]. *)
Fixpoint run (p : ascii -> bool) (s : str) : nat :=
  match s with
  | c :: s' => if p c then S (run p s') else 0
  | [] => 0
  end.

Fixpoint firstSome {A B : Type} (f : A -> option B) (l : list A) : option B :=
  match l with
  | [] => None
  | x :: l' => match f x with Some y => Some y | None => firstSome f l' end
  end.

(** The repetition counts a greedy quantifier tries on [s], longest first. *)
Definition counts (a : atom) (s : str) : list nat :=
  let n := match hi a with
           | Some h => Nat.min h (run (cls a) s)
           | None => run (cls a) s
           end in
  rev (seq (lo a) (S n - lo a)).

(** Backtracking match of the pattern [r] at the head of [s]: the captures
    and the rest of the input. *)
Fixpoint exec (r : list atom) (s : str) : option (list str * str) :=
  match r with
  | [] => Some ([], s)
  | a :: r' =>
      firstSome
        (fun k =>
           match exec r' (skipn k s) with
           | Some (caps, rest) =>
               Some (if cap a then firstn k s :: caps else caps, rest)
           | None => None
           end)
        (counts a s)
  end.

(** [s.match(r)] for a pattern without the [g] flag: the captures of the
    leftmost match. *)
Fixpoint search (r : list atom) (s : str) : option (list str) :=
  match exec r s with
  | Some (caps, _) => Some caps
  | None => match s with
            | [] => None
            | _ :: s' => search r s'
            end
  end.

(** ASCII case folding, for a letter of a pattern with the [i] flag: no
    other Latin-1 character folds onto an ASCII letter. *)
Definition foldChar (c : ascii) : ascii :=
  let n := code c in
  if (65 <=? n) && (n <=? 90) then ascii_of_nat (n + 32) else c.

Definition one (p : ascii -> bool) : atom := Atom p 1 (Some 1) false.
Definition star (p : ascii -> bool) : atom := Atom p 0 None false.
Definition plus (p : ascii -> bool) : atom := Atom p 1 None false.
Definition times (n : nat) (p : ascii -> bool) : atom := Atom p n (Some n) false.
Definition group (a : atom) : atom := Atom (cls a) (lo a) (hi a) true.

(** A literal, case-sensitive or with the [i] flag. *)
Definition chars (s : string) : list atom :=
  map (fun x => one (Ascii.eqb x)) (js s).
Definition chars_i (s : string) : list atom :=
  map (fun x => one (fun c => Ascii.eqb (foldChar c) (foldChar x))) (js s).

(** The class [[\d.-]]. *)
Definition isNumChar (c : ascii) : bool :=
  isDigit c || Ascii.eqb c "."%char || Ascii.eqb c "-"%char.

(** The class [[^\s)]]. *)
Definition isCellChar (c : ascii) : bool :=
  negb (isWhiteSpace c || Ascii.eqb c ")"%char).

(** [/Long:\s*([\d.-]+)\s*Lat:\s*([\d.-]+)/i] *)
Definition LOCATION_REGEX : list atom :=
  chars_i "Long:" ++ [star isWhiteSpace; group (plus isNumChar); star isWhiteSpace]
  ++ chars_i "Lat:" ++ [star isWhiteSpace; group (plus isNumChar)].

(** [/Cell:\s*([^\s)]+)/i] *)
Definition CELL_REGEX : list atom :=
  chars_i "Cell:" ++ [star isWhiteSpace; group (plus isCellChar)].

(** The pattern [Azimut:] , [\s] starred, then a captured starred class
    [[^\s)]], with the [i] flag. *)
Definition AZIMUT_REGEX : list atom :=
  chars_i "Azimut:" ++ [star isWhiteSpace; group (star isCellChar)].

(** ** Numbers *)

(** A JavaScript number, a double: [NaN], an infinity, or a finite
    double, held as the rational it equals.  The two zeros are one here:
    nothing the source does with a coordinate (comparison, subtraction,
    [Math.abs], [===]) tells [-0] from [0]. *)
Inductive double := NaN | Infinity (negative : bool) | Finite (q : Q).

Definition Qltb (a b : Q) : bool := negb (Qle_bool b a).

Definition isNaN (x : double) : bool :=
  match x with
  | NaN => true
  | _ => false
  end.

(** [x < y] on doubles: false as soon as one of them is [NaN]. *)
Definition lessThan (x y : double) : bool :=
  match x, y with
  | NaN, _ => false
  | _, NaN => false
  | Infinity true, Infinity true => false
  | Infinity true, _ => true
  | Infinity false, _ => false
  | Finite _, Infinity negative => negb negative
  | Finite a, Finite b => Qltb a b
  end.

(** [floor (log2 (n / d))], from the bit lengths of [n] and [d]: their
    difference [k] or [k - 1], according to whether [2 ^ k <= n / d]. *)
Definition floorLog2 (n d : positive) : Z :=
  let k := (Z.log2 (Zpos n) - Z.log2 (Zpos d))%Z in
  if (Zpos n * 2 ^ Z.max 0 (- k) <? Zpos d * 2 ^ Z.max 0 k)%Z
  then (k - 1)%Z else k.

(** The integer nearest to [n / d] for [d > 0], the even one of two that
    are equally near. *)
Definition nearestEven (n d : Z) : Z :=
  let q := (n / d)%Z in
  let r := (n mod d)%Z in
  if (2 * r <? d)%Z then q
  else if (d <? 2 * r)%Z then (q + 1)%Z
  else if Z.even q then q else (q + 1)%Z.

(** Rounding of [n / d > 0] to binary64 (round to nearest, ties to even).
    The doubles around [n / d] are the multiples [m * 2 ^ e] of the power
    of two [e] places below its leading bit when counting 53 bits, and
    never below [2 ^ -1074], the least positive double; [m] is [n / d]
    over [2 ^ e], rounded to an integer.  The exponent is not bounded
    above here: [toDouble] turns what is too large into an infinity. *)
Definition roundPos (n d : positive) : Q :=
  let e := Z.max (-1074) (floorLog2 n d - 52) in
  let m := nearestEven (Zpos n * 2 ^ Z.max 0 (- e)) (Zpos d * 2 ^ Z.max 0 e) in
  Qred (Qmake (m * 2 ^ Z.max 0 e) (Z.to_pos (2 ^ Z.max 0 (- e)))).

Definition roundQ (q : Q) : Q :=
  match Qnum q with
  | Z0 => 0
  | Zpos n => roundPos n (Qden q)
  | Zneg n => - roundPos n (Qden q)
  end.

(** The Number value of the real [q]: the nearest double, an infinity
    when rounding reaches [2 ^ 1024]. *)
Definition toDouble (q : Q) : double :=
  let d := roundQ q in
  if Qle_bool (inject_Z (2 ^ 1024)) (Qabs d) then Infinity (Qltb d 0)
  else Finite d.

(** [a - b] on the finite doubles [a] and [b].  A rational that is not a
    double is read as the double nearest to it; a double is read as it
    is ([roundQ_exact]). *)
Definition subtract (a b : Q) : double := toDouble (roundQ a - roundQ b).

(** [Math.abs(x)] *)
Definition abs (x : double) : double :=
  match x with
  | NaN => NaN
  | Infinity _ => Infinity false
  | Finite q => Finite (Qabs q)
  end.

Definition digitVal (c : ascii) : Z := Z.of_nat (code c) - 48.

(** Value of a run of decimal digits. *)
Definition digitsVal (ds : str) : Z :=
  fold_left (fun acc c => 10 * acc + digitVal c)%Z ds 0%Z.

(** The optional sign of a numeral, and what follows it. *)
Definition splitSign (s : str) : bool * str :=
  match s with
  | "-"%char :: t => (true, t)
  | "+"%char :: t => (false, t)
  | _ => (false, s)
  end.

(** [parseFloat]: leading white space, an optional sign, the longest
    decimal numeral that follows ([digits], [digits.], [digits.digits] or
    [.digits]), read as the double nearest to it; [NaN] when there is no
    digit.  An exponent part and the word [Infinity] are left out: the
    strings parsed here are captures of [[\d.-]+], which hold no letter. *)
Definition parseFloat (s : str) : double :=
  let s := trimStart s in
  let '(neg, s) := splitSign s in
  let ip := firstn (run isDigit s) s in
  let fp := match skipn (run isDigit s) s with
            | "."%char :: t => firstn (run isDigit t) t
            | _ => []
            end in
  match ip ++ fp with
  | [] => NaN
  | ds =>
      let q := Qmake (digitsVal ds) (Z.to_pos (10 ^ Z.of_nat (List.length fp))) in
      toDouble (if neg then Qopp q else q)
  end.

(** [parseInt] on a run of digits (a capture of [\d{n}]). *)
Definition parseInt (s : str) : Z := digitsVal s.

(** ** Location-String Decoder *)

Record LocationData := {
  siteName : str;
  cellId : str;
  longitude : Q;
  latitude : Q;
  azimuth : str
}.

(** [s.split(sep)[0]] for a non-empty separator: what precedes its first
    occurrence, or all of [s]. *)
Fixpoint beforeFirst (sep s : str) : str :=
  if startsWith s sep then []
  else match s with
       | [] => []
       | c :: s' => c :: beforeFirst sep s'
       end.

Definition parseLocationString (locationStr : str) : option LocationData :=
  if str_eqb locationStr [] || str_eqb locationStr (js "--")
     || str_eqb (trim locationStr) [] || str_eqb locationStr (js "Site inconnu")
  then None
  else
    match search LOCATION_REGEX locationStr with
    | Some [m1; m2] =>
        if isNaN (parseFloat m1) || isNaN (parseFloat m2) then None
        else if lessThan (parseFloat m2) (Finite (-90))
                || lessThan (Finite 90) (parseFloat m2)
                || lessThan (parseFloat m1) (Finite (-180))
                || lessThan (Finite 180) (parseFloat m1)
        then None
        else
          match parseFloat m1, parseFloat m2 with
          | Finite lon, Finite lat =>
              let site := trim (beforeFirst (js "(") locationStr) in
              let site :=
                if str_eqb site [] || includes (toLowerCase site) (js "long:")
                then trim (beforeFirst (js "Long:") locationStr) else site in
              let site := if str_eqb site [] then js "Site inconnu" else site in
              let cell := match search CELL_REGEX locationStr with
                          | Some [c] => c
                          | _ => []
                          end in
              let az := match search AZIMUT_REGEX locationStr with
                        | Some [a] => if str_eqb a [] then js "-" else a
                        | _ => js "-"
                        end in
              Some {| siteName := site; cellId := cell;
                      longitude := lon; latitude := lat; azimuth := az |}
          | _, _ => None (* not reached: a coordinate in range is finite *)
          end
    | _ => None
    end.

Example decode_bastos :
  parseLocationString (js "Bastos (Cell: A1 Long: 11.5 Lat: 3.9 Azimut: 45)")
  = Some {| siteName := js "Bastos"; cellId := js "A1";
            longitude := (23 # 2)%Q;
            latitude := (8782019273372467 # 2251799813685248)%Q;
            azimuth := js "45" |}.
Proof. vm_compute. reflexivity. Qed.

(** ** Field Normalizer: dates *)

(** [/(\d{2})\/(\d{2})\/(\d{4})\s+(\d{2}):(\d{2}):(\d{2})/], and the same
    with [-] between day, month and year. *)
Definition dateRegex (sep : string) : list atom :=
  [group (times 2 isDigit)] ++ chars sep ++ [group (times 2 isDigit)]
  ++ chars sep ++ [group (times 4 isDigit); plus isWhiteSpace;
                   group (times 2 isDigit)]
  ++ chars ":" ++ [group (times 2 isDigit)] ++ chars ":"
  ++ [group (times 2 isDigit)].

Definition parseExcelDate (E : Externals) (dateValue : value) : option Date :=
  if negb (truthy dateValue) then None
  else
    match dateValue with
    | VDate d => Some d
    | VNum n =>
        match parse_date_code E n with
        | Some date =>
            Some (localDate E (dc_y date) (dc_m date - 1) (dc_d date)
                    (dc_H date) (dc_M date) (dc_S date))
        | None => None
        end
    | VStr s =>
        match search (dateRegex "/") s with
        | Some [d; m; y; hh; mm; ss] =>
            Some (localDate E (parseInt y) (parseInt m - 1) (parseInt d)
                    (parseInt hh) (parseInt mm) (parseInt ss))
        | _ =>
            match search (dateRegex "-") s with
            | Some [d; m; y; hh; mm; ss] =>
                Some (localDate E (parseInt y) (parseInt m - 1) (parseInt d)
                        (parseInt hh) (parseInt mm) (parseInt ss))
            | _ => dateOfString E s
            end
        end
    | _ => None
    end.

(** ** Sheet Classifier *)

Inductive FileType := NUMERO | IMEI | CC.

Definition detectFileType (sheetNames : list str) : FileType :=
  let normalizedNames := map normalizeString sheetNames in
  if existsb (fun n => includes n (js "listing appel") || includes n (js "listing sms"))
       normalizedNames
  then NUMERO
  else if existsb (fun n => includes n (js "imei partage")) normalizedNames
  then IMEI
  else CC.

Record ListingSheets := { calls : option str; sms : option str }.

(** [!x] for a [string | null]. *)
Definition isSet (x : option str) : bool :=
  match x with
  | Some s => negb (str_eqb s [])
  | None => false
  end.

(** One turn of the loop of [findListingSheets]. *)
Definition listingStep (acc : ListingSheets) (name : str) : ListingSheets :=
  let normalized := normalizeString name in
  let callsSheet :=
    if includes normalized (js "listing appel") then Some name else calls acc in
  let smsSheet :=
    if includes normalized (js "listing sms") then Some name else sms acc in
  let callsSheet :=
    if str_eqb normalized (js "listing") && negb (isSet callsSheet)
    then Some name else callsSheet in
  {| calls := callsSheet; sms := smsSheet |}.

Definition findListingSheets (sheetNames : list str) : ListingSheets :=
  fold_left listingStep sheetNames {| calls := None; sms := None |}.

Definition findSubscribersSheet (sheetNames : list str) : option str :=
  find (fun name => includes (normalizeString name) (js "identification")) sheetNames.

(** ** Column Inferencer *)

Record Columns := {
  callerNumberCol : option str;
  calledNumberCol : option str;
  imeiCol : option str;
  dateCol : option str;
  durationCol : option str;
  locationCol : option str
}.

Definition noColumns : Columns :=
  {| callerNumberCol := None; calledNumberCol := None; imeiCol := None;
     dateCol := None; durationCol := None; locationCol := None |}.

(** One turn of the loop of [identifyColumns]: the chain of [if]/[else if]. *)
Definition columnStep (acc : Columns) (col : str) : Columns :=
  let normalized := normalizeString col in
  if includes normalized (js "localisation") then
    {| callerNumberCol := callerNumberCol acc; calledNumberCol := calledNumberCol acc;
       imeiCol := imeiCol acc; dateCol := dateCol acc;
       durationCol := durationCol acc; locationCol := Some col |}
  else if includes normalized (js "imei") then
    {| callerNumberCol := callerNumberCol acc; calledNumberCol := calledNumberCol acc;
       imeiCol := Some col; dateCol := dateCol acc;
       durationCol := durationCol acc; locationCol := locationCol acc |}
  else if startsWith normalized (js "numero appelant")
          || startsWith normalized (js "numero emetteur") then
    {| callerNumberCol := Some col; calledNumberCol := calledNumberCol acc;
       imeiCol := imeiCol acc; dateCol := dateCol acc;
       durationCol := durationCol acc; locationCol := locationCol acc |}
  else if startsWith normalized (js "numero appele")
          || startsWith normalized (js "numero recepteur") then
    {| callerNumberCol := callerNumberCol acc; calledNumberCol := Some col;
       imeiCol := imeiCol acc; dateCol := dateCol acc;
       durationCol := durationCol acc; locationCol := locationCol acc |}
  else if includes normalized (js "date") then
    {| callerNumberCol := callerNumberCol acc; calledNumberCol := calledNumberCol acc;
       imeiCol := imeiCol acc; dateCol := Some col;
       durationCol := durationCol acc; locationCol := locationCol acc |}
  else if includes normalized (js "duree") then
    {| callerNumberCol := callerNumberCol acc; calledNumberCol := calledNumberCol acc;
       imeiCol := imeiCol acc; dateCol := dateCol acc;
       durationCol := Some col; locationCol := locationCol acc |}
  else acc.

Definition identifyColumns (columns : list str) : Columns :=
  fold_left columnStep columns noColumns.

Example columns_listing :
  identifyColumns [js "Numero Appelant"; js "Numero Appele"; js "Date";
                   js "Duree"; js "Localisation"]
  = {| callerNumberCol := Some (js "Numero Appelant");
       calledNumberCol := Some (js "Numero Appele");
       imeiCol := None; dateCol := Some (js "Date");
       durationCol := Some (js "Duree");
       locationCol := Some (js "Localisation") |}.
Proof. vm_compute. reflexivity. Qed.

(** ** Record Extractor *)

(** [dateTime] is declared [Date]; the aggregator tests it against [null],
    so the field is optional here. *)
Record CallRecord := {
  id : str;
  callerNumber : str;
  calledNumber : str;
  imei : str;
  dateTime : option Date;
  duration : str;
  location : option LocationData;
  rawLocation : str
}.

(** A row of [sheet_to_json]: the header keys with the cells of the row. *)
Definition Row := list (str * value).

(** [row[col]] *)
Definition rowGet (row : Row) (col : str) : value :=
  match find (fun kv => str_eqb (fst kv) col) row with
  | Some kv => snd kv
  | None => VUndef
  end.

(** [col ? normalizePhoneNumber(row[col]) : ''] *)
Definition phoneField (E : Externals) (col : option str) (row : Row) : str :=
  match col with
  | Some c => if isSet col then normalizePhoneNumber E (rowGet row c) else []
  | None => []
  end.

(** [col ? String(row[col] || '').trim() : ''] *)
Definition textField (E : Externals) (col : option str) (row : Row) : str :=
  match col with
  | Some c => if isSet col then trim (String_ E (orEmpty (rowGet row c))) else []
  | None => []
  end.

(** [col ? parseExcelDate(row[col]) : null] *)
Definition dateField (E : Externals) (col : option str) (row : Row) : option Date :=
  match col with
  | Some c => if isSet col then parseExcelDate E (rowGet row c) else None
  | None => None
  end.

Definition natToString (n : nat) : str :=
  js (DecimalString.NilZero.string_of_uint (Nat.to_uint n)).

(** The body of the loop of [parseListingSheet] for row [i]: the record
    pushed, if any. *)
Definition extractRow (E : Externals) (cols : Columns) (i : nat) (row : Row)
  : option CallRecord :=
  let callerNumber := phoneField E (callerNumberCol cols) row in
  let calledNumber := phoneField E (calledNumberCol cols) row in
  let imei := textField E (imeiCol cols) row in
  let dateTime := dateField E (dateCol cols) row in
  let duration := textField E (durationCol cols) row in
  let locationStr := textField E (locationCol cols) row in
  let location := parseLocationString locationStr in
  if negb (str_eqb callerNumber []) || negb (str_eqb calledNumber []) then
    Some {| id := js "record-" ++ natToString i ++ js "-" ++ idSuffix E i;
            callerNumber := callerNumber;
            calledNumber := calledNumber;
            imei := imei;
            dateTime := Some (match dateTime with
                              | Some d => d
                              | None => clock E i
                              end);
            duration := duration;
            location := location;
            rawLocation := locationStr |}
  else None.

Fixpoint extractRows (E : Externals) (cols : Columns) (i : nat) (data : list Row)
  : list CallRecord :=
  match data with
  | [] => []
  | row :: data' =>
      match extractRow E cols i row with
      | Some r => r :: extractRows E cols (S i) data'
      | None => extractRows E cols (S i) data'
      end
  end.

(** A worksheet is given by the rows [sheet_to_json] reads from it. *)
Definition parseListingSheet (E : Externals) (data : list Row) : list CallRecord :=
  match data with
  | [] => []
  | first :: _ =>
      let columns := map fst first in
      extractRows E (identifyColumns columns) 0 data
  end.

(** ** Subscriber Extractor *)

Record SubscriberInfo := {
  sub_number : str;
  fullName : str;
  birthDate : option str;
  cniNumber : option str;
  cniExpiration : option str;
  address : option str
}.

Definition subscriberStep (E : Externals) (s : SubscriberInfo) (kv : str * value)
  : SubscriberInfo :=
  let normalizedKey := normalizeString (fst kv) in
  let v := snd kv in
  let text := trim (String_ E (orEmpty v)) in
  let day := match parseExcelDate E v with
             | Some d => Some (toLocaleDateString E d)
             | None => None
             end in
  if str_eqb normalizedKey (js "numero")
     || (startsWith normalizedKey (js "numero")
         && negb (includes normalizedKey (js "cni"))) then
    if str_eqb (sub_number s) [] then
      {| sub_number := normalizePhoneNumber E v; fullName := fullName s;
         birthDate := birthDate s; cniNumber := cniNumber s;
         cniExpiration := cniExpiration s; address := address s |}
    else s
  else if includes normalizedKey (js "nom") && includes normalizedKey (js "prenom") then
    {| sub_number := sub_number s; fullName := text;
       birthDate := birthDate s; cniNumber := cniNumber s;
       cniExpiration := cniExpiration s; address := address s |}
  else if includes normalizedKey (js "date") && includes normalizedKey (js "naissance") then
    {| sub_number := sub_number s; fullName := fullName s;
       birthDate := day; cniNumber := cniNumber s;
       cniExpiration := cniExpiration s; address := address s |}
  else if includes normalizedKey (js "numero") && includes normalizedKey (js "cni") then
    {| sub_number := sub_number s; fullName := fullName s;
       birthDate := birthDate s; cniNumber := Some text;
       cniExpiration := cniExpiration s; address := address s |}
  else if includes normalizedKey (js "expiration") then
    {| sub_number := sub_number s; fullName := fullName s;
       birthDate := birthDate s; cniNumber := cniNumber s;
       cniExpiration := day; address := address s |}
  else if str_eqb normalizedKey (js "adresse") then
    {| sub_number := sub_number s; fullName := fullName s;
       birthDate := birthDate s; cniNumber := cniNumber s;
       cniExpiration := cniExpiration s; address := Some text |}
  else s.

Definition parseSubscribersSheet (E : Externals) (data : list Row)
  : list SubscriberInfo :=
  flat_map
    (fun row =>
       let subscriber :=
         fold_left (subscriberStep E) row
           {| sub_number := []; fullName := []; birthDate := None;
              cniNumber := None; cniExpiration := None; address := None |} in
       if negb (str_eqb (sub_number subscriber) []) then [subscriber] else [])
    data.

(** ** Aggregator *)

Record PhoneNumber := {
  number : str;
  identity : option str;
  operator : option str;
  pn_imei : option str;
  callCount : nat;
  smsCount : nat;
  firstActivity : option Date;
  lastActivity : option Date;
  locations : list LocationData;
  records : list CallRecord
}.

(** A [Map<string, V>]: the entries in insertion order, one per key. *)
Definition Map (V : Type) := list (str * V).

Fixpoint mapGet {V : Type} (k : str) (m : Map V) : option V :=
  match m with
  | [] => None
  | (k', v) :: m' => if str_eqb k' k then Some v else mapGet k m'
  end.

Definition mapHas {V : Type} (k : str) (m : Map V) : bool :=
  match mapGet k m with Some _ => true | None => false end.

(** [m.set(k, v)]: the value of an existing key is replaced where it is,
    a new key goes last. *)
Fixpoint mapSet {V : Type} (k : str) (v : V) (m : Map V) : Map V :=
  match m with
  | [] => [(k, v)]
  | (k', v') :: m' =>
      if str_eqb k' k then (k', v) :: m' else (k', v') :: mapSet k v m'
  end.

(** [new Map(entries)] *)
Definition mapOf {V : Type} (entries : list (str * V)) : Map V :=
  fold_left (fun m kv => mapSet (fst kv) (snd kv) m) entries [].

(** [Math.abs(x) < 0.0001], the literal being the double nearest to
    1/10000. *)
Definition within (x : double) : bool :=
  lessThan (abs x) (toDouble (1 # 10000)).

(** The test of the [some] of the aggregator: both coordinates of the
    stored [loc] within 0.0001 of those of the record's location, the
    differences being computed as doubles. *)
Definition nearLocation (loc recordLoc : LocationData) : bool :=
  within (subtract (latitude loc) (latitude recordLoc))
  && within (subtract (longitude loc) (longitude recordLoc)).

(** [d === 'SMS' || d.toLowerCase() === 'sms'] *)
Definition isSmsDuration (d : str) : bool :=
  str_eqb d (js "SMS") || str_eqb (toLowerCase d) (js "sms").

(** The key of the sort: [r.dateTime?.getTime() || 0]. *)
Definition sortKey (r : CallRecord) : Z :=
  match dateTime r with
  | Some t => t
  | None => 0%Z
  end.

(** [Array.prototype.sort] with a comparator that subtracts integer keys.
    The sort is stable, so its result is the one arrangement of the array
    that is ascending in the key and keeps the order of equal keys; an
    insertion sort that puts an element before its equals, run from the
    last element to the first, builds it. *)
Fixpoint insertBy {A : Type} (key : A -> Z) (x : A) (l : list A) : list A :=
  match l with
  | [] => [x]
  | y :: l' => if (key x <=? key y)%Z then x :: y :: l' else y :: insertBy key x l'
  end.

Fixpoint sortBy {A : Type} (key : A -> Z) (l : list A) : list A :=
  match l with
  | [] => []
  | x :: l' => insertBy key x (sortBy key l')
  end.

(** The entry a number gets when it is first seen. *)
Definition newPhone (subscriberMap : Map SubscriberInfo) (n : str) : PhoneNumber :=
  {| number := n;
     identity := match mapGet n subscriberMap with
                 | Some s => Some (fullName s)
                 | None => None
                 end;
     operator := None; pn_imei := None;
     callCount := 0; smsCount := 0;
     firstActivity := None; lastActivity := None;
     locations := []; records := [] |}.

(** What one record does to the entry of its caller number. *)
Definition addRecord (phoneData : PhoneNumber) (record : CallRecord) : PhoneNumber :=
  let sms := isSmsDuration (duration record) in
  let first :=
    match dateTime record with
    | Some t =>
        match firstActivity phoneData with
        | None => Some t
        | Some f => if (t <? f)%Z then Some t else Some f
        end
    | None => firstActivity phoneData
    end in
  let last :=
    match dateTime record with
    | Some t =>
        match lastActivity phoneData with
        | None => Some t
        | Some l => if (l <? t)%Z then Some t else Some l
        end
    | None => lastActivity phoneData
    end in
  let locs :=
    match location record with
    | Some recordLoc =>
        if existsb (fun loc => nearLocation loc recordLoc) (locations phoneData)
        then locations phoneData
        else locations phoneData ++ [recordLoc]
    | None => locations phoneData
    end in
  {| number := number phoneData;
     identity := identity phoneData;
     operator := operator phoneData;
     pn_imei := pn_imei phoneData;
     callCount := if sms then callCount phoneData else S (callCount phoneData);
     smsCount := if sms then S (smsCount phoneData) else smsCount phoneData;
     firstActivity := first;
     lastActivity := last;
     locations := locs;
     records := records phoneData ++ [record] |}.

(** The guard of the loop: [!number || number.length < 6]. *)
Definition tooShort (n : str) : bool :=
  str_eqb n [] || (List.length n <? 6).

(** One turn of the first loop of [aggregateByPhoneNumber]. *)
Definition aggregateStep (subscriberMap : Map SubscriberInfo)
    (phoneMap : Map PhoneNumber) (record : CallRecord) : Map PhoneNumber :=
  let n := callerNumber record in
  if tooShort n then phoneMap
  else
    let phoneMap :=
      if negb (mapHas n phoneMap) then mapSet n (newPhone subscriberMap n) phoneMap
      else phoneMap in
    match mapGet n phoneMap with
    | Some phoneData => mapSet n (addRecord phoneData record) phoneMap
    | None => phoneMap
    end.

(** The second loop: every entry's records sorted by [sortKey]. *)
Definition sortRecords (p : PhoneNumber) : PhoneNumber :=
  {| number := number p; identity := identity p; operator := operator p;
     pn_imei := pn_imei p; callCount := callCount p; smsCount := smsCount p;
     firstActivity := firstActivity p; lastActivity := lastActivity p;
     locations := locations p; records := sortBy sortKey (records p) |}.

Definition aggregateByPhoneNumber (records : list CallRecord)
    (subscribers : list SubscriberInfo) : Map PhoneNumber :=
  let subscriberMap := mapOf (map (fun s => (sub_number s, s)) subscribers) in
  let phoneMap := fold_left (aggregateStep subscriberMap) records [] in
  map (fun kv => (fst kv, sortRecords (snd kv))) phoneMap.

(** ** A whole workbook *)

(** The workbook [XLSX.read] returns: the sheet names in file order and,
    by name, the rows of each sheet. *)
Record WorkBook := {
  SheetNames : list str;
  Sheets : list (str * list Row)
}.

Definition sheetRows (wb : WorkBook) (name : str) : list Row :=
  match mapGet name (Sheets wb) with
  | Some rows => rows
  | None => []
  end.

Record ParsedExcelData := {
  fileName : str;
  fileType : FileType;
  phoneNumbers : Map PhoneNumber;
  allRecords : list CallRecord;
  subscribers : list SubscriberInfo
}.

(** The [forEach] over the records of the SMS sheet. *)
Definition markSms (record : CallRecord) : CallRecord :=
  if str_eqb (duration record) [] then
    {| id := id record; callerNumber := callerNumber record;
       calledNumber := calledNumber record; imei := imei record;
       dateTime := dateTime record; duration := js "SMS";
       location := location record; rawLocation := rawLocation record |}
  else record.

Definition parseExcelFile (E : Externals) (workbook : WorkBook) (name : str)
  : ParsedExcelData :=
  let listingSheets := findListingSheets (SheetNames workbook) in
  let callRecords :=
    match calls listingSheets with
    | Some sheet =>
        if isSet (calls listingSheets)
        then parseListingSheet E (sheetRows workbook sheet) else []
    | None => []
    end in
  let smsRecords :=
    match sms listingSheets with
    | Some sheet =>
        if isSet (sms listingSheets)
        then map markSms (parseListingSheet E (sheetRows workbook sheet)) else []
    | None => []
    end in
  let allRecords := callRecords ++ smsRecords in
  let subscribers :=
    match findSubscribersSheet (SheetNames workbook) with
    | Some sheet =>
        if isSet (findSubscribersSheet (SheetNames workbook))
        then parseSubscribersSheet E (sheetRows workbook sheet) else []
    | None => []
    end in
  {| fileName := name;
     fileType := detectFileType (SheetNames workbook);
     phoneNumbers := aggregateByPhoneNumber allRecords subscribers;
     allRecords := allRecords;
     subscribers := subscribers |}.

(** ** Multi-File Merger ([src/app/page.tsx])

    What the page receives is the JSON form of the parse results: an array
    of aggregates per file, every date an ISO string.  A date is kept here
    as the instant [new Date(s).getTime()] reads back from the string. *)

Record RecordData := {
  rd_id : str;
  rd_callerNumber : str;
  rd_calledNumber : str;
  rd_dateTime : Date;
  rd_duration : str;
  rd_location : option LocationData;
  rd_rawLocation : str
}.

Record PhoneData := {
  pd_number : str;
  pd_identity : option str;
  pd_operator : option str;
  pd_callCount : nat;
  pd_smsCount : nat;
  pd_firstActivity : option Date;
  pd_lastActivity : option Date;
  pd_locations : list LocationData;
  pd_records : list RecordData
}.

(** [data] stands for [data?.phoneNumbers]. *)
Record UploadResult := {
  ur_fileName : str;
  success : bool;
  data : option (list PhoneData);
  error : option str
}.

(** The test of the [some] of the merger:
    [l.latitude === loc.latitude && l.longitude === loc.longitude]. *)
Definition sameLocation (l loc : LocationData) : bool :=
  Qeq_bool (latitude l) (latitude loc) && Qeq_bool (longitude l) (longitude loc).

(** The loop over [phone.locations]. *)
Definition mergeLocations (existing incoming : list LocationData)
  : list LocationData :=
  fold_left
    (fun acc loc =>
       if existsb (fun l => sameLocation l loc) acc then acc else acc ++ [loc])
    incoming existing.

(** The branch [if (existing)]. *)
Definition mergePhone (existing phone : PhoneData) : PhoneData :=
  {| pd_number := pd_number existing;
     pd_identity := pd_identity existing;
     pd_operator := pd_operator existing;
     pd_callCount := pd_callCount existing + pd_callCount phone;
     pd_smsCount := pd_smsCount existing + pd_smsCount phone;
     pd_firstActivity := pd_firstActivity existing;
     pd_lastActivity := pd_lastActivity existing;
     pd_locations := mergeLocations (pd_locations existing) (pd_locations phone);
     pd_records := sortBy rd_dateTime (pd_records existing ++ pd_records phone) |}.

(** The body of the inner loop: [find] the first entry with the number of
    [phone] and merge into it, or [push]. *)
Fixpoint mergeInto (all : list PhoneData) (phone : PhoneData) : list PhoneData :=
  match all with
  | [] => [phone]
  | p :: all' =>
      if str_eqb (pd_number p) (pd_number phone)
      then mergePhone p phone :: all'
      else p :: mergeInto all' phone
  end.

(** The array [allPhoneNumbers] at the end of the two loops. *)
Definition allPhoneNumbers (results : list UploadResult) : list PhoneData :=
  fold_left
    (fun all result =>
       match data result with
       | Some phones => if success result then fold_left mergeInto phones all else all
       | None => all
       end)
    results [].

Record HomeState := { uploadedData : list PhoneData; showUpload : bool }.

Definition handleUploadComplete (st : HomeState) (results : list UploadResult)
  : HomeState :=
  let all := allPhoneNumbers results in
  if 0 <? List.length all
  then {| uploadedData := all; showUpload := false |}
  else st.

(** * Properties *)

(** ** Strings and maps: general facts *)

Lemma startsWith_app (p s : str) : startsWith (p ++ s) p = true.
Proof.
  induction p as [|x p IH]; simpl; [destruct s; reflexivity|].
  now rewrite Ascii.eqb_refl, IH.
Qed.

Lemma startsWith_split (s p : str) :
  startsWith s p = true -> s = p ++ skipn (List.length p) s.
Proof.
  revert s; induction p as [|x p IH]; intros s H; simpl in *.
  - now destruct s.
  - destruct s as [|c s]; [discriminate|].
    apply andb_true_iff in H as [Hc Hs].
    apply Ascii.eqb_eq in Hc; subst c. simpl. f_equal. now apply IH.
Qed.

(** Case analysis on the eight bits of a character. *)
Ltac each_char c := destruct c as [[] [] [] [] [] [] [] []].

Lemma space_not_digit (c : ascii) : isWhiteSpace c = true -> isDigit c = false.
Proof.
  unfold isWhiteSpace, isDigit. intros W.
  apply andb_false_iff.
  destruct (48 <=? code c) eqn:E1; [right|left; reflexivity].
  apply Nat.leb_le in E1. apply Nat.leb_gt.
  repeat (apply orb_true_iff in W as [W|W]).
  - apply andb_true_iff in W as [_ B]. apply Nat.leb_le in B. lia.
  - apply Nat.eqb_eq in W. lia.
  - apply Nat.eqb_eq in W. lia.
Qed.

Lemma digit_not_space (c : ascii) : isDigit c = true -> isWhiteSpace c = false.
Proof.
  intros D. destruct (isWhiteSpace c) eqn:W; [|reflexivity].
  apply space_not_digit in W. congruence.
Qed.

Lemma trimStart_head (c : ascii) (s : str) :
  isWhiteSpace c = false -> trimStart (c :: s) = c :: s.
Proof. intros H. simpl. now rewrite H. Qed.

(** A string without white space at either end is its own [trim]. *)
Lemma trim_digits (s : str) : Forall (fun c => isDigit c = true) s -> trim s = s.
Proof.
  intros H. unfold trim, trimEnd.
  assert (A : trimStart s = s).
  { destruct s as [|c s]; [reflexivity|].
    apply trimStart_head, digit_not_space. now inversion H. }
  rewrite A.
  assert (B : trimStart (rev s) = rev s).
  { apply Forall_rev in H. destruct (rev s) as [|c r]; [reflexivity|].
    apply trimStart_head, digit_not_space. now inversion H. }
  rewrite B. apply rev_involutive.
Qed.

Lemma filter_digits (s : str) :
  Forall (fun c => isDigit c = true) s -> filter isDigit s = s.
Proof.
  induction 1 as [|c s Hc _ IH]; simpl; [reflexivity|]. now rewrite Hc, IH.
Qed.

Lemma filter_isDigit_all (s : str) :
  Forall (fun c => isDigit c = true) (filter isDigit s).
Proof. apply Forall_forall. intros c Hc. now apply filter_In in Hc. Qed.

Lemma Forall_skipn {A : Type} (P : A -> Prop) (n : nat) (l : list A) :
  Forall P l -> Forall P (skipn n l).
Proof.
  revert l; induction n as [|n IH]; intros l H; simpl; [assumption|].
  destruct l; [constructor|]. apply IH. now inversion H.
Qed.

(** The instant of a calendar date in UTC (months from 1): the number
    of days since 1970-01-01 by the usual era arithmetic, then the time
    of day, in milliseconds. *)
Definition utcDate (y m d hh mm ss : Z) : Date :=
  (let y' := if m <=? 2 then y - 1 else y in
   let era := y' / 400 in
   let yoe := y' - era * 400 in
   let doy := (153 * ((m + 9) mod 12) + 2) / 5 + d - 1 in
   let doe := yoe * 365 + yoe / 4 - yoe / 100 + doy in
   let days := era * 146097 + doe - 719468 in
   1000 * (86400 * days + 3600 * hh + 60 * mm + ss))%Z.

(** An environment to run the definitions on examples: a clock that starts
    on 2023-11-14T22:13:20Z and ticks once per row, integers printed in
    decimal, the local time zone UTC, no date-code table and no other date
    syntax.  No theorem depends on it. *)
Definition sampleExternals : Externals :=
  {| clock := fun i => (1700000000000 + Z.of_nat i)%Z;
     idSuffix := fun i => natToString i;
     numberToString := fun q => natToString (Z.to_nat (Qnum q / Zpos (Qden q)));
     dateToString := fun d => natToString (Z.to_nat d);
     toLocaleDateString := fun d => natToString (Z.to_nat d);
     parse_date_code := fun _ => None;
     localDate := fun y m d hh mm ss =>
                    utcDate (y + m / 12) (m mod 12 + 1) d hh mm ss;
     dateOfString := fun _ => None |}.

Example date_slash :
  parseExcelDate sampleExternals (VStr (js "15/03/2024 09:00:00"))
  = Some 1710493200000%Z
  /\ parseExcelDate sampleExternals (VStr (js "15-03-2024 09:00:00"))
     = Some 1710493200000%Z.
Proof. split; vm_compute; reflexivity. Qed.

(** ** C4: phone-number normalization *)

Section PhoneNormalization.
Variable E : Externals.

(** [normalize] of the claims: the normalizer on a string. *)
Definition normalize (x : str) : str := normalizePhoneNumber E (VStr x).

Lemma normalize_digits (x : str) :
  Forall (fun c => isDigit c = true) (normalize x).
Proof.
  unfold normalize, normalizePhoneNumber.
  destruct (negb (truthy (VStr x))); [constructor|].
  apply filter_isDigit_all.
Qed.

(** On a string of digits the normalizer only removes a leading 237. *)
Lemma normalize_on_digits (d : str) :
  Forall (fun c => isDigit c = true) d ->
  normalize d = if startsWith d (js "237") then substring 3 d else d.
Proof.
  intros H. unfold normalize, normalizePhoneNumber, truthy, String_.
  destruct (str_eqb d []) eqn:Hd; cbn [negb].
  - apply str_eqb_eq in Hd. subst d. reflexivity.
  - rewrite (trim_digits H).
    destruct (startsWith d (js "237")).
    + apply filter_digits. now apply Forall_skipn.
    + now apply filter_digits.
Qed.
End PhoneNormalization.

(** C4, as stated, fails: the normalizer removes one leading 237 at each
    application, so a number whose digits start with 237237 loses a second
    prefix when it is normalized again. *)
Lemma C4_normalize_twice_differs :
  normalize sampleExternals (js "237237699123") = js "237699123"
  /\ normalize sampleExternals (normalize sampleExternals (js "237237699123"))
     = js "699123".
Proof. split; vm_compute; reflexivity. Qed.

(** C4, amended: normalizing a second time changes nothing exactly when
    the normalized number does not itself start with 237; when it does,
    the second application removes those three digits. *)
Theorem C4_normalize_idempotent_iff (E : Externals) (x : str) :
  (normalize E (normalize E x) = normalize E x
   <-> startsWith (normalize E x) (js "237") = false)
  /\ normalize E (normalize E x)
     = if startsWith (normalize E x) (js "237")
       then substring 3 (normalize E x) else normalize E x.
Proof.
  pose proof (normalize_digits E x) as D.
  pose proof (normalize_on_digits E D) as R.
  split; [|exact R].
  rewrite R. destruct (startsWith (normalize E x) (js "237")) eqn:S.
  - split; [|discriminate]. intros Heq. exfalso.
    apply startsWith_split in S.
    apply (f_equal (@List.length ascii)) in Heq.
    rewrite S in Heq at 2. rewrite length_app in Heq.
    unfold substring in Heq. simpl in Heq. lia.
  - split; reflexivity.
Qed.

(** ** C3: listing-sheet discovery *)

Definition isCallsName (name : str) : bool :=
  includes (normalizeString name) (js "listing appel").

Definition isSmsName (name : str) : bool :=
  includes (normalizeString name) (js "listing sms").

Definition isFallbackName (name : str) : bool :=
  str_eqb (normalizeString name) (js "listing").

(** The last element of a list that satisfies [p]. *)
Definition findLast {A : Type} (p : A -> bool) (l : list A) : option A :=
  find p (rev l).

Lemma find_append {A : Type} (p : A -> bool) (l l' : list A) :
  find p (l ++ l') = match find p l with
                     | Some x => Some x
                     | None => find p l'
                     end.
Proof.
  induction l as [|x l IH]; simpl; [reflexivity|]. now destruct (p x).
Qed.

Lemma findLast_snoc {A : Type} (p : A -> bool) (l : list A) (x : A) :
  findLast p (l ++ [x]) = if p x then Some x else findLast p l.
Proof. unfold findLast. rewrite rev_app_distr. reflexivity. Qed.

Lemma includes_nonempty (s p : str) :
  p <> [] -> includes s p = true -> s <> [].
Proof.
  intros Hp H ->. destruct p as [|x p]; [congruence|]. discriminate H.
Qed.

Lemma normalizeString_nil (s : str) : normalizeString s = [] -> s = [].
Proof.
  unfold normalizeString, toLowerCase. rewrite map_map.
  destruct s; [reflexivity|discriminate].
Qed.

Lemma find_isSet (p : str -> bool) (l : list str) :
  (forall n, p n = true -> n <> []) ->
  isSet (find p l) = match find p l with Some _ => true | None => false end.
Proof.
  intros Hp. destruct (find p l) as [n|] eqn:F; [|reflexivity].
  apply find_some in F as [_ F]. apply Hp in F. simpl.
  apply str_eqb_neq in F. now rewrite F.
Qed.

Lemma isCallsName_nonempty (n : str) : isCallsName n = true -> n <> [].
Proof.
  intros H Hn. apply includes_nonempty in H; [|discriminate].
  apply H. subst n. reflexivity.
Qed.

Lemma isFallbackName_nonempty (n : str) : isFallbackName n = true -> n <> [].
Proof.
  intros H ->. discriminate H.
Qed.

Lemma findListingSheets_snoc (l : list str) (x : str) :
  findListingSheets (l ++ [x]) = listingStep (findListingSheets l) x.
Proof. unfold findListingSheets. now rewrite fold_left_app. Qed.

(** The SMS sheet is the last sheet with an SMS name. *)
Lemma findListingSheets_sms (sheetNames : list str) :
  sms (findListingSheets sheetNames) = findLast isSmsName sheetNames.
Proof.
  induction sheetNames as [|x l IH] using rev_ind; [reflexivity|].
  rewrite findListingSheets_snoc, findLast_snoc. unfold listingStep.
  cbn [sms]. fold (isSmsName x). now rewrite IH.
Qed.

(** C3, as stated, fails: of two sheets whose names contain "listing appel"
    (or "listing sms") the loop keeps the one it sees last, while the first
    one is the sheet the claim names. *)
Lemma C3_last_listing_sheet_wins :
  findListingSheets [js "Listing Appel 1"; js "Listing SMS 1";
                     js "Listing Appel 2"; js "Listing SMS 2"]
  = {| calls := Some (js "Listing Appel 2"); sms := Some (js "Listing SMS 2") |}
  /\ find isCallsName [js "Listing Appel 1"; js "Listing SMS 1";
                       js "Listing Appel 2"; js "Listing SMS 2"]
     = Some (js "Listing Appel 1")
  /\ find isSmsName [js "Listing Appel 1"; js "Listing SMS 1";
                     js "Listing Appel 2"; js "Listing SMS 2"]
     = Some (js "Listing SMS 1").
Proof. repeat split; vm_compute; reflexivity. Qed.

(** C3, amended: the calls sheet is the LAST sheet whose normalized name
    contains "listing appel", and the SMS sheet the LAST whose normalized
    name contains "listing sms"; a sheet whose normalized name is exactly
    "listing" is the calls sheet only when no name contains "listing
    appel", and then it is the first such sheet. *)
Theorem C3_listing_sheets_last_match (sheetNames : list str) :
  calls (findListingSheets sheetNames)
  = match findLast isCallsName sheetNames with
    | Some n => Some n
    | None => find isFallbackName sheetNames
    end
  /\ sms (findListingSheets sheetNames) = findLast isSmsName sheetNames.
Proof.
  split; [|apply findListingSheets_sms].
  induction sheetNames as [|x l IH] using rev_ind; [reflexivity|].
  rewrite findListingSheets_snoc, findLast_snoc, find_append.
  unfold listingStep. cbn [calls].
  fold (isCallsName x) (isFallbackName x).
  destruct (isCallsName x) eqn:Cx.
  - assert (Hx : x <> []) by now apply isCallsName_nonempty.
    apply str_eqb_neq in Hx. simpl. rewrite Hx. simpl.
    now rewrite andb_false_r.
  - rewrite IH. unfold findLast in *.
    pose proof (find_isSet isCallsName (rev l) isCallsName_nonempty) as S1.
    pose proof (find_isSet isFallbackName l isFallbackName_nonempty) as S2.
    destruct (find isCallsName (rev l)) as [n|].
    + rewrite S1. now rewrite andb_false_r.
    + destruct (find isFallbackName l) as [n|].
      * rewrite S2. now rewrite andb_false_r.
      * simpl. rewrite andb_true_r. cbn [find].
        now destruct (isFallbackName x).
Qed.

(** ** C8: the Column Inferencer *)

Inductive Role := RLocation | RImei | RCaller | RCalled | RDate | RDuration.

Definition Role_eqb (a b : Role) : bool :=
  match a, b with
  | RLocation, RLocation | RImei, RImei | RCaller, RCaller
  | RCalled, RCalled | RDate, RDate | RDuration, RDuration => true
  | _, _ => false
  end.

(** The Latin-1 letters that carry a diacritic, by their codes, under the
    base letter they are read as once lower-cased and stripped of it:
    the capital and the small letters with grave, acute, circumflex,
    tilde, diaeresis or ring, the c with cedilla. *)
Definition withDiacritic : list (ascii * list nat) :=
  [ ("a"%char, [192; 193; 194; 195; 196; 197; 224; 225; 226; 227; 228; 229]);
    ("c"%char, [199; 231]);
    ("e"%char, [200; 201; 202; 203; 232; 233; 234; 235]);
    ("i"%char, [204; 205; 206; 207; 236; 237; 238; 239]);
    ("n"%char, [209; 241]);
    ("o"%char, [210; 211; 212; 213; 214; 242; 243; 244; 245; 246]);
    ("u"%char, [217; 218; 219; 220; 249; 250; 251; 252]);
    ("y"%char, [221; 253; 255]) ].

(** The other capital letters: A to Z, and the four capitals of Latin-1
    without a diacritic (AE, ETH, O with stroke, THORN); the small letter
    is 32 places up. *)
Definition isPlainCapital (c : ascii) : bool :=
  let n := code c in
  ((65 <=? n) && (n <=? 90)) || existsb (Nat.eqb n) [198; 208; 216; 222].

(** A header as the specification compares it: lower-cased, diacritics
    stripped. *)
Definition plainLetter (c : ascii) : ascii :=
  match find (fun entry => existsb (Nat.eqb (code c)) (snd entry)) withDiacritic with
  | Some entry => fst entry
  | None => if isPlainCapital c then ascii_of_nat (code c + 32) else c
  end.

Definition plain (header : str) : str := map plainLetter header.

(** The classification of one header as the specification words it: the
    header lower-cased and stripped of its diacritics, the rules in their
    priority, the first that matches decides. *)
Definition classify (header : str) : option Role :=
  let h := plain header in
  if includes h (js "localisation") then Some RLocation
  else if includes h (js "imei") then Some RImei
  else if startsWith h (js "numero appelant") then Some RCaller
  else if startsWith h (js "numero emetteur") then Some RCaller
  else if startsWith h (js "numero appele") then Some RCalled
  else if startsWith h (js "numero recepteur") then Some RCalled
  else if includes h (js "date") then Some RDate
  else if includes h (js "duree") then Some RDuration
  else None.

Definition hasRole (r : Role) (header : str) : bool :=
  match classify header with
  | Some r' => Role_eqb r r'
  | None => false
  end.

(** The column of a role: the last header classified with it. *)
Definition columnOf (r : Role) (columns : list str) : option str :=
  findLast (hasRole r) columns.

(** [normalizeString] lower-cases and strips the diacritics. *)
Lemma normalizeString_plain (s : str) : normalizeString s = plain s.
Proof.
  unfold normalizeString, toLowerCase, plain. rewrite map_map.
  apply map_ext. intros c. each_char c; reflexivity.
Qed.

Lemma columnStep_classify (acc : Columns) (col : str) :
  columnStep acc col
  = {| callerNumberCol := if hasRole RCaller col then Some col else callerNumberCol acc;
       calledNumberCol := if hasRole RCalled col then Some col else calledNumberCol acc;
       imeiCol := if hasRole RImei col then Some col else imeiCol acc;
       dateCol := if hasRole RDate col then Some col else dateCol acc;
       durationCol := if hasRole RDuration col then Some col else durationCol acc;
       locationCol := if hasRole RLocation col then Some col else locationCol acc |}.
Proof.
  unfold columnStep, hasRole, classify. rewrite <- (normalizeString_plain col).
  destruct (includes (normalizeString col) (js "localisation")); [reflexivity|].
  destruct (includes (normalizeString col) (js "imei")); [reflexivity|].
  destruct (startsWith (normalizeString col) (js "numero appelant")); [reflexivity|].
  destruct (startsWith (normalizeString col) (js "numero emetteur")); [reflexivity|].
  destruct (startsWith (normalizeString col) (js "numero appele")); [reflexivity|].
  destruct (startsWith (normalizeString col) (js "numero recepteur")); [reflexivity|].
  destruct (includes (normalizeString col) (js "date")); [reflexivity|].
  destruct (includes (normalizeString col) (js "duree")); [reflexivity|].
  now destruct acc.
Qed.

(** C8: every header is classified, once lower-cased and stripped of its
    diacritics ([plain]), by the first rule of the priority list that
    matches it (contains localisation, contains imei, starts with numero
    appelant / numero emetteur, starts with numero appele / numero
    recepteur, contains date, contains duree), so it gets at most one role
    and none when no rule matches; the column of each role is the last
    header of the list classified with that role. *)
Theorem C8_identifyColumns_by_priority (columns : list str) :
  identifyColumns columns
  = {| callerNumberCol := columnOf RCaller columns;
       calledNumberCol := columnOf RCalled columns;
       imeiCol := columnOf RImei columns;
       dateCol := columnOf RDate columns;
       durationCol := columnOf RDuration columns;
       locationCol := columnOf RLocation columns |}.
Proof.
  unfold identifyColumns, columnOf.
  induction columns as [|x l IH] using rev_ind; [reflexivity|].
  rewrite fold_left_app. cbn [fold_left]. rewrite IH, columnStep_classify.
  cbn [callerNumberCol calledNumberCol imeiCol dateCol durationCol locationCol].
  now rewrite !findLast_snoc.
Qed.

(** Headers in capitals and with their accents: NUM[E acute]RO APPELANT,
    Num[e acute]ro Appel[e acute], Date, DUR[E acute]E, a second
    Dur[e circumflex]e, Localisation. *)
Example columns_accented :
  let caller := js "NUM" ++ ["201"%char] ++ js "RO APPELANT" in
  let called := js "Num" ++ ["233"%char] ++ js "ro Appel" ++ ["233"%char] in
  let duration1 := js "DUR" ++ ["201"%char] ++ js "E" in
  let duration2 := js "Dur" ++ ["234"%char] ++ js "e" in
  plain caller = js "numero appelant"
  /\ plain called = js "numero appele"
  /\ identifyColumns [caller; called; js "Date"; duration1; duration2;
                      js "Localisation"]
     = {| callerNumberCol := Some caller; calledNumberCol := Some called;
          imeiCol := None; dateCol := Some (js "Date");
          durationCol := Some duration2;
          locationCol := Some (js "Localisation") |}.
Proof. repeat split; vm_compute; reflexivity. Qed.

(** ** Sorting *)

Section Sorting.
Context {A : Type} (key : A -> Z).

Definition keyLe (a b : A) : Prop := (key a <= key b)%Z.

Lemma insertBy_perm (x : A) (l : list A) :
  Permutation (insertBy key x l) (x :: l).
Proof.
  induction l as [|y l IH]; simpl; [reflexivity|].
  destruct (key x <=? key y)%Z; [reflexivity|].
  rewrite IH. apply perm_swap.
Qed.

Lemma sortBy_perm (l : list A) : Permutation (sortBy key l) l.
Proof.
  induction l as [|x l IH]; simpl; [reflexivity|].
  rewrite insertBy_perm. now constructor.
Qed.

Lemma sortBy_In (x : A) (l : list A) : In x (sortBy key l) <-> In x l.
Proof.
  split; apply Permutation_in; [|symmetry]; apply sortBy_perm.
Qed.

Lemma insertBy_sorted (x : A) (l : list A) :
  Sorted keyLe l -> Sorted keyLe (insertBy key x l).
Proof.
  induction 1 as [|y l Hs IH Hd]; simpl; [repeat constructor|].
  destruct (key x <=? key y)%Z eqn:Hxy.
  - apply Z.leb_le in Hxy. repeat constructor; assumption.
  - apply Z.leb_gt in Hxy. constructor; [assumption|].
    destruct l as [|z l]; simpl.
    + constructor. unfold keyLe. lia.
    + destruct (key x <=? key z)%Z.
      * constructor. unfold keyLe. lia.
      * constructor. now inversion Hd.
Qed.

Lemma sortBy_sorted (l : list A) : Sorted keyLe (sortBy key l).
Proof.
  induction l as [|x l IH]; simpl; [constructor|]. now apply insertBy_sorted.
Qed.

(** [Sorted] read on adjacent indices. *)
Lemma Sorted_adjacent (l : list A) (i : nat) (a b : A) :
  Sorted keyLe l ->
  nth_error l i = Some a -> nth_error l (S i) = Some b -> keyLe a b.
Proof.
  intros Hs. revert i. induction Hs as [|y l Hs IH Hd]; intros i Ha Hb.
  - destruct i; discriminate.
  - destruct i as [|i]; simpl in *.
    + injection Ha as ->. destruct l as [|z l]; [discriminate|].
      injection Hb as ->. now inversion Hd.
    + now apply (IH i).
Qed.

Lemma filter_length_perm (p : A -> bool) (l l' : list A) :
  Permutation l l' -> List.length (filter p l) = List.length (filter p l').
Proof.
  induction 1 as [|x l l' _ IH|x y l|l l' l'' _ IH1 _ IH2]; simpl.
  - reflexivity.
  - destruct (p x); simpl; congruence.
  - destruct (p x), (p y); reflexivity.
  - congruence.
Qed.
End Sorting.

(** ** Maps *)

Section MapFacts.
Context {V : Type}.

Lemma mapGet_mapSet_same (k : str) (v : V) (m : Map V) :
  mapGet k (mapSet k v m) = Some v.
Proof.
  induction m as [|[k' v'] m IH]; simpl.
  - now rewrite str_eqb_refl.
  - destruct (str_eqb k' k) eqn:Hk; simpl; now rewrite Hk.
Qed.

Lemma mapGet_mapSet_other (k k' : str) (v : V) (m : Map V) :
  k <> k' -> mapGet k' (mapSet k v m) = mapGet k' m.
Proof.
  intros Hne. induction m as [|[k0 v0] m IH]; simpl.
  - apply str_eqb_neq in Hne. now rewrite Hne.
  - destruct (str_eqb k0 k) eqn:Hk; simpl.
    + apply str_eqb_eq in Hk. subst k0.
      apply str_eqb_neq in Hne. now rewrite Hne.
    + now rewrite IH.
Qed.

Lemma mapGet_None_keys (k : str) (m : Map V) :
  mapGet k m = None <-> ~ In k (map fst m).
Proof.
  induction m as [|[k' v'] m IH]; simpl; [tauto|].
  destruct (str_eqb k' k) eqn:Hk.
  - apply str_eqb_eq in Hk. split; [discriminate|tauto].
  - apply str_eqb_neq in Hk. rewrite IH. tauto.
Qed.

Lemma mapSet_keys (k : str) (v : V) (m : Map V) :
  map fst (mapSet k v m)
  = if mapHas k m then map fst m else map fst m ++ [k].
Proof.
  unfold mapHas. induction m as [|[k' v'] m IH]; simpl; [reflexivity|].
  destruct (str_eqb k' k) eqn:Hk; simpl; [reflexivity|].
  rewrite IH. now destruct (mapGet k m).
Qed.

Lemma mapSet_NoDup (k : str) (v : V) (m : Map V) :
  NoDup (map fst m) -> NoDup (map fst (mapSet k v m)).
Proof.
  intros H. rewrite mapSet_keys. unfold mapHas.
  destruct (mapGet k m) eqn:G; [assumption|].
  apply mapGet_None_keys in G.
  apply NoDup_rev in H. rewrite <- (rev_involutive (map fst m ++ [k])).
  apply NoDup_rev. rewrite rev_app_distr. simpl. constructor; [|assumption].
  now rewrite <- in_rev.
Qed.

(** In a map without repeated keys an entry is what [get] returns. *)
Lemma mapGet_In (k : str) (v : V) (m : Map V) :
  NoDup (map fst m) -> In (k, v) m -> mapGet k m = Some v.
Proof.
  induction m as [|[k' v'] m IH]; simpl; intros Hnd Hin; [contradiction|].
  inversion Hnd as [|? ? Hk' Hnd']; subst.
  destruct Hin as [Heq|Hin].
  - injection Heq as -> ->. now rewrite str_eqb_refl.
  - destruct (str_eqb k' k) eqn:Hk; [|now apply IH].
    apply str_eqb_eq in Hk. subst k'. exfalso. apply Hk'.
    change k with (fst (k, v)). now apply in_map.
Qed.

Lemma mapGet_Some_In (k : str) (v : V) (m : Map V) :
  mapGet k m = Some v -> In (k, v) m.
Proof.
  induction m as [|[k' v'] m IH]; simpl; [discriminate|].
  destruct (str_eqb k' k) eqn:Hk; [|auto].
  apply str_eqb_eq in Hk. subst k'. intros [= ->]. now left.
Qed.

Lemma mapGet_map {W : Type} (f : V -> W) (k : str) (m : Map V) :
  mapGet k (map (fun kv => (fst kv, f (snd kv))) m)
  = option_map f (mapGet k m).
Proof.
  induction m as [|[k' v'] m IH]; simpl; [reflexivity|].
  now destruct (str_eqb k' k).
Qed.
End MapFacts.

(** ** The aggregator in closed form *)

(** The records the first loop folds into the entry of [k]. *)
Definition accepted (k : str) (r : CallRecord) : bool :=
  negb (tooShort (callerNumber r)) && str_eqb (callerNumber r) k.

Definition recordsOf (k : str) (rs : list CallRecord) : list CallRecord :=
  filter (accepted k) rs.

Section AggregatorLoop.
Variable subscriberMap : Map SubscriberInfo.

Definition entryOr (k : str) (o : option PhoneNumber) : PhoneNumber :=
  match o with
  | Some p => p
  | None => newPhone subscriberMap k
  end.

Lemma aggregateStep_get (m : Map PhoneNumber) (r : CallRecord) (k : str) :
  mapGet k (aggregateStep subscriberMap m r)
  = if accepted k r then Some (addRecord (entryOr k (mapGet k m)) r)
    else mapGet k m.
Proof.
  unfold aggregateStep, accepted.
  destruct (tooShort (callerNumber r)); [reflexivity|]. cbn [negb andb].
  set (n := callerNumber r).
  unfold mapHas.
  destruct (str_eqb n k) eqn:Hk.
  - apply str_eqb_eq in Hk. subst k.
    destruct (mapGet n m) as [p|] eqn:G; cbn [negb entryOr].
    + rewrite G. apply mapGet_mapSet_same.
    + rewrite mapGet_mapSet_same. apply mapGet_mapSet_same.
  - apply str_eqb_neq in Hk.
    destruct (mapGet n m) as [p|] eqn:G; cbn [negb].
    + rewrite G. now apply mapGet_mapSet_other.
    + rewrite mapGet_mapSet_same.
      now rewrite !mapGet_mapSet_other.
Qed.

Lemma aggregateStep_NoDup (m : Map PhoneNumber) (r : CallRecord) :
  NoDup (map fst m) -> NoDup (map fst (aggregateStep subscriberMap m r)).
Proof.
  intros H. unfold aggregateStep.
  destruct (tooShort (callerNumber r)); [assumption|].
  set (m' := if negb (mapHas _ m) then _ else m).
  assert (H' : NoDup (map fst m')).
  { subst m'. destruct (negb (mapHas (callerNumber r) m)); [|assumption].
    now apply mapSet_NoDup. }
  destruct (mapGet (callerNumber r) m'); [|assumption].
  now apply mapSet_NoDup.
Qed.

Lemma aggregateLoop_NoDup (rs : list CallRecord) (m : Map PhoneNumber) :
  NoDup (map fst m) ->
  NoDup (map fst (fold_left (aggregateStep subscriberMap) rs m)).
Proof.
  revert m. induction rs as [|r rs IH]; intros m H; simpl; [assumption|].
  apply IH. now apply aggregateStep_NoDup.
Qed.

Lemma aggregateLoop_get (rs : list CallRecord) (m : Map PhoneNumber) (k : str) :
  mapGet k (fold_left (aggregateStep subscriberMap) rs m)
  = match recordsOf k rs with
    | [] => mapGet k m
    | l => Some (fold_left addRecord l (entryOr k (mapGet k m)))
    end.
Proof.
  revert m. induction rs as [|r rs IH]; intros m; simpl; [reflexivity|].
  rewrite IH, aggregateStep_get. unfold recordsOf. simpl.
  destruct (accepted k r); simpl.
  - now destruct (filter (accepted k) rs).
  - reflexivity.
Qed.
End AggregatorLoop.

(** Every entry of the aggregate map: its key has accepted records, and
    the entry is the fold of [addRecord] over them, then sorted. *)
Lemma aggregate_entry (rs : list CallRecord) (subs : list SubscriberInfo)
    (k : str) (agg : PhoneNumber) :
  In (k, agg) (aggregateByPhoneNumber rs subs) ->
  recordsOf k rs <> []
  /\ agg = sortRecords
             (fold_left addRecord (recordsOf k rs)
                (newPhone (mapOf (map (fun s => (sub_number s, s)) subs)) k)).
Proof.
  unfold aggregateByPhoneNumber.
  set (sm := mapOf _). set (m := fold_left (aggregateStep sm) rs []).
  intros Hin.
  assert (Hnd : NoDup (map fst (map (fun kv : str * PhoneNumber =>
                                       (fst kv, sortRecords (snd kv))) m))).
  { rewrite map_map. simpl. apply aggregateLoop_NoDup. constructor. }
  apply mapGet_In in Hin; [|exact Hnd].
  rewrite mapGet_map in Hin. subst m. rewrite aggregateLoop_get in Hin.
  simpl in Hin.
  destruct (recordsOf k rs) as [|r l] eqn:R; [discriminate|].
  split; [discriminate|]. simpl in Hin. now injection Hin as <-.
Qed.

(** Conversely every accepted record reaches the entry of its number. *)
Lemma aggregate_get (rs : list CallRecord) (subs : list SubscriberInfo) (k : str) :
  mapGet k (aggregateByPhoneNumber rs subs)
  = match recordsOf k rs with
    | [] => None
    | l => Some (sortRecords
                   (fold_left addRecord l
                      (newPhone (mapOf (map (fun s => (sub_number s, s)) subs)) k)))
    end.
Proof.
  unfold aggregateByPhoneNumber. rewrite mapGet_map, aggregateLoop_get. simpl.
  now destruct (recordsOf k rs).
Qed.

(** What the fold of [addRecord] leaves in each field. *)
Lemma addRecords_records (l : list CallRecord) (p : PhoneNumber) :
  records (fold_left addRecord l p) = records p ++ l.
Proof.
  revert p. induction l as [|r l IH]; intros p; simpl.
  - now rewrite app_nil_r.
  - rewrite IH. simpl. now rewrite <- app_assoc.
Qed.

Lemma addRecords_number (l : list CallRecord) (p : PhoneNumber) :
  number (fold_left addRecord l p) = number p
  /\ identity (fold_left addRecord l p) = identity p.
Proof.
  revert p. induction l as [|r l IH]; intros p; simpl; [split; reflexivity|].
  destruct (IH (addRecord p r)) as [-> ->]. split; reflexivity.
Qed.

Lemma addRecords_counts (l : list CallRecord) (p : PhoneNumber) :
  smsCount (fold_left addRecord l p)
  = smsCount p + List.length (filter (fun r => isSmsDuration (duration r)) l)
  /\ callCount (fold_left addRecord l p)
     = callCount p
       + List.length (filter (fun r => negb (isSmsDuration (duration r))) l).
Proof.
  revert p. induction l as [|r l IH]; intros p; simpl; [lia|].
  destruct (IH (addRecord p r)) as [-> ->]. simpl.
  destruct (isSmsDuration (duration r)); simpl; lia.
Qed.

Lemma addRecords_activity (l : list CallRecord) (p : PhoneNumber) :
  (firstActivity (fold_left addRecord l p) = None
   <-> firstActivity p = None /\ Forall (fun r => dateTime r = None) l)
  /\ (lastActivity (fold_left addRecord l p) = None
      <-> lastActivity p = None /\ Forall (fun r => dateTime r = None) l).
Proof.
  revert p. induction l as [|r l IH]; intros p; simpl.
  - split; (split; [intros H; split; [assumption|constructor]|tauto]).
  - destruct (IH (addRecord p r)) as [-> ->]. simpl.
    split; (split; [intros [H1 H2]|intros [H1 H2]; inversion H2 as [|? ? H3 H4]; subst]).
    + destruct (dateTime r) as [t|] eqn:D.
      * destruct (firstActivity p) as [f|]; [destruct (t <? f)%Z|]; discriminate.
      * split; [assumption|]. constructor; assumption.
    + rewrite H3. split; assumption.
    + destruct (dateTime r) as [t|] eqn:D.
      * destruct (lastActivity p) as [f|]; [destruct (f <? t)%Z|]; discriminate.
      * split; [assumption|]. constructor; assumption.
    + rewrite H3. split; assumption.
Qed.

(** Records whose caller number fails the guard leave the map as it is. *)
Lemma aggregateLoop_ignores (sm : Map SubscriberInfo) (rs : list CallRecord)
    (m : Map PhoneNumber) :
  fold_left (aggregateStep sm) rs m
  = fold_left (aggregateStep sm)
      (filter (fun r => negb (tooShort (callerNumber r))) rs) m.
Proof.
  revert m. induction rs as [|r rs IH]; intros m; simpl; [reflexivity|].
  destruct (tooShort (callerNumber r)) eqn:T; simpl.
  - rewrite <- IH. unfold aggregateStep at 2. now rewrite T.
  - apply IH.
Qed.

Lemma accepted_inv (k : str) (r : CallRecord) :
  accepted k r = true ->
  callerNumber r = k /\ k <> [] /\ 6 <= List.length k.
Proof.
  unfold accepted, tooShort. intros H.
  apply andb_true_iff in H as [H1 H2].
  apply str_eqb_eq in H2. subst k.
  apply negb_true_iff, orb_false_iff in H1 as [H1 H3].
  apply str_eqb_neq in H1. apply Nat.ltb_ge in H3. auto.
Qed.

(** ** Rounding to a double *)

Section Rounding.

Local Open Scope Z_scope.

Lemma nearestEven_near (n d : Z) :
  0 < d -> 2 * Z.abs (nearestEven n d * d - n) <= d.
Proof.
  intros Hd. unfold nearestEven.
  pose proof (Z.div_mod n d ltac:(lia)) as E.
  pose proof (Z.mod_pos_bound n d Hd) as B.
  destruct (2 * (n mod d) <? d) eqn:L1; [apply Z.ltb_lt in L1; nia|].
  apply Z.ltb_ge in L1.
  destruct (d <? 2 * (n mod d)) eqn:L2; [apply Z.ltb_lt in L2; nia|].
  apply Z.ltb_ge in L2.
  destruct (Z.even (n / d)); nia.
Qed.

Lemma nearestEven_le (n d k : Z) :
  0 < d -> n <= k * d -> nearestEven n d <= k.
Proof.
  intros Hd H. unfold nearestEven.
  pose proof (Z.div_mod n d ltac:(lia)) as E.
  pose proof (Z.mod_pos_bound n d Hd) as B.
  destruct (2 * (n mod d) <? d) eqn:L1; [nia|].
  apply Z.ltb_ge in L1.
  destruct (d <? 2 * (n mod d)); [nia|].
  destruct (Z.even (n / d)); nia.
Qed.

Lemma nearestEven_ge (n d k : Z) :
  0 < d -> k * d <= n -> k <= nearestEven n d.
Proof.
  intros Hd H. unfold nearestEven.
  pose proof (Z.div_mod n d ltac:(lia)) as E.
  pose proof (Z.mod_pos_bound n d Hd) as B.
  destruct (2 * (n mod d) <? d); [nia|].
  destruct (d <? 2 * (n mod d)); [nia|].
  destruct (Z.even (n / d)); nia.
Qed.

Lemma nearestEven_exact (m d : Z) : 0 < d -> nearestEven (m * d) d = m.
Proof.
  intros Hd. apply Z.le_antisymm.
  - apply nearestEven_le; lia.
  - apply nearestEven_ge; lia.
Qed.

(** [2 ^ f <= n / d < 2 ^ (f + 1)], without division. *)
Definition atLeastPow2 (n d : positive) (f : Z) : Prop :=
  Zpos d * 2 ^ Z.max 0 f <= Zpos n * 2 ^ Z.max 0 (- f).

Lemma pow2_pos (k : Z) : 0 < 2 ^ Z.max 0 k.
Proof. apply Z.pow_pos_nonneg; lia. Qed.

Lemma pow2_split (a b : Z) : 0 <= a -> 0 <= b -> 2 ^ (a + b) = 2 ^ a * 2 ^ b.
Proof. intros. now apply Z.pow_add_r. Qed.

Lemma atLeastPow2_down (n d : positive) (f g : Z) :
  g <= f -> atLeastPow2 n d f -> atLeastPow2 n d g.
Proof.
  unfold atLeastPow2. intros L H.
  pose proof (pow2_pos f) as P1. pose proof (pow2_pos (- f)) as P2.
  pose proof (pow2_pos g) as P3. pose proof (pow2_pos (- g)) as P4.
  destruct (Z.le_gt_cases 0 g) as [G|G].
  - (* 0 <= g <= f *)
    rewrite (Z.max_r 0 f), (Z.max_l 0 (- f)), Z.pow_0_r in H by lia.
    rewrite (Z.max_r 0 g), (Z.max_l 0 (- g)), Z.pow_0_r by lia.
    replace f with (g + (f - g)) in H by lia.
    rewrite pow2_split in H by lia.
    assert (0 < 2 ^ (f - g)) by (apply Z.pow_pos_nonneg; lia).
    rewrite (Z.max_r 0 g) in P3 by lia. nia.
  - destruct (Z.le_gt_cases 0 f) as [F|F].
    + (* g < 0 <= f *)
      rewrite (Z.max_r 0 f), (Z.max_l 0 (- f)), Z.pow_0_r in H by lia.
      rewrite (Z.max_l 0 g), (Z.max_r 0 (- g)), Z.pow_0_r by lia.
      rewrite (Z.max_r 0 f) in P1 by lia.
      rewrite (Z.max_r 0 (- g)) in P4 by lia. nia.
    + (* g <= f < 0 *)
      rewrite (Z.max_l 0 f), (Z.max_r 0 (- f)), Z.pow_0_r in H by lia.
      rewrite (Z.max_l 0 g), (Z.max_r 0 (- g)), Z.pow_0_r by lia.
      replace (- g) with (- f + (f - g)) by lia.
      rewrite pow2_split by lia.
      assert (0 < 2 ^ (f - g)) by (apply Z.pow_pos_nonneg; lia).
      rewrite (Z.max_r 0 (- f)) in P2 by lia. nia.
Qed.

Lemma log2_bounds (p : positive) :
  2 ^ Z.log2 (Zpos p) <= Zpos p < 2 ^ (Z.log2 (Zpos p) + 1) /\ 0 <= Z.log2 (Zpos p).
Proof.
  split; [|apply Z.log2_nonneg].
  replace (Z.log2 (Zpos p) + 1) with (Z.succ (Z.log2 (Zpos p))) by lia.
  apply Z.log2_spec. lia.
Qed.

Lemma floorLog2_spec (n d : positive) :
  atLeastPow2 n d (floorLog2 n d) /\ ~ atLeastPow2 n d (floorLog2 n d + 1).
Proof.
  unfold floorLog2, atLeastPow2.
  destruct (log2_bounds n) as [[A1 A2] A0]. destruct (log2_bounds d) as [[B1 B2] B0].
  set (a := Z.log2 (Zpos n)) in *. set (b := Z.log2 (Zpos d)) in *.
  rewrite pow2_split in A2, B2 by lia. change (2 ^ 1) with 2 in A2, B2.
  destruct (Zpos n * 2 ^ Z.max 0 (- (a - b)) <? Zpos d * 2 ^ Z.max 0 (a - b)) eqn:T.
  - apply Z.ltb_lt in T. replace (a - b - 1 + 1) with (a - b) by lia.
    split; [|lia].
    destruct (Z.le_gt_cases 1 (a - b)) as [K|K].
    + rewrite (Z.max_r 0 (a - b - 1)), (Z.max_l 0 (- (a - b - 1))), Z.pow_0_r by lia.
      replace a with (b + 1 + (a - b - 1)) in A1 by lia.
      rewrite !pow2_split in A1 by lia. change (2 ^ 1) with 2 in A1.
      assert (0 < 2 ^ (a - b - 1)) by (apply Z.pow_pos_nonneg; lia). nia.
    + rewrite (Z.max_l 0 (a - b - 1)), (Z.max_r 0 (- (a - b - 1))), Z.pow_0_r by lia.
      replace (- (a - b - 1)) with (b + 1 - a) by lia.
      replace (b + 1) with (a + (b + 1 - a)) in B2 at 1 by lia.
      assert (E : 2 ^ b * 2 = 2 ^ a * 2 ^ (b + 1 - a)).
      { rewrite <- pow2_split by lia. replace (a + (b + 1 - a)) with (b + 1) by lia.
        rewrite pow2_split by lia. reflexivity. }
      assert (0 < 2 ^ (b + 1 - a)) by (apply Z.pow_pos_nonneg; lia). nia.
  - apply Z.ltb_ge in T. split; [exact T|]. intros U.
    destruct (Z.le_gt_cases 0 (a - b)) as [K|K].
    + rewrite (Z.max_r 0 (a - b + 1)), (Z.max_l 0 (- (a - b + 1))), Z.pow_0_r in U by lia.
      assert (E : 2 ^ a * 2 = 2 ^ b * 2 ^ (a - b + 1)).
      { rewrite <- pow2_split by lia. replace (b + (a - b + 1)) with (a + 1) by lia.
        rewrite pow2_split by lia. reflexivity. }
      assert (0 < 2 ^ (a - b + 1)) by (apply Z.pow_pos_nonneg; lia). nia.
    + rewrite (Z.max_l 0 (a - b + 1)), (Z.max_r 0 (- (a - b + 1))), Z.pow_0_r in U by lia.
      assert (E : 2 ^ b = 2 ^ a * 2 * 2 ^ (- (a - b + 1))).
      { replace b with (a + 1 + (- (a - b + 1))) at 1 by lia.
        rewrite !pow2_split by lia. reflexivity. }
      assert (0 < 2 ^ (- (a - b + 1))) by (apply Z.pow_pos_nonneg; lia). nia.
Qed.

Lemma roundPos_eq (n d : positive) :
  let e := Z.max (-1074) (floorLog2 n d - 52) in
  let m := nearestEven (Zpos n * 2 ^ Z.max 0 (- e)) (Zpos d * 2 ^ Z.max 0 e) in
  (roundPos n d == Qmake (m * 2 ^ Z.max 0 e) (Z.to_pos (2 ^ Z.max 0 (- e))))%Q.
Proof. intros e m. unfold roundPos. apply Qred_correct. Qed.

Lemma roundPos_nonneg (n d : positive) : (0 <= roundPos n d)%Q.
Proof.
  rewrite roundPos_eq. cbv zeta.
  set (e := Z.max (-1074) (floorLog2 n d - 52)).
  pose proof (pow2_pos e) as P1. pose proof (pow2_pos (- e)) as P2.
  unfold Qle. cbn [Qnum Qden]. rewrite Z.mul_1_r, Z.mul_0_l.
  apply Z.mul_nonneg_nonneg; [|lia].
  apply nearestEven_ge; nia.
Qed.

(** Rounding does not pass an integer that is a double. *)
Lemma roundPos_le (n d : positive) (b : Z) :
  0 < b < 2 ^ 53 -> (Zpos n # d <= inject_Z b)%Q ->
  (roundPos n d <= inject_Z b)%Q.
Proof.
  intros [B0 B1] H. rewrite roundPos_eq. cbv zeta.
  set (e := Z.max (-1074) (floorLog2 n d - 52)).
  unfold Qle in *. cbn [Qnum Qden inject_Z] in *. rewrite Z.mul_1_r in H.
  assert (E : e <= 0).
  { destruct (Z.le_gt_cases e 0) as [L|L]; [exact L|exfalso].
    assert (A : atLeastPow2 n d 53).
    { apply atLeastPow2_down with (f := floorLog2 n d); [lia|].
      apply floorLog2_spec. }
    unfold atLeastPow2 in A. change (Z.max 0 53) with 53 in A.
    change (Z.max 0 (- 53)) with 0 in A. rewrite Z.pow_0_r in A. nia. }
  rewrite (Z.max_l 0 e), Z.pow_0_r, !Z.mul_1_r by lia.
  pose proof (pow2_pos (- e)) as P.
  rewrite Z2Pos.id by exact P.
  apply nearestEven_le; [lia|]. nia.
Qed.

(** Below 256 a double is within [2 ^ -46] of the number it rounds. *)
Lemma roundPos_near (n d : positive) :
  (Zpos n # d < inject_Z 256)%Q ->
  (roundPos n d - (Zpos n # d) <= 1 # 2 ^ 46)%Q
  /\ ((Zpos n # d) - roundPos n d <= 1 # 2 ^ 46)%Q.
Proof.
  intros H. rewrite roundPos_eq. cbv zeta.
  set (e := Z.max (-1074) (floorLog2 n d - 52)).
  unfold Qlt in H. cbn [Qnum Qden inject_Z] in H. rewrite Z.mul_1_r in H.
  assert (E : e <= -45).
  { destruct (Z.le_gt_cases e (-45)) as [L|L]; [exact L|exfalso].
    assert (A : atLeastPow2 n d 8).
    { apply atLeastPow2_down with (f := floorLog2 n d); [lia|].
      apply floorLog2_spec. }
    unfold atLeastPow2 in A. change (Z.max 0 8) with 8 in A.
    change (Z.max 0 (- 8)) with 0 in A. rewrite Z.pow_0_r in A.
    change (2 ^ 8) with 256 in A. lia. }
  rewrite (Z.max_l 0 e), (Z.max_r 0 (- e)), Z.pow_0_r, !Z.mul_1_r by lia.
  assert (P : 2 ^ 45 <= 2 ^ (- e)) by (apply Z.pow_le_mono_r; lia).
  pose proof (@nearestEven_near (Zpos n * 2 ^ (- e)) (Zpos d) ltac:(lia)) as M.
  set (m := nearestEven (Zpos n * 2 ^ (- e)) (Zpos d)) in *.
  set (p := 2 ^ (- e)) in *.
  assert (P0 : 0 < p) by (change (2 ^ 45) with 35184372088832 in P; lia).
  unfold Qle, Qminus, Qplus, Qopp. cbn [Qnum Qden].
  rewrite !Pos2Z.inj_mul, Z2Pos.id by exact P0.
  change (Zpos (2 ^ 46)) with (2 * 2 ^ 45). 
  split; nia.
Qed.

(** [m * 2 ^ e] as a fraction. *)
Definition dyadic (m e : Z) : Q :=
  Qmake (m * 2 ^ Z.max 0 e) (Z.to_pos (2 ^ Z.max 0 (- e))).

(** The numbers a double can hold, its largest exponent left aside: a
    significand of at most 53 bits over a power of two not below
    [2 ^ -1074]. *)
Definition representable (q : Q) : Prop :=
  exists m e, Z.abs m < 2 ^ 53 /\ -1074 <= e /\ (q == dyadic m e)%Q.

Lemma scale_add (a b : Z) :
  2 ^ Z.max 0 (a + b) * 2 ^ Z.max 0 (- a) * 2 ^ Z.max 0 (- b)
  = 2 ^ Z.max 0 a * 2 ^ Z.max 0 b * 2 ^ Z.max 0 (- (a + b)).
Proof.
  rewrite <- !Z.pow_add_r by lia. f_equal. lia.
Qed.

Lemma dyadic_eq (n d : positive) (m e : Z) :
  (Zpos n # d == dyadic m e)%Q
  <-> Zpos n * 2 ^ Z.max 0 (- e) = m * 2 ^ Z.max 0 e * Zpos d.
Proof.
  unfold dyadic, Qeq. cbn [Qnum Qden].
  rewrite Z2Pos.id by apply pow2_pos. reflexivity.
Qed.

Lemma roundPos_exact (n d : positive) (m0 e0 : Z) :
  m0 < 2 ^ 53 -> -1074 <= e0 -> (Zpos n # d == dyadic m0 e0)%Q ->
  (roundPos n d == Zpos n # d)%Q.
Proof.
  intros M0 E0 H. apply dyadic_eq in H.
  rewrite roundPos_eq. cbv zeta.
  set (f := floorLog2 n d). set (e := Z.max (-1074) (f - 52)).
  pose proof (pow2_pos e0) as U0. pose proof (pow2_pos (- e0)) as D0.
  pose proof (pow2_pos e) as U. pose proof (pow2_pos (- e)) as D.
  assert (L : e <= e0).
  { destruct (Z.le_gt_cases e e0) as [L|L]; [exact L|exfalso].
    assert (A : atLeastPow2 n d (53 + e0)).
    { apply atLeastPow2_down with (f := f); [lia|]. apply floorLog2_spec. }
    unfold atLeastPow2 in A.
    pose proof (scale_add 53 e0) as S.
    change (Z.max 0 53) with 53 in S. change (Z.max 0 (- 53)) with 0 in S.
    rewrite Z.pow_0_r in S.
    pose proof (pow2_pos (53 + e0)) as U1. pose proof (pow2_pos (- (53 + e0))) as D1.
    set (x := 2 ^ Z.max 0 (53 + e0)) in *. set (y := 2 ^ Z.max 0 (- (53 + e0))) in *.
    set (u := 2 ^ Z.max 0 e0) in *. set (v := 2 ^ Z.max 0 (- e0)) in *.
    assert (Zpos d * (x * v) <= Zpos d * (m0 * (u * y))) by nia.
    assert (x * v <= m0 * (u * y)) by nia.
    assert (x * v = 2 ^ 53 * (u * y)) by nia.
    assert (0 < u * y) by nia. nia. }
  pose proof (scale_add e (e0 - e)) as S.
  replace (e + (e0 - e)) with e0 in S by lia.
  rewrite (Z.max_r 0 (e0 - e)), (Z.max_l 0 (- (e0 - e))), Z.pow_0_r in S by lia.
  assert (G : 0 < 2 ^ (e0 - e)) by (apply Z.pow_pos_nonneg; lia).
  set (g := 2 ^ (e0 - e)) in *.
  set (u := 2 ^ Z.max 0 e0) in *. set (v := 2 ^ Z.max 0 (- e0)) in *.
  set (x := 2 ^ Z.max 0 e) in *. set (y := 2 ^ Z.max 0 (- e)) in *.
  assert (N : Zpos n * y = (m0 * g) * (Zpos d * x)).
  { assert (Zpos n * y * v = (m0 * g) * (Zpos d * x) * v) by nia. nia. }
  rewrite N, nearestEven_exact by nia.
  unfold Qeq. cbn [Qnum Qden]. rewrite Z2Pos.id by exact D. fold y. nia.
Qed.

Lemma roundPos_representable (n d : positive) : representable (roundPos n d).
Proof.
  pose proof (roundPos_eq n d) as R. cbv zeta in R.
  set (f := floorLog2 n d) in *. set (e := Z.max (-1074) (f - 52)) in *.
  set (m := nearestEven _ _) in *.
  pose proof (pow2_pos e) as U. pose proof (pow2_pos (- e)) as D.
  assert (M0 : 0 <= m) by (apply nearestEven_ge; nia).
  assert (M1 : m <= 2 ^ 53).
  { apply nearestEven_le; [nia|].
    assert (A : ~ atLeastPow2 n d (e + 53)).
    { intros A. apply (proj2 (floorLog2_spec n d)).
      apply atLeastPow2_down with (f := e + 53); [fold f; lia|exact A]. }
    unfold atLeastPow2 in A.
    pose proof (scale_add e 53) as S.
    change (Z.max 0 53) with 53 in S. change (Z.max 0 (- 53)) with 0 in S.
    rewrite Z.pow_0_r in S.
    pose proof (pow2_pos (e + 53)) as U1. pose proof (pow2_pos (- (e + 53))) as D1.
    set (x := 2 ^ Z.max 0 (e + 53)) in *. set (y := 2 ^ Z.max 0 (- (e + 53))) in *.
    set (u := 2 ^ Z.max 0 e) in *. set (v := 2 ^ Z.max 0 (- e)) in *.
    assert (Zpos n * v * y < 2 ^ 53 * (Zpos d * u) * y) by nia. nia. }
  destruct (Z.eq_dec m (2 ^ 53)) as [T|T].
  - exists (2 ^ 52), (e + 1). split; [reflexivity|]. split; [lia|].
    rewrite R. unfold dyadic, Qeq. cbn [Qnum Qden].
    rewrite !Z2Pos.id by apply pow2_pos. rewrite T.
    pose proof (scale_add e 1) as S.
    change (Z.max 0 1) with 1 in S. change (Z.max 0 (- 1)) with 0 in S.
    rewrite Z.pow_0_r in S. change (2 ^ 53) with (2 ^ 52 * 2 ^ 1). nia.
  - exists m, e. split; [lia|]. split; [lia|exact R].
Qed.

Lemma representable_opp (q : Q) : representable q -> representable (- q).
Proof.
  intros (m & e & M & E & H). exists (- m), e. split; [lia|]. split; [exact E|].
  rewrite H. unfold dyadic, Qeq, Qopp. cbn [Qnum Qden]. lia.
Qed.

(** Rounding gives a double, *)
Lemma roundQ_representable (q : Q) : representable (roundQ q).
Proof.
  unfold roundQ. destruct (Qnum q).
  - exists 0, 0. split; [reflexivity|]. split; [lia|reflexivity].
  - apply roundPos_representable.
  - apply representable_opp, roundPos_representable.
Qed.

(** and leaves a double as it is. *)
Lemma roundQ_exact (q : Q) : representable q -> (roundQ q == q)%Q.
Proof.
  intros (m & e & M & E & H). destruct q as [[|n|n] d]; unfold roundQ; cbn [Qnum Qden].
  - reflexivity.
  - apply roundPos_exact with (m0 := m) (e0 := e); [lia|exact E|exact H].
  - change (Z.neg n # d) with (- (Zpos n # d))%Q.
    rewrite (@roundPos_exact n d (- m) e); [reflexivity|lia|exact E|].
    change (Zpos n # d) with (- (Z.neg n # d))%Q. rewrite H.
    unfold dyadic, Qeq, Qopp. cbn [Qnum Qden]. lia.
Qed.

Lemma Qred_roundPos (n d : positive) : Qred (roundPos n d) = roundPos n d.
Proof. unfold roundPos. apply Qred_complete, Qred_correct. Qed.

Lemma Qred_roundQ (q : Q) : Qred (roundQ q) = roundQ q.
Proof.
  unfold roundQ. destruct (Qnum q).
  - reflexivity.
  - apply Qred_roundPos.
  - rewrite Qred_opp. now rewrite Qred_roundPos.
Qed.

(** Rounding twice is rounding once. *)
Lemma roundQ_idem (q : Q) : roundQ (roundQ q) = roundQ q.
Proof.
  rewrite <- (Qred_roundQ (roundQ q)). rewrite <- (Qred_roundQ q) at 2.
  apply Qred_complete, roundQ_exact, roundQ_representable.
Qed.

Lemma roundQ_range (q : Q) (b : Z) :
  0 < b < 2 ^ 53 -> (- inject_Z b <= q)%Q -> (q <= inject_Z b)%Q ->
  (- inject_Z b <= roundQ q)%Q /\ (roundQ q <= inject_Z b)%Q.
Proof.
  intros B L U. destruct q as [[|n|n] d]; unfold roundQ; cbn [Qnum Qden].
  - unfold Qle. cbn. lia.
  - split; [|now apply roundPos_le].
    apply Qle_trans with 0%Q; [unfold Qle; cbn; lia|apply roundPos_nonneg].
  - split.
    + apply Qopp_le_compat. apply roundPos_le; [exact B|].
      unfold Qle in *. cbn in *. lia.
    + apply Qle_trans with 0%Q; [|unfold Qle; cbn; lia].
      apply (Qopp_le_compat 0 (roundPos n d)), roundPos_nonneg.
Qed.

Lemma roundQ_near (q : Q) :
  (- inject_Z 256 < q)%Q -> (q < inject_Z 256)%Q ->
  (Qabs (roundQ q - q) <= 1 # 2 ^ 46)%Q.
Proof.
  intros L U. apply Qabs_Qle_condition.
  destruct q as [[|n|n] d]; unfold roundQ; cbn [Qnum Qden].
  - split; unfold Qle; cbn; lia.
  - destruct (@roundPos_near n d U) as [A B]. split; [|exact A].
    apply Qopp_le_compat in B. 
    eapply Qle_trans; [exact B|]. 
    unfold Qle, Qminus, Qplus, Qopp. cbn [Qnum Qden]. lia.
  - assert (U' : (Zpos n # d < inject_Z 256)%Q)
      by (unfold Qlt in *; cbn in *; lia).
    destruct (@roundPos_near n d U') as [A B]. split.
    + apply Qopp_le_compat in A. eapply Qle_trans; [exact A|].
      unfold Qle, Qminus, Qplus, Qopp. cbn [Qnum Qden]. lia.
    + eapply Qle_trans; [|exact B].
      unfold Qle, Qminus, Qplus, Qopp. cbn [Qnum Qden]. lia.
Qed.

Lemma toDouble_finite (q : Q) (b : Z) :
  0 < b < 2 ^ 53 -> (- inject_Z b <= q)%Q -> (q <= inject_Z b)%Q ->
  toDouble q = Finite (roundQ q).
Proof.
  intros B L U. destruct (roundQ_range B L U) as [L' U'].
  unfold toDouble. cbv zeta.
  destruct (Qle_bool (inject_Z (2 ^ 1024)) (Qabs (roundQ q))) eqn:X; [|reflexivity].
  exfalso. apply Qle_bool_iff in X.
  assert (A : (Qabs (roundQ q) <= inject_Z b)%Q) by (apply Qabs_Qle_condition; now split).
  pose proof (Qle_trans _ _ _ X A) as C. unfold Qle in C. cbn [Qnum Qden inject_Z] in C.
  assert (2 ^ 53 < 2 ^ 1024) by (apply Z.pow_lt_mono_r; lia). lia.
Qed.

End Rounding.

Arguments roundQ : simpl never.
Arguments toDouble : simpl never.

(** ** Sample data *)

(** The site of the sample rows, at longitude 11.5 and latitude 3.9 (the
    double nearest to it). *)
Definition sampleLocation : LocationData :=
  {| siteName := js "Bastos"; cellId := js "A1";
     longitude := (23 # 2)%Q;
     latitude := (8782019273372467 # 2251799813685248)%Q;
     azimuth := js "45" |}.

Definition sampleRecord (caller called dur : string) (t : option Date)
  : CallRecord :=
  {| id := js "record"; callerNumber := js caller; calledNumber := js called;
     imei := []; dateTime := t; duration := js dur;
     location := Some sampleLocation; rawLocation := [] |}.

(** Three records of one caller, out of order and one without a date, a
    record with a called number only, and one with a caller number of five
    digits. *)
Definition sampleRecords : list CallRecord :=
  [ sampleRecord "699111222" "655333444" "00:01:30" (Some 30%Z);
    sampleRecord "" "699111222" "00:00:10" (Some 5%Z);
    sampleRecord "699111222" "655333444" "sms" None;
    sampleRecord "12345" "655333444" "00:02:00" (Some 7%Z);
    sampleRecord "699111222" "677000111" "00:00:45" (Some 10%Z) ].

Definition sampleAggregate : PhoneNumber :=
  {| number := js "699111222"; identity := None; operator := None;
     pn_imei := None; callCount := 2; smsCount := 1;
     firstActivity := Some 10%Z; lastActivity := Some 30%Z;
     locations := [sampleLocation];
     records :=
       [ sampleRecord "699111222" "655333444" "sms" None;
         sampleRecord "699111222" "677000111" "00:00:45" (Some 10%Z);
         sampleRecord "699111222" "655333444" "00:01:30" (Some 30%Z) ] |}.

Example sample_aggregation :
  aggregateByPhoneNumber sampleRecords [] = [(js "699111222", sampleAggregate)].
Proof. vm_compute. reflexivity. Qed.

(** ** C5: who gets an aggregate *)

Lemma normalizePhoneNumber_digits (E : Externals) (v : value) :
  Forall (fun c => isDigit c = true) (normalizePhoneNumber E v).
Proof.
  unfold normalizePhoneNumber.
  destruct (negb (truthy v)); [constructor|apply filter_isDigit_all].
Qed.

(** C5: in the map the aggregator returns, the entry under key [k] carries
    the number [k], which is non-empty and at least 6 characters long; it
    holds at least one record, and each of its records is an input record
    whose caller number is [k].  Records whose caller number is empty or
    shorter (a called number alone) change nothing: aggregating without
    them gives the same map.  The caller number of an extracted record is
    made of digits, so its length is its number of digits. *)
Theorem C5_aggregate_by_caller_only :
  (forall rs subs k agg,
      In (k, agg) (aggregateByPhoneNumber rs subs) ->
      number agg = k
      /\ k <> [] /\ 6 <= List.length k
      /\ records agg <> []
      /\ (forall r, In r (records agg) -> In r rs /\ callerNumber r = k))
  /\ (forall rs subs,
        aggregateByPhoneNumber rs subs
        = aggregateByPhoneNumber
            (filter (fun r => negb (tooShort (callerNumber r))) rs) subs)
  /\ (forall E cols i row r,
        extractRow E cols i row = Some r ->
        Forall (fun c => isDigit c = true) (callerNumber r)).
Proof.
  repeat apply conj.
  - intros rs subs k agg Hin. apply aggregate_entry in Hin as [Hne ->].
    set (p0 := newPhone _ k).
    assert (Hrec : forall r,
               In r (records (sortRecords (fold_left addRecord (recordsOf k rs) p0)))
               <-> In r (recordsOf k rs)).
    { intros r. simpl. rewrite sortBy_In, addRecords_records. reflexivity. }
    destruct (recordsOf k rs) as [|r0 l] eqn:R; [congruence|].
    assert (H0 : accepted k r0 = true).
    { assert (I : In r0 (recordsOf k rs)) by (rewrite R; now left).
      now apply filter_In in I. }
    apply accepted_inv in H0 as (_ & Hk & Hlen).
    repeat split; try assumption.
    + unfold sortRecords. cbn [number].
      now destruct (addRecords_number (r0 :: l) p0) as [-> _].
    + intros Hnil. assert (I : In r0 []).
      { rewrite <- Hnil. apply Hrec. now left. }
      destruct I.
    + apply Hrec in H. rewrite <- R in H. now apply filter_In in H.
    + apply Hrec in H. rewrite <- R in H. apply filter_In in H as [_ H].
      now apply accepted_inv in H.
  - intros rs subs. unfold aggregateByPhoneNumber. f_equal.
    apply aggregateLoop_ignores.
  - intros E cols i row r. unfold extractRow.
    destruct (negb _ || negb _); [|discriminate]. intros [= <-]. simpl.
    unfold phoneField. destruct (callerNumberCol cols) as [c|]; [|constructor].
    destruct (isSet (Some c)); [apply normalizePhoneNumber_digits|constructor].
Qed.

Lemma C5_witness :
  In (js "699111222", sampleAggregate) (aggregateByPhoneNumber sampleRecords [])
  /\ (number sampleAggregate = js "699111222"
      /\ js "699111222" <> [] /\ 6 <= List.length (js "699111222")
      /\ records sampleAggregate <> []
      /\ (forall r, In r (records sampleAggregate) ->
                    In r sampleRecords /\ callerNumber r = js "699111222")).
Proof.
  assert (H : In (js "699111222", sampleAggregate)
                (aggregateByPhoneNumber sampleRecords [])).
  { rewrite sample_aggregation. left. reflexivity. }
  split; [exact H|].
  exact (proj1 C5_aggregate_by_caller_only sampleRecords []
           (js "699111222") sampleAggregate H).
Defined.

(** ** C9: the records of an aggregate are sorted *)

(** C9: in every aggregate of the returned map, two adjacent records are
    in ascending order of timestamp, a missing timestamp counting as the
    instant 0: a record without a timestamp comes before the records dated
    after 1 January 1970 and after the records dated before it. *)
Theorem C9_records_sorted (rs : list CallRecord) (subs : list SubscriberInfo)
    (k : str) (agg : PhoneNumber) (i : nat) (a b : CallRecord) :
  In (k, agg) (aggregateByPhoneNumber rs subs) ->
  nth_error (records agg) i = Some a ->
  nth_error (records agg) (S i) = Some b ->
  (match dateTime a with Some t => t | None => 0 end
   <= match dateTime b with Some t => t | None => 0 end)%Z.
Proof.
  intros Hin Ha Hb. apply aggregate_entry in Hin as [_ ->].
  simpl in Ha, Hb.
  exact (Sorted_adjacent (key := sortKey) i (sortBy_sorted sortKey _) Ha Hb).
Qed.

Lemma C9_witness :
  In (js "699111222", sampleAggregate) (aggregateByPhoneNumber sampleRecords [])
  /\ nth_error (records sampleAggregate) 0
     = Some (sampleRecord "699111222" "655333444" "sms" None)
  /\ nth_error (records sampleAggregate) 1
     = Some (sampleRecord "699111222" "677000111" "00:00:45" (Some 10%Z))
  /\ (0 <= 10)%Z.
Proof.
  assert (H : In (js "699111222", sampleAggregate)
                (aggregateByPhoneNumber sampleRecords [])).
  { rewrite sample_aggregation. left. reflexivity. }
  repeat split; [exact H|].
  exact (@C9_records_sorted sampleRecords [] (js "699111222") sampleAggregate 0
           (sampleRecord "699111222" "655333444" "sms" None)
           (sampleRecord "699111222" "677000111" "00:00:45" (Some 10%Z))
           H eq_refl eq_refl).
Defined.

(** Two records of one caller, the first without a timestamp, the second
    dated 5 ms before 1 January 1970: the record without a timestamp is
    not first in the aggregate. *)
Lemma C9_missing_timestamp_not_first :
  map (fun kv => map dateTime (records (snd kv)))
    (aggregateByPhoneNumber
       [ sampleRecord "699111222" "655333444" "00:01:30" None;
         sampleRecord "699111222" "655333444" "00:00:45" (Some (-5)%Z) ] [])
  = [[Some (-5)%Z; None]].
Proof. vm_compute. reflexivity. Qed.

(** ** C7: the SMS marker *)

(** Equality of two strings up to the case of their ASCII letters. *)
Definition equalsIgnoreCase (a b : str) : bool :=
  str_eqb (map foldChar a) (map foldChar b).

Lemma str_eqb_cons (a b : ascii) (l m : str) :
  str_eqb (a :: l) (b :: m) = Ascii.eqb a b && str_eqb l m.
Proof.
  destruct (Ascii.eqb a b) eqn:Hab; simpl.
  - apply Ascii.eqb_eq in Hab. subst b.
    destruct (str_eqb l m) eqn:Hlm.
    + apply str_eqb_eq in Hlm. subst m. apply str_eqb_refl.
    + apply str_eqb_neq in Hlm. apply str_eqb_neq. congruence.
  - apply Ascii.eqb_neq in Hab. apply str_eqb_neq. congruence.
Qed.

Lemma str_eqb_map_agree (f g : ascii -> ascii) (target d : str) :
  (forall c x, In x target -> Ascii.eqb (f c) x = Ascii.eqb (g c) x) ->
  str_eqb (map f d) target = str_eqb (map g d) target.
Proof.
  revert target. induction d as [|c d IH]; intros target H; [reflexivity|].
  destruct target as [|x target]; simpl.
  - transitivity false; [|symmetry]; now apply str_eqb_neq.
  - rewrite !str_eqb_cons, (H c x) by now left.
    rewrite IH; [reflexivity|]. intros c' x' Hin. apply H. now right.
Qed.

(** Only [s] and [S] are lowered onto [s], only [m] and [M] onto [m]. *)
Lemma lowerChar_sm (c x : ascii) :
  In x (js "sms") -> Ascii.eqb (lowerChar c) x = Ascii.eqb (foldChar c) x.
Proof.
  intros [<-|[<-|[<-|[]]]]; each_char c; reflexivity.
Qed.

(** The test of the aggregator is equality with "SMS" up to case. *)
Lemma isSmsDuration_spec (d : str) :
  isSmsDuration d = equalsIgnoreCase d (js "SMS").
Proof.
  unfold isSmsDuration, equalsIgnoreCase, toLowerCase.
  change (map foldChar (js "SMS")) with (js "sms").
  rewrite (str_eqb_map_agree lowerChar foldChar (js "sms") d lowerChar_sm).
  destruct (str_eqb d (js "SMS")) eqn:H; [|reflexivity].
  apply str_eqb_eq in H. subst d. reflexivity.
Qed.

Lemma isSmsName_nonempty (n : str) : isSmsName n = true -> n <> [].
Proof.
  intros H Hn. apply includes_nonempty in H; [|discriminate].
  apply H. subst n. reflexivity.
Qed.

(** The text of the duration cell of a row,
    [String(row[durationCol] || '')]; the empty string when the sheet has
    no duration column. *)
Definition durationText (E : Externals) (cols : Columns) (row : Row) : str :=
  match durationCol cols with
  | Some c => String_ E (orEmpty (rowGet row c))
  | None => []
  end.

(** The columns of a sheet: those of the keys of its first row. *)
Definition sheetColumns (wb : WorkBook) (sheet : str) : Columns :=
  identifyColumns (map fst (hd [] (sheetRows wb sheet))).

(** The record [r] with the duration [d]. *)
Definition withDuration (r : CallRecord) (d : str) : CallRecord :=
  {| id := id r; callerNumber := callerNumber r;
     calledNumber := calledNumber r; imei := imei r;
     dateTime := dateTime r; duration := d;
     location := location r; rawLocation := rawLocation r |}.

Lemma withDuration_same (r : CallRecord) : withDuration r (duration r) = r.
Proof. now destruct r. Qed.

(** A header classified as the duration column is not the empty string. *)
Lemma durationCol_set (columns : list str) (c : str) :
  durationCol (identifyColumns columns) = Some c -> isSet (Some c) = true.
Proof.
  unfold identifyColumns.
  induction columns as [|x l IH] using rev_ind; [discriminate|].
  rewrite fold_left_app. cbn [fold_left]. rewrite columnStep_classify.
  cbn [durationCol]. destruct (hasRole RDuration x) eqn:R; [|exact IH].
  intros [= <-]. destruct x as [|a x]; [discriminate R|reflexivity].
Qed.

Lemma extractRows_complete (E : Externals) (cols : Columns) (data : list Row) :
  forall j i row r,
    nth_error data i = Some row ->
    extractRow E cols (j + i) row = Some r ->
    In r (extractRows E cols j data).
Proof.
  induction data as [|row0 data IH]; intros j i row r Hn Hr.
  - now destruct i.
  - destruct i as [|i]; cbn [nth_error] in Hn.
    + injection Hn as ->. rewrite Nat.add_0_r in Hr. cbn [extractRows].
      rewrite Hr. now left.
    + cbn [extractRows]. replace (j + S i) with (S j + i) in Hr by lia.
      pose proof (IH (S j) i row r Hn Hr) as I.
      destruct (extractRow E cols j row0); [now right|exact I].
Qed.

(** C7: a row of the SMS sheet from which a record is extracted gives the
    record list of the file that record with the duration "SMS" when the
    text of its duration cell, trimmed, is empty, and with the trimmed
    text otherwise; one record adds one to [smsCount] when its duration
    equals "SMS" up to case and one to [callCount] otherwise; so in every
    aggregate [smsCount] counts the records whose duration equals "SMS" up
    to case and [callCount] the others. *)
Theorem C7_sms_marker (E : Externals) (wb : WorkBook) (name : str) :
  (forall s i row r,
      sms (findListingSheets (SheetNames wb)) = Some s ->
      nth_error (sheetRows wb s) i = Some row ->
      extractRow E (sheetColumns wb s) i row = Some r ->
      let text := trim (durationText E (sheetColumns wb s) row) in
      duration r = text
      /\ In (withDuration r (if str_eqb text [] then js "SMS" else text))
            (allRecords (parseExcelFile E wb name)))
  /\ (forall p r,
        smsCount (addRecord p r)
        = smsCount p + (if equalsIgnoreCase (duration r) (js "SMS") then 1 else 0)
        /\ callCount (addRecord p r)
           = callCount p + (if equalsIgnoreCase (duration r) (js "SMS") then 0 else 1))
  /\ (forall rs subs k agg,
        In (k, agg) (aggregateByPhoneNumber rs subs) ->
        smsCount agg
        = List.length (filter (fun r => equalsIgnoreCase (duration r) (js "SMS"))
                         (records agg))
        /\ callCount agg
           = List.length
               (filter (fun r => negb (equalsIgnoreCase (duration r) (js "SMS")))
                  (records agg))).
Proof.
  repeat apply conj.
  - intros s i row r Hs Hn Hr text.
    assert (D : duration r = text).
    { subst text. unfold extractRow in Hr.
      destruct (negb _ || negb _); [|discriminate Hr].
      injection Hr as <-. cbn [duration]. unfold textField, durationText.
      destruct (durationCol (sheetColumns wb s)) as [c|] eqn:C; [|reflexivity].
      now rewrite (durationCol_set _ C). }
    split; [exact D|].
    unfold parseExcelFile. cbn [allRecords]. rewrite Hs.
    assert (Hset : isSet (Some s) = true).
    { pose proof (findListingSheets_sms (SheetNames wb)) as Hsms.
      rewrite Hs in Hsms. symmetry in Hsms. apply find_some in Hsms as [_ Hm].
      apply isSmsName_nonempty, str_eqb_neq in Hm. simpl. now rewrite Hm. }
    rewrite Hset. apply in_or_app. right.
    assert (I : In r (parseListingSheet E (sheetRows wb s))).
    { unfold sheetColumns in Hr. unfold parseListingSheet.
      destruct (sheetRows wb s) as [|first rest] eqn:S; [now destruct i|].
      cbn [hd] in Hr. now apply (@extractRows_complete E _ _ 0 i row r). }
    apply (in_map markSms) in I. unfold markSms in I at 1.
    rewrite D in I. rewrite <- D at 2.
    destruct (str_eqb text []); [exact I|].
    now rewrite withDuration_same.
  - intros p r. simpl. rewrite <- isSmsDuration_spec.
    destruct (isSmsDuration (duration r)); lia.
  - intros rs subs k agg Hin. apply aggregate_entry in Hin as [_ ->].
    cbn [sortRecords smsCount callCount records].
    set (p0 := newPhone _ k).
    destruct (addRecords_counts (recordsOf k rs) p0) as [-> ->].
    rewrite addRecords_records. simpl.
    rewrite !(filter_length_perm _ (sortBy_perm sortKey (recordsOf k rs))).
    split; f_equal; apply filter_ext; intros r;
      now rewrite isSmsDuration_spec.
Qed.

(** The end-to-end scenario: one row, in a sheet named "Listing SMS", with
    an empty duration. *)
Definition sampleRow (dateCell durationCell : string) : Row :=
  [ (js "Numero Appelant", VStr (js "699111222"));
    (js "Numero Appele", VStr (js "655333444"));
    (js "Date", VStr (js dateCell));
    (js "Duree", VStr (js durationCell));
    (js "Localisation",
     VStr (js "Bastos (Cell: A1 Long: 11.5 Lat: 3.9 Azimut: 45)")) ].

Definition sampleWorkbook (sheet dateCell durationCell : string) : WorkBook :=
  {| SheetNames := [js sheet];
     Sheets := [(js sheet, [sampleRow dateCell durationCell])] |}.

Definition sampleExtracted (t : Date) (dur : string) : CallRecord :=
  {| id := js "record-0-0"; callerNumber := js "699111222";
     calledNumber := js "655333444"; imei := [];
     dateTime := Some t; duration := js dur;
     location := Some sampleLocation;
     rawLocation := js "Bastos (Cell: A1 Long: 11.5 Lat: 3.9 Azimut: 45)" |}.

Definition sampleEntry (t : Date) (dur : string) (nCalls nSms : nat)
  : PhoneNumber :=
  {| number := js "699111222"; identity := None; operator := None;
     pn_imei := None; callCount := nCalls; smsCount := nSms;
     firstActivity := Some t; lastActivity := Some t;
     locations := [sampleLocation];
     records := [sampleExtracted t dur] |}.

Example scenario_call :
  let parsed := parseExcelFile sampleExternals
                  (sampleWorkbook "Listing Appel" "15/03/2024 09:00:00" "00:01:30")
                  (js "calls.xlsx") in
  allRecords parsed = [sampleExtracted 1710493200000%Z "00:01:30"]
  /\ phoneNumbers parsed
     = [(js "699111222", sampleEntry 1710493200000%Z "00:01:30" 1 0)].
Proof. split; vm_compute; reflexivity. Qed.

Example scenario_sms :
  let parsed := parseExcelFile sampleExternals
                  (sampleWorkbook "Listing SMS" "15/03/2024 09:00:00" "")
                  (js "sms.xlsx") in
  allRecords parsed = [sampleExtracted 1710493200000%Z "SMS"]
  /\ phoneNumbers parsed
     = [(js "699111222", sampleEntry 1710493200000%Z "SMS" 0 1)].
Proof. split; vm_compute; reflexivity. Qed.

(** A row of the sheet "Listing SMS" whose duration cell holds two
    blanks: the record enters the list with the duration "SMS" and counts
    as an SMS. *)
Lemma C7_witness :
  (duration (sampleExtracted 1710493200000%Z "") = trim (js "  ")
   /\ In (sampleExtracted 1710493200000%Z "SMS")
         (allRecords (parseExcelFile sampleExternals
                        (sampleWorkbook "Listing SMS" "15/03/2024 09:00:00" "  ")
                        (js "sms.xlsx"))))
  /\ In (js "699111222", sampleEntry 1710493200000%Z "SMS" 0 1)
        (aggregateByPhoneNumber [sampleExtracted 1710493200000%Z "SMS"] [])
  /\ 1 = List.length
           (filter (fun r => equalsIgnoreCase (duration r) (js "SMS"))
              [sampleExtracted 1710493200000%Z "SMS"])
  /\ 0 = List.length
           (filter (fun r => negb (equalsIgnoreCase (duration r) (js "SMS")))
              [sampleExtracted 1710493200000%Z "SMS"]).
Proof.
  destruct (C7_sms_marker sampleExternals
              (sampleWorkbook "Listing SMS" "15/03/2024 09:00:00" "  ")
              (js "sms.xlsx")) as (Hstamp & _ & Hcount).
  assert (Hin : In (js "699111222", sampleEntry 1710493200000%Z "SMS" 0 1)
                  (aggregateByPhoneNumber [sampleExtracted 1710493200000%Z "SMS"] [])).
  { vm_compute. left. reflexivity. }
  split.
  - apply (Hstamp (js "Listing SMS") 0
             (sampleRow "15/03/2024 09:00:00" "  ")
             (sampleExtracted 1710493200000%Z "")).
    + reflexivity.
    + reflexivity.
    + vm_compute. reflexivity.
  - split; [exact Hin|]. exact (Hcount _ _ _ _ Hin).
Defined.

(** ** C2: rows without a usable date *)

Definition isSome {A : Type} (o : option A) : bool :=
  match o with Some _ => true | None => false end.



Lemma extractRows_In (E : Externals) (cols : Columns) (data : list Row)
    (i : nat) (r : CallRecord) :
  In r (extractRows E cols i data) ->
  exists j row, nth_error data j = Some row
                /\ extractRow E cols (i + j) row = Some r.
Proof.
  revert i. induction data as [|row data IH]; intros i H; simpl in H; [destruct H|].
  destruct (extractRow E cols i row) as [r'|] eqn:X.
  - destruct H as [->|H].
    + exists 0, row. rewrite Nat.add_0_r. auto.
    + apply IH in H as (j & row' & Hj & Hr). exists (S j), row'.
      rewrite Nat.add_succ_r. auto.
  - apply IH in H as (j & row' & Hj & Hr). exists (S j), row'.
    rewrite Nat.add_succ_r. auto.
Qed.

Lemma extractRow_dateTime (E : Externals) (cols : Columns) (i : nat) (row : Row)
    (r : CallRecord) :
  extractRow E cols i row = Some r ->
  dateTime r = Some (match dateField E (dateCol cols) row with
                     | Some d => d
                     | None => clock E i
                     end).
Proof.
  unfold extractRow.
  destruct (negb _ || negb _); [|discriminate]. now intros [= <-].
Qed.





(** ** Facts on the regular-expression matcher *)

Lemma firstSome_Some {A B : Type} (f : A -> option B) (l : list A) (y : B) :
  firstSome f l = Some y -> exists x, In x l /\ f x = Some y.
Proof.
  induction l as [|x l IH]; simpl; [discriminate|].
  destruct (f x) as [y'|] eqn:F.
  - intros [= ->]. exists x. auto.
  - intros H. apply IH in H as (x' & Hin & Hx). exists x'. auto.
Qed.

(** A match yields one capture per capturing atom of the pattern. *)
Lemma exec_captures (r : list atom) (s : str) (caps : list str) (rest : str) :
  exec r s = Some (caps, rest) ->
  List.length caps = List.length (filter cap r).
Proof.
  revert s caps rest. induction r as [|a r IH]; intros s caps rest H; simpl in H.
  - now injection H as <- _.
  - apply firstSome_Some in H as (k & _ & H).
    destruct (exec r (skipn k s)) as [[caps' rest']|] eqn:X; [|discriminate].
    injection H as <- _. apply IH in X. simpl.
    destruct (cap a); simpl; congruence.
Qed.

Lemma search_captures (r : list atom) (s : str) (caps : list str) :
  search r s = Some caps -> List.length caps = List.length (filter cap r).
Proof.
  induction s as [|c s IH]; simpl.
  - destruct (exec r []) as [[caps' rest]|] eqn:X; [|discriminate].
    intros [= <-]. now apply exec_captures in X.
  - destruct (exec r (c :: s)) as [[caps' rest]|] eqn:X; [|exact IH].
    intros [= <-]. now apply exec_captures in X.
Qed.

Lemma search_here (r : list atom) (s : str) (caps : list str) (rest : str) :
  exec r s = Some (caps, rest) -> search r s = Some caps.
Proof. intros H. destruct s; simpl; now rewrite H. Qed.

(** A class that must match exactly once. *)
Lemma exec_one (p : ascii -> bool) (r : list atom) (c : ascii) (s : str) :
  p c = true -> exec (one p :: r) (c :: s) = exec r s.
Proof.
  intros H. simpl. unfold counts. simpl. rewrite H. simpl.
  now destruct (exec r s) as [[caps rest]|].
Qed.

Lemma rev_seq_top (lo n : nat) :
  lo <= n -> rev (seq lo (S n - lo)) = n :: rev (seq lo (n - lo)).
Proof.
  intros H. replace (S n - lo) with (S (n - lo)) by lia.
  rewrite seq_S, rev_app_distr. simpl. f_equal. lia.
Qed.

(** A greedy unbounded quantifier takes the whole run of its class when
    the rest of the pattern matches behind that run. *)
Lemma exec_greedy (a : atom) (r : list atom) (s : str) (caps : list str)
    (rest : str) :
  hi a = None ->
  lo a <= run (cls a) s ->
  exec r (skipn (run (cls a) s) s) = Some (caps, rest) ->
  exec (a :: r) s
  = Some (if cap a then firstn (run (cls a) s) s :: caps else caps, rest).
Proof.
  intros Hhi Hlo Hr. simpl. unfold counts. rewrite Hhi.
  rewrite rev_seq_top by assumption. simpl. now rewrite Hr.
Qed.

Lemma run_app (p : ascii -> bool) (u v : str) :
  Forall (fun c => p c = true) u ->
  run p (u ++ v) = List.length u + run p v.
Proof.
  induction 1 as [|c u Hc _ IH]; simpl; [reflexivity|]. now rewrite Hc, IH.
Qed.

(** The run of [p] at the head of [u ++ v] is [u] when [u] is made of
    characters of [p] and [v] does not start with one. *)
Lemma run_exact (p : ascii -> bool) (u v : str) :
  Forall (fun c => p c = true) u ->
  run p v = 0 ->
  run p (u ++ v) = List.length u
  /\ firstn (run p (u ++ v)) (u ++ v) = u
  /\ skipn (run p (u ++ v)) (u ++ v) = v.
Proof.
  intros Hu Hv. rewrite run_app, Hv, Nat.add_0_r by assumption.
  repeat split.
  - rewrite firstn_app, Nat.sub_diag, firstn_all. simpl. apply app_nil_r.
  - rewrite skipn_app, Nat.sub_diag, skipn_all. reflexivity.
Qed.

Lemma numChar_not_space (c : ascii) : isNumChar c = true -> isWhiteSpace c = false.
Proof.
  each_char c; (discriminate || reflexivity).
Qed.

Lemma run_space_numChars (x v : str) :
  x <> [] -> Forall (fun c => isNumChar c = true) x ->
  run isWhiteSpace (x ++ v) = 0.
Proof.
  intros Hx Hall. destruct x as [|c x]; [congruence|]. simpl.
  inversion Hall as [|? ? Hc _]; subst. now rewrite (numChar_not_space _ Hc).
Qed.

(** [exec_greedy] with the input split into the run and what follows. *)
Lemma exec_greedy_app (a : atom) (r : list atom) (u v : str)
    (caps : list str) (rest : str) :
  hi a = None ->
  Forall (fun c => cls a c = true) u ->
  run (cls a) v = 0 ->
  lo a <= List.length u ->
  exec r v = Some (caps, rest) ->
  exec (a :: r) (u ++ v) = Some (if cap a then u :: caps else caps, rest).
Proof.
  intros Hhi Hu Hv Hlo Hr.
  destruct (@run_exact (cls a) u v Hu Hv) as (R & F & K).
  rewrite <- F at 2. apply exec_greedy; [assumption|lia|now rewrite K].
Qed.

(** The location pattern on a string of the shape ["Long: X Lat: Y"]. *)
Lemma search_long_lat (x y : str) :
  x <> [] -> Forall (fun c => isNumChar c = true) x ->
  y <> [] -> Forall (fun c => isNumChar c = true) y ->
  search LOCATION_REGEX (js "Long: " ++ x ++ js " Lat: " ++ y) = Some [x; y].
Proof.
  intros Hx Ax Hy Ay. apply search_here with (rest := []).
  assert (Lx : 1 <= List.length x) by (destruct x; [congruence|simpl; lia]).
  assert (Ly : 1 <= List.length y) by (destruct y; [congruence|simpl; lia]).
  (* from the end of the pattern to its start *)
  assert (E4 : exec [group (plus isNumChar)] y = Some ([y], [])).
  { rewrite <- (app_nil_r y) at 1.
    now apply (@exec_greedy_app (group (plus isNumChar)) [] y [] [] []). }
  assert (E3 : exec [star isWhiteSpace; group (plus isNumChar)] (js " " ++ y)
               = Some ([y], [])).
  { apply (@exec_greedy_app (star isWhiteSpace) _ (js " ") y [y] []);
      [reflexivity|repeat constructor| |simpl; lia|exact E4].
    rewrite <- (app_nil_r y). now apply run_space_numChars. }
  assert (E2 : exec (star isWhiteSpace :: chars_i "Lat:"
                     ++ [star isWhiteSpace; group (plus isNumChar)])
                 (js " " ++ js "Lat: " ++ y) = Some ([y], [])).
  { apply (@exec_greedy_app (star isWhiteSpace) _ (js " ") _ [y] []);
      [reflexivity|repeat constructor|reflexivity|simpl; lia|].
    unfold chars_i. cbn [js list_ascii_of_string map app].
    do 4 (rewrite exec_one by reflexivity). exact E3. }
  assert (E1 : exec (group (plus isNumChar) :: star isWhiteSpace
                     :: chars_i "Lat:"
                     ++ [star isWhiteSpace; group (plus isNumChar)])
                 (x ++ js " Lat: " ++ y) = Some ([x; y], [])).
  { apply (@exec_greedy_app (group (plus isNumChar)) _ x _ [y] []);
      [reflexivity|assumption|reflexivity|assumption|exact E2]. }
  unfold LOCATION_REGEX, chars_i at 1.
  cbn [js list_ascii_of_string map app].
  do 5 (rewrite exec_one by reflexivity).
  apply (@exec_greedy_app (star isWhiteSpace) _ (js " ") _ [x; y] []);
    [reflexivity|repeat constructor| |simpl; lia|exact E1].
  now apply run_space_numChars.
Qed.

(** ** C6: the Location-String Decoder *)

Lemma Qltb_lt (a b : Q) : Qltb a b = true <-> (a < b)%Q.
Proof.
  unfold Qltb. rewrite negb_true_iff. split.
  - intros H. apply Qnot_le_lt. intros L. apply Qle_bool_iff in L. congruence.
  - intros H. destruct (Qle_bool b a) eqn:L; [|reflexivity].
    apply Qle_bool_iff in L. exfalso. now apply (Qlt_not_le a b).
Qed.

Lemma Qltb_ge (a b : Q) : (b <= a)%Q -> Qltb a b = false.
Proof.
  intros H. unfold Qltb. apply Qle_bool_iff in H. now rewrite H.
Qed.

(** A decimal numeral: an optional minus sign, the digits before the
    point and, when there is a point, the digits after it. *)
Record Numeral := {
  negative : bool;
  intPart : str;
  fracPart : option str
}.

Definition fracDigits (n : Numeral) : str :=
  match fracPart n with
  | Some f => f
  | None => []
  end.

(** Digits only, and at least one of them. *)
Definition wellFormed (n : Numeral) : Prop :=
  Forall (fun c => isDigit c = true) (intPart n)
  /\ Forall (fun c => isDigit c = true) (fracDigits n)
  /\ intPart n ++ fracDigits n <> [].

(** The numeral as it is written. *)
Definition render (n : Numeral) : str :=
  (if negative n then js "-" else [])
  ++ intPart n
  ++ match fracPart n with
     | Some f => js "." ++ f
     | None => []
     end.

(** The number it denotes: its digits read as an integer, over the power
    of ten of the digits after the point. *)
Definition numeralValue (n : Numeral) : Q :=
  let q := Qmake (digitsVal (intPart n ++ fracDigits n))
             (Z.to_pos (10 ^ Z.of_nat (List.length (fracDigits n)))) in
  if negative n then Qopp q else q.

Lemma digit_numChar (c : ascii) : isDigit c = true -> isNumChar c = true.
Proof. unfold isNumChar. now intros ->. Qed.

Lemma render_numChars (n : Numeral) :
  wellFormed n ->
  render n <> [] /\ Forall (fun c => isNumChar c = true) (render n).
Proof.
  intros (Hi & Hf & Hne). unfold render, fracDigits in *. split.
  - destruct (negative n); [discriminate|]. simpl.
    destruct (fracPart n) as [f|].
    + destruct (intPart n); discriminate.
    + assumption.
  - apply Forall_app; split; [|apply Forall_app; split].
    + destruct (negative n); repeat constructor.
    + eapply Forall_impl; [|exact Hi]. apply digit_numChar.
    + destruct (fracPart n) as [f|]; [|constructor].
      constructor; [reflexivity|].
      eapply Forall_impl; [|exact Hf]. apply digit_numChar.
Qed.

Lemma splitSign_unsigned (c : ascii) (t : str) :
  isDigit c = true \/ c = "."%char -> splitSign (c :: t) = (false, c :: t).
Proof.
  intros [H| ->]; [|reflexivity].
  each_char c; (discriminate H || reflexivity).
Qed.

Lemma run_digits_all (u : str) :
  Forall (fun c => isDigit c = true) u -> run isDigit u = List.length u.
Proof.
  intros H. rewrite <- (app_nil_r u) at 1. rewrite run_app by assumption.
  simpl. lia.
Qed.

(** [parseFloat] reads a well-formed numeral in full, and returns the
    double nearest to the number it denotes. *)
Lemma parseFloat_render (n : Numeral) :
  wellFormed n -> parseFloat (render n) = toDouble (numeralValue n).
Proof.
  intros W. pose proof W as (Hi & Hf & Hne).
  destruct (render_numChars W) as [Rne Rall].
  unfold parseFloat.
  assert (T : trimStart (render n) = render n).
  { destruct (render n) as [|c r]; [reflexivity|].
    apply trimStart_head, numChar_not_space. now inversion Rall. }
  rewrite T.
  set (tail := match fracPart n with Some f => js "." ++ f | None => [] end).
  assert (S : splitSign (render n) = (negative n, intPart n ++ tail)).
  { unfold render. fold tail. destruct (negative n); [reflexivity|]. simpl.
    destruct (intPart n) as [|c ip] eqn:I.
    - subst tail. unfold fracDigits in Hne.
      destruct (fracPart n) as [f|]; [|simpl in Hne; congruence].
      apply splitSign_unsigned. now right.
    - apply splitSign_unsigned. left. now inversion Hi. }
  rewrite S.
  assert (Z0 : run isDigit tail = 0) by (subst tail; now destruct (fracPart n)).
  destruct (@run_exact isDigit (intPart n) tail Hi Z0) as (_ & F & K).
  rewrite F, K.
  assert (FP : match tail with
               | "."%char :: t => firstn (run isDigit t) t
               | _ => []
               end = fracDigits n).
  { subst tail. unfold fracDigits in *. destruct (fracPart n) as [f|]; [|reflexivity].
    cbn [js list_ascii_of_string app]. rewrite run_digits_all by assumption.
    apply firstn_all. }
  rewrite FP. unfold numeralValue.
  destruct (intPart n ++ fracDigits n) eqn:D; [congruence|reflexivity].
Qed.

Lemma trimStart_snoc (l : str) (c : ascii) :
  isWhiteSpace c = false -> trimStart (l ++ [c]) <> [].
Proof.
  intros H. induction l as [|a l IH]; simpl.
  - rewrite H. discriminate.
  - destruct (isWhiteSpace a); [assumption|discriminate].
Qed.

(** A string that starts with a character other than white space does
    not trim to the empty string. *)
Lemma trim_head (c : ascii) (s : str) :
  isWhiteSpace c = false -> trim (c :: s) <> [].
Proof.
  intros H. unfold trim. rewrite (@trimStart_head c s H).
  unfold trimEnd. simpl. intros E.
  apply (f_equal (@rev ascii)) in E. rewrite rev_involutive in E.
  now apply (@trimStart_snoc (rev s) c H).
Qed.

(** A latitude outside [-90, 90] or a longitude outside [-180, 180], both
    being numbers; an infinite coordinate is outside. *)
Definition outOfRange (lon lat : double) : Prop :=
  match lon, lat with
  | NaN, _ => False
  | _, NaN => False
  | Finite x, Finite y => (y < -90 \/ 90 < y \/ x < -180 \/ 180 < x)%Q
  | _, _ => True
  end.

Lemma outOfRange_test (lon lat : double) :
  isNaN lon = false -> isNaN lat = false ->
  (lessThan lat (Finite (-90)) || lessThan (Finite 90) lat
   || lessThan lon (Finite (-180)) || lessThan (Finite 180) lon = true
   <-> outOfRange lon lat).
Proof.
  destruct lon as [|[]|x], lat as [|[]|y]; try discriminate; intros _ _;
    cbn [lessThan outOfRange negb orb];
    rewrite ?orb_true_r; try tauto.
  rewrite !orb_true_iff, !Qltb_lt. tauto.
Qed.

Lemma isNaN_true (x : double) : isNaN x = true <-> x = NaN.
Proof. destruct x; split; (discriminate || reflexivity). Qed.

(** A numeral in [-b, b] is read as a finite double of [-b, b]. *)
Lemma toDouble_in_range (q : Q) (b : Z) :
  (0 < b < 2 ^ 53)%Z -> (- inject_Z b <= q)%Q -> (q <= inject_Z b)%Q ->
  toDouble q = Finite (roundQ q)
  /\ Qltb (roundQ q) (- inject_Z b) = false
  /\ Qltb (inject_Z b) (roundQ q) = false.
Proof.
  intros B L U. split; [now apply toDouble_finite with (b := b)|].
  destruct (roundQ_range B L U) as [L' U'].
  split; now apply Qltb_ge.
Qed.

Lemma near_256 (q : Q) :
  (-180 <= q)%Q -> (q <= 180)%Q ->
  (Qabs (roundQ q - q) <= 1 # 2 ^ 46)%Q.
Proof.
  intros L U. apply roundQ_near.
  - eapply Qlt_le_trans; [|exact L]. reflexivity.
  - eapply Qle_lt_trans; [exact U|]. reflexivity.
Qed.

(** Two decimal numerals of the witness: 11.5 and -3.90. *)
Definition sampleLongitude : Numeral :=
  {| negative := false; intPart := js "11"; fracPart := Some (js "5") |}.
Definition sampleLatitude : Numeral :=
  {| negative := true; intPart := js "3"; fracPart := Some (js "90") |}.

(** C6: the decoder returns null exactly when the input is empty, is the
    placeholder "--", is made of white space, is "Site inconnu", holds no
    match of the pattern [Long: <num> Lat: <num>], has a capture that
    [parseFloat] reads as [NaN], or has a latitude outside [-90, 90] or a
    longitude outside [-180, 180], the coordinates being the doubles
    [parseFloat] returns; and on every string "Long: X Lat: Y" with X and
    Y decimal numerals (optional minus sign, digits, optional point and
    digits; no plus sign, no exponent) in those ranges it returns a
    location whose longitude and latitude are the doubles nearest to the
    numbers X and Y denote, each within [2 ^ -46] of its numeral. *)
Theorem C6_decoder_null_or_exact :
  (forall s,
      parseLocationString s = None
      <-> s = [] \/ s = js "--" \/ trim s = [] \/ s = js "Site inconnu"
          \/ search LOCATION_REGEX s = None
          \/ exists m1 m2,
               search LOCATION_REGEX s = Some [m1; m2]
               /\ (parseFloat m1 = NaN \/ parseFloat m2 = NaN
                   \/ outOfRange (parseFloat m1) (parseFloat m2)))
  /\ (forall X Y,
        wellFormed X -> wellFormed Y ->
        (-180 <= numeralValue X)%Q /\ (numeralValue X <= 180)%Q ->
        (-90 <= numeralValue Y)%Q /\ (numeralValue Y <= 90)%Q ->
        exists loc,
          parseLocationString (js "Long: " ++ render X ++ js " Lat: " ++ render Y)
          = Some loc
          /\ longitude loc = roundQ (numeralValue X)
          /\ latitude loc = roundQ (numeralValue Y)
          /\ (Qabs (longitude loc - numeralValue X) <= 1 # 2 ^ 46)%Q
          /\ (Qabs (latitude loc - numeralValue Y) <= 1 # 2 ^ 46)%Q).
Proof.
  split.
  - intros s. unfold parseLocationString. split.
    + destruct (str_eqb s []) eqn:G1; [apply str_eqb_eq in G1; auto|].
      destruct (str_eqb s (js "--")) eqn:G2; [apply str_eqb_eq in G2; auto|].
      destruct (str_eqb (trim s) []) eqn:G3; [apply str_eqb_eq in G3; auto|].
      destruct (str_eqb s (js "Site inconnu")) eqn:G4;
        [apply str_eqb_eq in G4; auto 6|].
      cbn [orb].
      destruct (search LOCATION_REGEX s) as [caps|] eqn:S; [|auto 6].
      pose proof (search_captures _ _ S) as L.
      change (List.length (filter cap LOCATION_REGEX)) with 2 in L.
      destruct caps as [|m1 [|m2 [|m3 caps]]]; try discriminate L.
      intros H. do 5 right. exists m1, m2. split; [reflexivity|].
      destruct (isNaN (parseFloat m1)) eqn:N1; [apply isNaN_true in N1; auto|].
      destruct (isNaN (parseFloat m2)) eqn:N2; [apply isNaN_true in N2; auto|].
      cbn [orb] in H. do 2 right.
      pose proof (outOfRange_test _ _ N1 N2) as T.
      destruct (lessThan _ _ || _ || _ || _); [now apply T|].
      destruct (parseFloat m1) as [|b1|lon]; [discriminate N1| |].
      * destruct (parseFloat m2); [discriminate N2|exact I|exact I].
      * destruct (parseFloat m2) as [|b2|lat];
          [discriminate N2|exact I|discriminate H].
    + intros [->|[->|[H|[->|[H|H]]]]]; try reflexivity.
      * apply str_eqb_eq in H. rewrite H.
        now rewrite orb_true_r, !orb_true_l.
      * rewrite H. now destruct (_ || _).
      * destruct H as (m1 & m2 & S & H). rewrite S.
        destruct (str_eqb s [] || _ || _ || _); [reflexivity|].
        destruct H as [H|[H|H]].
        -- now rewrite H.
        -- rewrite H. now rewrite orb_true_r.
        -- destruct (isNaN (parseFloat m1)) eqn:N1; [reflexivity|].
           destruct (isNaN (parseFloat m2)) eqn:N2; [reflexivity|].
           apply (outOfRange_test _ _ N1 N2) in H. cbn [orb]. now rewrite H.
  - intros X Y WX WY [X1 X2] [Y1 Y2].
    destruct (render_numChars WX) as [NX AX].
    destruct (render_numChars WY) as [NY AY].
    destruct (@toDouble_in_range (numeralValue X) 180
                ltac:(split; reflexivity) X1 X2) as (FX & LX & UX).
    destruct (@toDouble_in_range (numeralValue Y) 90
                ltac:(split; reflexivity) Y1 Y2) as (FY & LY & UY).
    unfold parseLocationString.
    rewrite (search_long_lat NX AX NY AY).
    rewrite (parseFloat_render WX), (parseFloat_render WY), FX, FY.
    cbn [isNaN lessThan orb].
    change (Qltb (roundQ (numeralValue Y)) (-90))
      with (Qltb (roundQ (numeralValue Y)) (- inject_Z 90)).
    change (Qltb 90 (roundQ (numeralValue Y)))
      with (Qltb (inject_Z 90) (roundQ (numeralValue Y))).
    change (Qltb (roundQ (numeralValue X)) (-180))
      with (Qltb (roundQ (numeralValue X)) (- inject_Z 180)).
    change (Qltb 180 (roundQ (numeralValue X)))
      with (Qltb (inject_Z 180) (roundQ (numeralValue X))).
    rewrite LX, UX, LY, UY.
    cbn [js list_ascii_of_string app orb].
    assert (G1 : forall t, str_eqb ("L"%char :: t) [] = false)
      by (intros t; now apply str_eqb_neq).
    assert (G2 : forall t, str_eqb ("L"%char :: t) (js "--") = false)
      by (intros t; now apply str_eqb_neq).
    assert (G3 : forall t, str_eqb (trim ("L"%char :: t)) [] = false)
      by (intros t; now apply str_eqb_neq, trim_head).
    assert (G4 : forall t, str_eqb ("L"%char :: t) (js "Site inconnu") = false)
      by (intros t; now apply str_eqb_neq).
    rewrite G1, G2, G3, G4. cbn [orb].
    eexists. split; [reflexivity|]. cbn [longitude latitude].
    split; [reflexivity|]. split; [reflexivity|].
    split; [now apply near_256|]. apply near_256.
    + eapply Qle_trans; [|exact Y1]. apply Qle_bool_iff. reflexivity.
    + eapply Qle_trans; [exact Y2|]. apply Qle_bool_iff. reflexivity.
Qed.

(** A longitude written with a plus sign or with an exponent is in range
    as a number and gives null; a longitude above 180 by less than half
    a unit in the last place of the double 180 gives a location, at
    longitude 180; the latitude 3.9 is returned as the double nearest to
    it, which is not 3.9. *)
Lemma C6_numerals_and_rounding :
  parseLocationString (js "Long: +11.5 Lat: 3.9") = None
  /\ parseLocationString (js "Long: 1e1 Lat: 3.9") = None
  /\ option_map longitude
       (parseLocationString (js "Long: 180.00000000000000001 Lat: 3.9"))
     = Some 180%Q
  /\ option_map latitude (parseLocationString (js "Long: 11.5 Lat: 3.9"))
     = Some (8782019273372467 # 2251799813685248)%Q.
Proof. repeat split; vm_compute; reflexivity. Qed.

Lemma C6_witness :
  exists loc,
    parseLocationString
      (js "Long: " ++ render sampleLongitude ++ js " Lat: " ++ render sampleLatitude)
    = Some loc
    /\ longitude loc = roundQ (numeralValue sampleLongitude)
    /\ latitude loc = roundQ (numeralValue sampleLatitude)
    /\ (Qabs (longitude loc - numeralValue sampleLongitude) <= 1 # 2 ^ 46)%Q
    /\ (Qabs (latitude loc - numeralValue sampleLatitude) <= 1 # 2 ^ 46)%Q.
Proof.
  refine (proj2 C6_decoder_null_or_exact sampleLongitude sampleLatitude _ _ _ _).
  - repeat split; try (repeat constructor); discriminate.
  - repeat split; try (repeat constructor); discriminate.
  - split; apply Qle_bool_iff; reflexivity.
  - split; apply Qle_bool_iff; reflexivity.
Defined.

(** ** The merger in closed form *)

(** The aggregates of a batch in the order the two loops visit them. *)
Definition visited (results : list UploadResult) : list PhoneData :=
  flat_map
    (fun result =>
       match data result with
       | Some phones => if success result then phones else []
       | None => []
       end)
    results.

Definition hasNumber (n : str) (p : PhoneData) : bool :=
  str_eqb (pd_number p) n.

Lemma allPhoneNumbers_visited (results : list UploadResult) :
  allPhoneNumbers results = fold_left mergeInto (visited results) [].
Proof.
  unfold allPhoneNumbers. generalize (@nil PhoneData).
  induction results as [|r results IH]; intros all; simpl; [reflexivity|].
  rewrite fold_left_app, IH.
  destruct (data r) as [phones|]; [destruct (success r)|]; reflexivity.
Qed.

Lemma mergeInto_find (all : list PhoneData) (phone : PhoneData) (n : str) :
  find (hasNumber n) (mergeInto all phone)
  = if hasNumber n phone
    then Some (match find (hasNumber n) all with
               | Some e => mergePhone e phone
               | None => phone
               end)
    else find (hasNumber n) all.
Proof.
  unfold hasNumber.
  induction all as [|p all IH]; simpl.
  - now destruct (str_eqb (pd_number phone) n).
  - destruct (str_eqb (pd_number p) (pd_number phone)) eqn:Hp; simpl.
    + apply str_eqb_eq in Hp. rewrite Hp.
      now destruct (str_eqb (pd_number phone) n).
    + destruct (str_eqb (pd_number p) n) eqn:Hn.
      * destruct (str_eqb (pd_number phone) n) eqn:Hq; [|reflexivity].
        apply str_eqb_eq in Hn, Hq. apply str_eqb_neq in Hp. congruence.
      * exact IH.
Qed.

Lemma find_hasNumber_None (n : str) (l : list PhoneData) :
  find (hasNumber n) l = None <-> ~ In n (map pd_number l).
Proof.
  induction l as [|p l IH]; simpl; [tauto|]. unfold hasNumber at 1.
  destruct (str_eqb (pd_number p) n) eqn:H.
  - apply str_eqb_eq in H. split; [discriminate|tauto].
  - apply str_eqb_neq in H. rewrite IH. tauto.
Qed.

Lemma mergeInto_numbers (all : list PhoneData) (phone : PhoneData) :
  map pd_number (mergeInto all phone)
  = match find (hasNumber (pd_number phone)) all with
    | Some _ => map pd_number all
    | None => map pd_number all ++ [pd_number phone]
    end.
Proof.
  induction all as [|p all IH]; simpl; [reflexivity|]. unfold hasNumber at 1.
  destruct (str_eqb (pd_number p) (pd_number phone)); simpl; [reflexivity|].
  rewrite IH. now destruct (find _ all).
Qed.

Lemma mergeInto_NoDup (all : list PhoneData) (phone : PhoneData) :
  NoDup (map pd_number all) -> NoDup (map pd_number (mergeInto all phone)).
Proof.
  intros H. rewrite mergeInto_numbers.
  destruct (find _ all) eqn:F; [assumption|].
  apply find_hasNumber_None in F.
  apply NoDup_rev in H. rewrite <- (rev_involutive (_ ++ _)).
  apply NoDup_rev. rewrite rev_app_distr. simpl. constructor; [|assumption].
  now rewrite <- in_rev.
Qed.

Lemma merge_NoDup (phones all : list PhoneData) :
  NoDup (map pd_number all) ->
  NoDup (map pd_number (fold_left mergeInto phones all)).
Proof.
  revert all. induction phones as [|q phones IH]; intros all H; simpl;
    [assumption|]. apply IH. now apply mergeInto_NoDup.
Qed.

Lemma merge_find (phones all : list PhoneData) (n : str) :
  find (hasNumber n) (fold_left mergeInto phones all)
  = match find (hasNumber n) all, filter (hasNumber n) phones with
    | Some e, qs => Some (fold_left mergePhone qs e)
    | None, q :: qs => Some (fold_left mergePhone qs q)
    | None, [] => None
    end.
Proof.
  revert all. induction phones as [|q phones IH]; intros all; simpl.
  - now destruct (find (hasNumber n) all).
  - rewrite IH, mergeInto_find.
    destruct (hasNumber n q); [|reflexivity].
    now destruct (find (hasNumber n) all).
Qed.

Lemma In_find_number (l : list PhoneData) (p : PhoneData) :
  NoDup (map pd_number l) -> In p l -> find (hasNumber (pd_number p)) l = Some p.
Proof.
  induction l as [|x l IH]; simpl; intros Hnd Hin; [destruct Hin|].
  inversion Hnd as [|? ? Hx Hnd']; subst. unfold hasNumber at 1.
  destruct Hin as [->|Hin]; [now rewrite str_eqb_refl|].
  destruct (str_eqb (pd_number x) (pd_number p)) eqn:H; [|now apply IH].
  apply str_eqb_eq in H. exfalso. apply Hx. rewrite H. now apply in_map.
Qed.

(** Every entry of the merged array is the first visited aggregate of its
    number with the later ones of that number merged into it in turn. *)
Lemma merged_entry (results : list UploadResult) (p : PhoneData) :
  In p (allPhoneNumbers results) ->
  exists q qs,
    filter (hasNumber (pd_number p)) (visited results) = q :: qs
    /\ p = fold_left mergePhone qs q.
Proof.
  rewrite allPhoneNumbers_visited. intros Hin.
  apply In_find_number in Hin; [|apply merge_NoDup; constructor].
  rewrite merge_find in Hin. simpl in Hin.
  destruct (filter _ (visited results)) as [|q qs]; [discriminate|].
  exists q, qs. split; [reflexivity|]. now injection Hin.
Qed.

(** What merging leaves untouched, and what it adds up. *)
Lemma mergePhones_frame (qs : list PhoneData) (q : PhoneData) :
  pd_number (fold_left mergePhone qs q) = pd_number q
  /\ pd_identity (fold_left mergePhone qs q) = pd_identity q
  /\ pd_operator (fold_left mergePhone qs q) = pd_operator q
  /\ pd_firstActivity (fold_left mergePhone qs q) = pd_firstActivity q
  /\ pd_lastActivity (fold_left mergePhone qs q) = pd_lastActivity q.
Proof.
  revert q. induction qs as [|x qs IH]; intros q; simpl; [tauto|].
  destruct (IH (mergePhone q x)) as (-> & -> & -> & -> & ->). tauto.
Qed.

Lemma mergePhones_counts (qs : list PhoneData) (q : PhoneData) :
  pd_callCount (fold_left mergePhone qs q)
  = pd_callCount q + list_sum (map pd_callCount qs)
  /\ pd_smsCount (fold_left mergePhone qs q)
     = pd_smsCount q + list_sum (map pd_smsCount qs).
Proof.
  revert q. induction qs as [|x qs IH]; intros q; simpl; [lia|].
  destruct (IH (mergePhone q x)) as (-> & ->). simpl. lia.
Qed.

Lemma mergePhones_records (qs : list PhoneData) (q : PhoneData) :
  Sorted (keyLe rd_dateTime) (pd_records q) ->
  Sorted (keyLe rd_dateTime) (pd_records (fold_left mergePhone qs q))
  /\ Permutation (pd_records (fold_left mergePhone qs q))
       (pd_records q ++ flat_map pd_records qs).
Proof.
  revert q. induction qs as [|x qs IH]; intros q Hs; simpl.
  - split; [assumption|]. now rewrite app_nil_r.
  - destruct (IH (mergePhone q x)) as [S P]; [apply sortBy_sorted|].
    split; [assumption|]. rewrite P. simpl.
    rewrite sortBy_perm. now rewrite app_assoc.
Qed.

Lemma filter_head_find {A : Type} (f : A -> bool) (l : list A) (x : A)
    (xs : list A) :
  filter f l = x :: xs -> find f l = Some x.
Proof.
  induction l as [|y l IH]; simpl; [discriminate|].
  destruct (f y); [now intros [= ->]|exact IH].
Qed.

(** ** Sample batches *)

Definition sampleSite (lat : Q) : LocationData :=
  {| siteName := js "Bastos"; cellId := js "A1";
     longitude := (115 # 10)%Q; latitude := lat; azimuth := js "45" |}.

Definition sampleCall (t : Date) (lat : Q) : RecordData :=
  {| rd_id := js "record-0-0"; rd_callerNumber := js "699111222";
     rd_calledNumber := js "655333444"; rd_dateTime := t;
     rd_duration := js "00:01:30"; rd_location := Some (sampleSite lat);
     rd_rawLocation := [] |}.

(** The aggregate of a file with one call of 699111222, at instant [t] and
    latitude [lat]. *)
Definition samplePhone (t : Date) (lat : Q) : PhoneData :=
  {| pd_number := js "699111222"; pd_identity := None; pd_operator := None;
     pd_callCount := 1; pd_smsCount := 0;
     pd_firstActivity := Some t; pd_lastActivity := Some t;
     pd_locations := [sampleSite lat];
     pd_records := [sampleCall t lat] |}.

Arguments sampleSite lat%_Q.
Arguments sampleCall t%_Z lat%_Q.
Arguments samplePhone t%_Z lat%_Q.

Definition sampleFile (name : string) (p : PhoneData) : UploadResult :=
  {| ur_fileName := js name; success := true; data := Some [p]; error := None |}.

(** ** C10: what a merge leaves alone *)

(** C10: every entry of the merged array keeps the number, identity,
    operator, first activity and last activity of the first visited
    aggregate of its number (the first file in which the number appears),
    whatever is merged into it later; and merging an aggregate leaves the
    entries of all other numbers as they were. *)
Theorem C10_merge_keeps_first_entry_fields :
  (forall results p,
      In p (allPhoneNumbers results) ->
      exists q,
        find (hasNumber (pd_number p)) (visited results) = Some q
        /\ pd_number p = pd_number q
        /\ pd_identity p = pd_identity q
        /\ pd_operator p = pd_operator q
        /\ pd_firstActivity p = pd_firstActivity q
        /\ pd_lastActivity p = pd_lastActivity q)
  /\ (forall all phone n,
        hasNumber n phone = false ->
        find (hasNumber n) (mergeInto all phone) = find (hasNumber n) all).
Proof.
  split.
  - intros results p Hin. apply merged_entry in Hin as (q & qs & F & ->).
    exists q. split; [now apply filter_head_find in F|].
    apply mergePhones_frame.
  - intros all phone n H. now rewrite mergeInto_find, H.
Qed.

(** A second file whose only record is earlier than the activity window
    of the first: the record is merged in, the window stays. *)
Lemma C10_witness :
  In {| pd_number := js "699111222"; pd_identity := None; pd_operator := None;
        pd_callCount := 2; pd_smsCount := 0;
        pd_firstActivity := Some 100%Z; pd_lastActivity := Some 100%Z;
        pd_locations := [sampleSite (39 # 10)];
        pd_records := [sampleCall 50 (39 # 10); sampleCall 100 (39 # 10)] |}
     (allPhoneNumbers [sampleFile "a.xlsx" (samplePhone 100 (39 # 10));
                       sampleFile "b.xlsx" (samplePhone 50 (39 # 10))])
  /\ exists q,
       find (hasNumber (js "699111222"))
         (visited [sampleFile "a.xlsx" (samplePhone 100 (39 # 10));
                   sampleFile "b.xlsx" (samplePhone 50 (39 # 10))]) = Some q
       /\ js "699111222" = pd_number q
       /\ None = pd_identity q
       /\ None = pd_operator q
       /\ Some 100%Z = pd_firstActivity q
       /\ Some 100%Z = pd_lastActivity q.
Proof.
  assert (H : In {| pd_number := js "699111222"; pd_identity := None;
                    pd_operator := None; pd_callCount := 2; pd_smsCount := 0;
                    pd_firstActivity := Some 100%Z; pd_lastActivity := Some 100%Z;
                    pd_locations := [sampleSite (39 # 10)];
                    pd_records := [sampleCall 50 (39 # 10);
                                   sampleCall 100 (39 # 10)] |}
                (allPhoneNumbers [sampleFile "a.xlsx" (samplePhone 100 (39 # 10));
                                  sampleFile "b.xlsx" (samplePhone 50 (39 # 10))])).
  { left. reflexivity. }
  split; [exact H|].
  exact (proj1 C10_merge_keeps_first_entry_fields _ _ H).
Defined.

(** ** C1: merging the aggregates of several files *)

(** What the merger does for every number: the counts of the visited
    aggregates of the number add up, their records are put together and
    sorted by instant, and the locations of the later aggregates are added
    to those of the first unless an equal pair of coordinates is there. *)
Lemma merge_sums_and_sorts (results : list UploadResult) (p : PhoneData) :
  In p (allPhoneNumbers results) ->
  exists q qs,
    filter (hasNumber (pd_number p)) (visited results) = q :: qs
    /\ pd_callCount p = list_sum (map pd_callCount (q :: qs))
    /\ pd_smsCount p = list_sum (map pd_smsCount (q :: qs))
    /\ Permutation (pd_records p) (flat_map pd_records (q :: qs))
    /\ (Sorted (keyLe rd_dateTime) (pd_records q) ->
        Sorted (keyLe rd_dateTime) (pd_records p))
    /\ pd_locations p
       = fold_left mergeLocations (map pd_locations qs) (pd_locations q).
Proof.
  intros Hin. apply merged_entry in Hin as (q & qs & F & ->).
  exists q, qs. split; [assumption|].
  destruct (mergePhones_counts qs q) as [-> ->].
  repeat split; try reflexivity.
  - assert (P : forall l x, Permutation (pd_records (fold_left mergePhone l x))
                              (pd_records x ++ flat_map pd_records l)).
    { induction l as [|y l IH]; intros x; simpl.
      - now rewrite app_nil_r.
      - rewrite IH. simpl. rewrite sortBy_perm. now rewrite app_assoc. }
    apply P.
  - intros S. now apply mergePhones_records.
  - clear F. revert q. induction qs as [|x qs IH]; intros q; simpl;
      [reflexivity|]. now rewrite IH.
Qed.

(** C1 on the code: two files, each with one call of 699111222, at
    latitudes 3.9 and 3.90005 and the same longitude.  The two locations
    are within 0.0001 of each other, the test of the aggregator; the
    merger compares coordinates with [===] and keeps both. *)
Lemma C1_merge_keeps_near_locations :
  allPhoneNumbers [sampleFile "a.xlsx" (samplePhone 100 (39 # 10));
                   sampleFile "b.xlsx" (samplePhone 200 (390005 # 100000))]
  = [ {| pd_number := js "699111222"; pd_identity := None; pd_operator := None;
         pd_callCount := 2; pd_smsCount := 0;
         pd_firstActivity := Some 100%Z; pd_lastActivity := Some 100%Z;
         pd_locations := [sampleSite (39 # 10); sampleSite (390005 # 100000)];
         pd_records := [sampleCall 100 (39 # 10);
                        sampleCall 200 (390005 # 100000)] |} ]
  /\ nearLocation (sampleSite (39 # 10)) (sampleSite (390005 # 100000)) = true
  /\ sameLocation (sampleSite (39 # 10)) (sampleSite (390005 # 100000)) = false.
Proof. repeat split; vm_compute; reflexivity. Qed.

(** With coordinates that are equal the two files merge into one
    aggregate with a single location. *)
Example merge_equal_locations :
  allPhoneNumbers [sampleFile "a.xlsx" (samplePhone 100 (39 # 10));
                   sampleFile "b.xlsx" (samplePhone 200 (39 # 10))]
  = [ {| pd_number := js "699111222"; pd_identity := None; pd_operator := None;
         pd_callCount := 2; pd_smsCount := 0;
         pd_firstActivity := Some 100%Z; pd_lastActivity := Some 100%Z;
         pd_locations := [sampleSite (39 # 10)];
         pd_records := [sampleCall 100 (39 # 10); sampleCall 200 (39 # 10)] |} ].
Proof. vm_compute. reflexivity. Qed.

(** * Further properties of the pipeline *)

(** ** The aggregator: counts, completeness, keys, identity *)

Lemma filter_split_length {A : Type} (f : A -> bool) (l : list A) :
  List.length (filter f l) + List.length (filter (fun x => negb (f x)) l)
  = List.length l.
Proof.
  induction l as [|x l IH]; simpl; [reflexivity|].
  destruct (f x); simpl; lia.
Qed.

Lemma recordsOf_In (k : str) (rs : list CallRecord) (r : CallRecord) :
  In r (recordsOf k rs)
  <-> In r rs /\ callerNumber r = k /\ tooShort (callerNumber r) = false.
Proof.
  unfold recordsOf, accepted. rewrite filter_In, andb_true_iff, negb_true_iff.
  rewrite str_eqb_eq. tauto.
Qed.

(** X1. Every record of an aggregate is counted once, as a call or as an SMS. *)
Theorem aggregate_counts_cover_records (rs : list CallRecord)
    (subs : list SubscriberInfo) (k : str) (agg : PhoneNumber) :
  In (k, agg) (aggregateByPhoneNumber rs subs) ->
  callCount agg + smsCount agg = List.length (records agg).
Proof.
  intros Hin. apply aggregate_entry in Hin as [_ ->].
  cbn [sortRecords callCount smsCount records].
  set (p0 := newPhone _ k).
  destruct (addRecords_counts (recordsOf k rs) p0) as [-> ->].
  rewrite (Permutation_length (sortBy_perm sortKey _)), addRecords_records.
  simpl. rewrite <- (filter_split_length
                       (fun r => isSmsDuration (duration r)) (recordsOf k rs)).
  lia.
Qed.

Lemma aggregate_counts_cover_records_witness :
  In (js "699111222", sampleAggregate) (aggregateByPhoneNumber sampleRecords [])
  /\ 2 + 1 = List.length (records sampleAggregate).
Proof.
  assert (H : In (js "699111222", sampleAggregate)
                (aggregateByPhoneNumber sampleRecords [])).
  { rewrite sample_aggregation. left. reflexivity. }
  split; [exact H|].
  exact (@aggregate_counts_cover_records sampleRecords [] (js "699111222")
           sampleAggregate H).
Defined.

(** X2. The records of the entry of [k] are the input records whose caller
    number is [k], each as often as it occurs in the input; and every
    input record whose caller number passes the length guard is in the
    entry of that number. *)
Theorem aggregate_records_complete (rs : list CallRecord)
    (subs : list SubscriberInfo) :
  (forall k agg,
      In (k, agg) (aggregateByPhoneNumber rs subs) ->
      Permutation (records agg)
        (filter (fun r => negb (tooShort (callerNumber r))
                          && str_eqb (callerNumber r) k) rs))
  /\ (forall r,
        In r rs -> tooShort (callerNumber r) = false ->
        exists agg,
          In (callerNumber r, agg) (aggregateByPhoneNumber rs subs)
          /\ In r (records agg)).
Proof.
  split.
  - intros k agg Hin. apply aggregate_entry in Hin as [_ ->].
    cbn [sortRecords records]. rewrite sortBy_perm, addRecords_records.
    reflexivity.
  - intros r Hr Hk.
    assert (I : In r (recordsOf (callerNumber r) rs))
      by (apply recordsOf_In; auto).
    pose proof (aggregate_get rs subs (callerNumber r)) as G.
    destruct (recordsOf (callerNumber r) rs) as [|r0 l] eqn:R; [destruct I|].
    eexists. split; [apply mapGet_Some_In; exact G|].
    cbn [sortRecords records]. apply sortBy_In. rewrite addRecords_records.
    simpl. exact I.
Qed.

Lemma aggregate_records_complete_witness :
  Permutation (records sampleAggregate)
    (filter (fun r => negb (tooShort (callerNumber r))
                      && str_eqb (callerNumber r) (js "699111222"))
       sampleRecords)
  /\ exists agg,
       In (js "699111222", agg) (aggregateByPhoneNumber sampleRecords [])
       /\ In (sampleRecord "699111222" "677000111" "00:00:45" (Some 10%Z))
            (records agg).
Proof.
  destruct (aggregate_records_complete sampleRecords []) as [P C].
  split.
  - apply P. rewrite sample_aggregation. left. reflexivity.
  - apply (C (sampleRecord "699111222" "677000111" "00:00:45" (Some 10%Z))).
    + simpl. tauto.
    + reflexivity.
Defined.

(** X3. The map holds one entry per caller number that passes the guard, and
    no other key. *)
Theorem aggregate_keys (rs : list CallRecord) (subs : list SubscriberInfo) :
  NoDup (map fst (aggregateByPhoneNumber rs subs))
  /\ (forall k,
        In k (map fst (aggregateByPhoneNumber rs subs))
        <-> exists r, In r rs /\ callerNumber r = k /\ tooShort k = false).
Proof.
  split.
  - unfold aggregateByPhoneNumber. rewrite map_map. simpl.
    apply aggregateLoop_NoDup. constructor.
  - intros k.
    assert (E : In k (map fst (aggregateByPhoneNumber rs subs))
                <-> recordsOf k rs <> []).
    { pose proof (mapGet_None_keys k (aggregateByPhoneNumber rs subs)) as N.
      rewrite aggregate_get in N.
      destruct (recordsOf k rs) as [|r0 l]; split; intros H.
      - exfalso. apply N; [reflexivity|exact H].
      - congruence.
      - discriminate.
      - destruct (in_dec (list_eq_dec ascii_dec) k
                    (map fst (aggregateByPhoneNumber rs subs))) as [I|I];
          [exact I|]. apply N in I. discriminate. }
    rewrite E. split.
    + intros H. destruct (recordsOf k rs) as [|r0 l] eqn:R; [congruence|].
      exists r0. assert (I : In r0 (recordsOf k rs)) by (rewrite R; now left).
      apply recordsOf_In in I as (I1 & I2 & I3). subst k. auto.
    + intros (r & I1 & I2 & I3) H. subst k.
      assert (I : In r (recordsOf (callerNumber r) rs))
        by (apply recordsOf_In; auto).
      rewrite H in I. destruct I.
Qed.

Lemma mapOf_snoc {V : Type} (l : list (str * V)) (kv : str * V) :
  mapOf (l ++ [kv]) = mapSet (fst kv) (snd kv) (mapOf l).
Proof. unfold mapOf. now rewrite fold_left_app. Qed.

(** [new Map(entries).get(k)] is the value of the last entry with key [k]. *)
Lemma mapOf_get {V : Type} (l : list (str * V)) (k : str) :
  mapGet k (mapOf l)
  = option_map snd (findLast (fun kv => str_eqb (fst kv) k) l).
Proof.
  induction l as [|kv l IH] using rev_ind; [reflexivity|].
  rewrite mapOf_snoc, findLast_snoc.
  destruct (str_eqb (fst kv) k) eqn:H.
  - apply str_eqb_eq in H. subst k. apply mapGet_mapSet_same.
  - apply str_eqb_neq in H. now rewrite mapGet_mapSet_other.
Qed.

(** X4. The identity of an aggregate is the full name of the LAST subscriber
    row with its number, and is absent when there is none. *)
Theorem aggregate_identity_last_subscriber (rs : list CallRecord)
    (subs : list SubscriberInfo) (k : str) (agg : PhoneNumber) :
  In (k, agg) (aggregateByPhoneNumber rs subs) ->
  identity agg
  = option_map fullName (findLast (fun s => str_eqb (sub_number s) k) subs).
Proof.
  intros Hin. apply aggregate_entry in Hin as [_ ->].
  unfold sortRecords. cbn [identity].
  destruct (addRecords_number (recordsOf k rs)
              (newPhone (mapOf (map (fun s => (sub_number s, s)) subs)) k))
    as [_ ->].
  unfold newPhone. cbn [identity]. rewrite mapOf_get.
  unfold findLast. rewrite <- map_rev.
  induction (rev subs) as [|s l IH]; simpl; [reflexivity|].
  destruct (str_eqb (sub_number s) k); [reflexivity|exact IH].
Qed.

Definition sampleSubscriber (n name : string) : SubscriberInfo :=
  {| sub_number := js n; fullName := js name; birthDate := None;
     cniNumber := None; cniExpiration := None; address := None |}.

Lemma aggregate_identity_last_subscriber_witness :
  exists agg,
    In (js "699111222", agg)
       (aggregateByPhoneNumber sampleRecords
          [sampleSubscriber "699111222" "Awa"; sampleSubscriber "655333444" "Bio";
           sampleSubscriber "699111222" "Awa Ngono"])
    /\ identity agg = Some (js "Awa Ngono").
Proof.
  eexists. split.
  - left. vm_compute. reflexivity.
  - exact (@aggregate_identity_last_subscriber sampleRecords
             [sampleSubscriber "699111222" "Awa";
              sampleSubscriber "655333444" "Bio";
              sampleSubscriber "699111222" "Awa Ngono"]
             (js "699111222") _ (or_introl eq_refl)).
Defined.

(** ** The aggregator: locations and activity window *)

(** The difference of a double with itself is 0, which is below 0.0001. *)
Lemma within_zero (a : Q) : within (subtract a a) = true.
Proof.
  unfold subtract. destruct (roundQ a) as [x d].
  assert (Z : roundQ ((x # d) - (x # d)) = 0%Q).
  { unfold roundQ, Qminus, Qplus, Qopp. cbn [Qnum Qden].
    now replace (x * Zpos d + - x * Zpos d)%Z with 0%Z by lia. }
  unfold toDouble. rewrite Z. vm_compute. reflexivity.
Qed.

Lemma nearLocation_refl (l : LocationData) : nearLocation l l = true.
Proof. unfold nearLocation. now rewrite !within_zero. Qed.

Lemma ForallOrdPairs_snoc {A : Type} (R : A -> A -> Prop) (l : list A) (x : A) :
  ForallOrdPairs R l -> Forall (fun y => R y x) l ->
  ForallOrdPairs R (l ++ [x]).
Proof.
  induction 1 as [|y l Hy Hl IH]; intros Hx; simpl.
  - repeat constructor.
  - inversion Hx as [|? ? Hyx Hx']; subst. constructor.
    + apply Forall_app. split; [assumption|]. now constructor.
    + now apply IH.
Qed.

(** What the fold keeps true of the location list: no stored location
    passes the test [nearLocation] with an earlier one, every stored
    location is the location of a record, and the location of every
    record passes the test with a stored one. *)
Definition locationsInvariant (p : PhoneNumber) : Prop :=
  ForallOrdPairs (fun a b => nearLocation a b = false) (locations p)
  /\ (forall l, In l (locations p) ->
                exists r, In r (records p) /\ location r = Some l)
  /\ (forall r loc, In r (records p) -> location r = Some loc ->
                    exists l, In l (locations p) /\ nearLocation l loc = true).

Lemma addRecord_locations (p : PhoneNumber) (r : CallRecord) :
  locationsInvariant p -> locationsInvariant (addRecord p r).
Proof.
  intros (S & F & C). unfold locationsInvariant, addRecord.
  cbn [locations records].
  destruct (location r) as [loc|] eqn:L.
  - destruct (existsb (fun l => nearLocation l loc) (locations p)) eqn:X.
    + repeat split.
      * assumption.
      * intros l Hl. destruct (F l Hl) as (r' & I & E). exists r'.
        split; [apply in_or_app; now left|assumption].
      * intros r' loc' I E. apply in_app_or in I as [I|[<-|[]]].
        -- now apply (C r').
        -- rewrite L in E. injection E as <-.
           apply existsb_exists in X as (l & Hl & N). now exists l.
    + assert (N : Forall (fun l => nearLocation l loc = false) (locations p)).
      { apply Forall_forall. intros l Hl.
        destruct (nearLocation l loc) eqn:Y; [|reflexivity].
        assert (T : existsb (fun l => nearLocation l loc) (locations p) = true)
          by (apply existsb_exists; now exists l).
        congruence. }
      repeat split.
      * now apply ForallOrdPairs_snoc.
      * intros l Hl. apply in_app_or in Hl as [Hl|[<-|[]]].
        -- destruct (F l Hl) as (r' & I & E). exists r'.
           split; [apply in_or_app; now left|assumption].
        -- exists r. split; [apply in_or_app; right; now left|assumption].
      * intros r' loc' I E. apply in_app_or in I as [I|[<-|[]]].
        -- destruct (C r' loc' I E) as (l & Hl & Y). exists l.
           split; [apply in_or_app; now left|assumption].
        -- rewrite L in E. injection E as <-. exists loc.
           split; [apply in_or_app; right; now left|apply nearLocation_refl].
  - repeat split.
    + assumption.
    + intros l Hl. destruct (F l Hl) as (r' & I & E). exists r'.
      split; [apply in_or_app; now left|assumption].
    + intros r' loc' I E. apply in_app_or in I as [I|[<-|[]]].
      * now apply (C r').
      * congruence.
Qed.

Lemma addRecords_locations (l : list CallRecord) (p : PhoneNumber) :
  locationsInvariant p -> locationsInvariant (fold_left addRecord l p).
Proof.
  revert p. induction l as [|r l IH]; intros p H; simpl; [assumption|].
  apply IH. now apply addRecord_locations.
Qed.

(** X5. In every aggregate no location passes the test of the aggregator
    (both differences of coordinates, computed as doubles, below 0.0001
    in absolute value) with a location stored before it; every stored
    location is the location of one of the aggregate's records; and the
    location of each record passes the test with a stored one. *)
Theorem aggregate_locations_deduplicated (rs : list CallRecord)
    (subs : list SubscriberInfo) (k : str) (agg : PhoneNumber) :
  In (k, agg) (aggregateByPhoneNumber rs subs) ->
  ForallOrdPairs (fun a b => nearLocation a b = false) (locations agg)
  /\ (forall l, In l (locations agg) ->
                exists r, In r (records agg) /\ location r = Some l)
  /\ (forall r loc, In r (records agg) -> location r = Some loc ->
                    exists l, In l (locations agg) /\ nearLocation l loc = true).
Proof.
  intros Hin. apply aggregate_entry in Hin as [_ ->].
  set (p0 := newPhone _ k).
  assert (I0 : locationsInvariant p0).
  { repeat split; simpl; [constructor|intros l []|intros r loc []]. }
  destruct (@addRecords_locations (recordsOf k rs) p0 I0) as (S & F & C).
  cbn [sortRecords locations records]. repeat split.
  - assumption.
  - intros l Hl. destruct (F l Hl) as (r & I & E). exists r.
    split; [now apply sortBy_In|assumption].
  - intros r loc I E. apply sortBy_In in I. now apply (C r).
Qed.

(** Three calls of one number at the latitudes 0.0001, 0.000000000000000000005
    and 0.00015 (as doubles).  The first two differ by less than 0.0001 as
    real numbers, but their difference computed as a double is 0.0001
    itself, the double nearest to it: both are stored.  The third is
    within the tolerance of the first and is not stored. *)
Definition nearbyRecord (t : Date) (lat : Q) : CallRecord :=
  {| id := js "record"; callerNumber := js "699111222";
     calledNumber := js "655333444"; imei := []; dateTime := Some t;
     duration := js "00:01:30"; location := Some (sampleSite (roundQ lat));
     rawLocation := [] |}.

Arguments nearbyRecord t%_Z lat%_Q.

Definition nearbyRecords : list CallRecord :=
  [ nearbyRecord 10 (1 # 10000);
    nearbyRecord 20 (5 # 1000000000000000000000);
    nearbyRecord 30 (15 # 100000) ].

Definition nearbyAggregate : PhoneNumber :=
  {| number := js "699111222"; identity := None; operator := None;
     pn_imei := None; callCount := 3; smsCount := 0;
     firstActivity := Some 10%Z; lastActivity := Some 30%Z;
     locations := [ sampleSite (roundQ (1 # 10000));
                    sampleSite (roundQ (5 # 1000000000000000000000)) ];
     records := nearbyRecords |}.

Lemma aggregate_locations_deduplicated_witness :
  In (js "699111222", nearbyAggregate) (aggregateByPhoneNumber nearbyRecords [])
  /\ ForallOrdPairs (fun a b => nearLocation a b = false)
       (locations nearbyAggregate)
  /\ (forall l, In l (locations nearbyAggregate) ->
                exists r, In r (records nearbyAggregate) /\ location r = Some l)
  /\ (forall r loc, In r (records nearbyAggregate) -> location r = Some loc ->
                    exists l, In l (locations nearbyAggregate)
                              /\ nearLocation l loc = true).
Proof.
  assert (H : In (js "699111222", nearbyAggregate)
                (aggregateByPhoneNumber nearbyRecords [])).
  { vm_compute. left. reflexivity. }
  split; [exact H|].
  exact (@aggregate_locations_deduplicated nearbyRecords [] (js "699111222")
           nearbyAggregate H).
Defined.

(** What the fold keeps true of the activity window. *)
Definition activityInvariant (p : PhoneNumber) : Prop :=
  match firstActivity p, lastActivity p with
  | Some f, Some l =>
      (exists r, In r (records p) /\ dateTime r = Some f)
      /\ (exists r, In r (records p) /\ dateTime r = Some l)
      /\ (forall r t, In r (records p) -> dateTime r = Some t ->
                      (f <= t <= l)%Z)
  | None, None => forall r, In r (records p) -> dateTime r = None
  | _, _ => False
  end.

Ltac stored_record r :=
  exists r; split; [apply in_or_app; (left; assumption) || (right; now left)
                   |assumption].

Lemma addRecord_activity (p : PhoneNumber) (r : CallRecord) :
  activityInvariant p -> activityInvariant (addRecord p r).
Proof.
  unfold activityInvariant, addRecord. cbn [firstActivity lastActivity records].
  destruct (firstActivity p) as [f|], (lastActivity p) as [l|];
    try contradiction.
  - intros ((rf & If & Ef) & (rl & Il & El) & B).
    assert (Hfl : (f <= l)%Z) by (destruct (B rf f If Ef); lia).
    destruct (dateTime r) as [t|] eqn:D.
    + destruct (Z.ltb_spec t f), (Z.ltb_spec l t);
        (split; [|split];
         [ first [stored_record r | stored_record rf]
         | first [stored_record r | stored_record rl]
         | intros r' t' I E; apply in_app_or in I as [I|[<-|[]]];
           [ destruct (B r' t' I E); lia
           | rewrite D in E; injection E as <-; lia ] ]).
    + split; [|split]; [stored_record rf|stored_record rl|].
      intros r' t' I E. apply in_app_or in I as [I|[<-|[]]];
        [now apply (B r')|congruence].
  - intros N. destruct (dateTime r) as [t|] eqn:D.
    + split; [|split]; [stored_record r|stored_record r|].
      intros r' t' I E. apply in_app_or in I as [I|[<-|[]]].
      * rewrite (N r' I) in E. discriminate.
      * rewrite D in E. injection E as <-. lia.
    + intros r' I. apply in_app_or in I as [I|[<-|[]]]; [now apply N|assumption].
Qed.

Lemma addRecords_activityInvariant (l : list CallRecord) (p : PhoneNumber) :
  activityInvariant p -> activityInvariant (fold_left addRecord l p).
Proof.
  revert p. induction l as [|r l IH]; intros p H; simpl; [assumption|].
  apply IH. now apply addRecord_activity.
Qed.

(** X6. The activity window of an aggregate: when [firstActivity] is an
    instant, so is [lastActivity], each is the timestamp of one of its
    records, and the timestamp of every record lies between the two. *)
Theorem aggregate_activity_window (rs : list CallRecord)
    (subs : list SubscriberInfo) (k : str) (agg : PhoneNumber) (f : Date) :
  In (k, agg) (aggregateByPhoneNumber rs subs) ->
  firstActivity agg = Some f ->
  exists l,
    lastActivity agg = Some l
    /\ (exists r, In r (records agg) /\ dateTime r = Some f)
    /\ (exists r, In r (records agg) /\ dateTime r = Some l)
    /\ (forall r t, In r (records agg) -> dateTime r = Some t ->
                    (f <= t <= l)%Z).
Proof.
  intros Hin Hf. apply aggregate_entry in Hin as [_ ->].
  set (p0 := newPhone _ k) in *.
  assert (I0 : activityInvariant p0) by (intros r []).
  pose proof (@addRecords_activityInvariant (recordsOf k rs) p0 I0) as A.
  unfold activityInvariant in A.
  cbn [sortRecords firstActivity lastActivity records] in *.
  rewrite Hf in A.
  destruct (lastActivity (fold_left addRecord (recordsOf k rs) p0)) as [l|];
    [|contradiction].
  destruct A as ((rf & If & Ef) & (rl & Il & El) & B).
  exists l. split; [reflexivity|]. split; [|split].
  - exists rf. split; [now apply sortBy_In|assumption].
  - exists rl. split; [now apply sortBy_In|assumption].
  - intros r t I E. apply sortBy_In in I. now apply (B r).
Qed.

Lemma aggregate_activity_window_witness :
  In (js "699111222", sampleAggregate) (aggregateByPhoneNumber sampleRecords [])
  /\ firstActivity sampleAggregate = Some 10%Z
  /\ exists l,
       lastActivity sampleAggregate = Some l
       /\ (exists r, In r (records sampleAggregate) /\ dateTime r = Some 10%Z)
       /\ (exists r, In r (records sampleAggregate) /\ dateTime r = Some l)
       /\ (forall r t, In r (records sampleAggregate) -> dateTime r = Some t ->
                       (10 <= t <= l)%Z).
Proof.
  assert (H : In (js "699111222", sampleAggregate)
                (aggregateByPhoneNumber sampleRecords [])).
  { rewrite sample_aggregation. left. reflexivity. }
  split; [exact H|]. split; [reflexivity|].
  exact (@aggregate_activity_window sampleRecords [] (js "699111222")
           sampleAggregate 10%Z H eq_refl).
Defined.

(** ** The Record Extractor *)

Lemma trimStart_cases (s : str) :
  trimStart s = []
  \/ exists c t, trimStart s = c :: t /\ isWhiteSpace c = false.
Proof.
  induction s as [|c s IH]; simpl; [now left|].
  destruct (isWhiteSpace c) eqn:W; [exact IH|]. right. now exists c, s.
Qed.

Lemma trimStart_idem (s : str) : trimStart (trimStart s) = trimStart s.
Proof.
  destruct (trimStart_cases s) as [->|(c & t & -> & W)]; [reflexivity|].
  now apply trimStart_head.
Qed.

Lemma trimStart_keeps_last (l : str) (c : ascii) :
  isWhiteSpace c = false -> exists m, trimStart (l ++ [c]) = m ++ [c].
Proof.
  intros W. induction l as [|a l IH]; simpl.
  - rewrite W. now exists [].
  - destruct (isWhiteSpace a); [exact IH|]. now exists (a :: l).
Qed.

(** The result of [trim] is empty or runs from a character that is not
    white space to one that is not. *)
Lemma trim_shape (s : str) :
  trim s = []
  \/ exists c m, isWhiteSpace c = false
                 /\ trim s = c :: rev m
                 /\ trimStart (m ++ [c]) = m ++ [c].
Proof.
  unfold trim.
  destruct (trimStart_cases s) as [H|(c & t & H & W)]; rewrite H;
    [now left|right].
  unfold trimEnd. simpl rev.
  destruct (@trimStart_keeps_last (rev t) c W) as (m & Hm).
  exists c, m. split; [assumption|]. split.
  - rewrite Hm, rev_app_distr. reflexivity.
  - rewrite <- Hm. apply trimStart_idem.
Qed.

(** [trim] leaves nothing to trim. *)
Lemma trim_idem (s : str) : trim (trim s) = trim s.
Proof.
  destruct (trim_shape s) as [H|(c & m & W & H & T)]; rewrite H;
    [reflexivity|].
  unfold trim. rewrite (@trimStart_head c (rev m) W).
  unfold trimEnd. simpl rev. rewrite rev_involutive, T, rev_app_distr.
  reflexivity.
Qed.

Lemma textField_trimmed (E : Externals) (col : option str) (row : Row) :
  trim (textField E col row) = textField E col row.
Proof.
  unfold textField. destruct col as [c|]; [|reflexivity].
  destruct (isSet (Some c)); [apply trim_idem|reflexivity].
Qed.

Lemma phoneField_digits (E : Externals) (col : option str) (row : Row) :
  Forall (fun c => isDigit c = true) (phoneField E col row).
Proof.
  unfold phoneField. destruct col as [c|]; [|constructor].
  destruct (isSet (Some c)); [apply normalizePhoneNumber_digits|constructor].
Qed.

(** X7. Every record the extractor emits has a caller or a called number;
    both numbers are strings of digits; its location is the decoding of
    its raw location text; and its duration, IMEI and raw location text
    carry no white space at either end. *)
Theorem extracted_record_well_formed (E : Externals) (data : list Row)
    (r : CallRecord) :
  In r (parseListingSheet E data) ->
  (callerNumber r <> [] \/ calledNumber r <> [])
  /\ Forall (fun c => isDigit c = true) (callerNumber r)
  /\ Forall (fun c => isDigit c = true) (calledNumber r)
  /\ location r = parseLocationString (rawLocation r)
  /\ trim (duration r) = duration r
  /\ trim (imei r) = imei r
  /\ trim (rawLocation r) = rawLocation r.
Proof.
  intros H. destruct data as [|first data]; [destruct H|].
  unfold parseListingSheet in H.
  apply extractRows_In in H as (j & row & _ & X).
  unfold extractRow in X.
  destruct (negb (str_eqb (phoneField E _ row) [])
            || negb (str_eqb (phoneField E _ row) [])) eqn:G; [|discriminate].
  injection X as <-. cbn [callerNumber calledNumber location rawLocation
                           duration imei].
  repeat split; try apply phoneField_digits; try apply textField_trimmed.
  apply orb_true_iff in G as [G|G]; apply negb_true_iff, str_eqb_neq in G; auto.
Qed.

Lemma extracted_record_well_formed_witness :
  In (sampleExtracted 1710493200000%Z "00:01:30")
     (parseListingSheet sampleExternals
        [sampleRow "15/03/2024 09:00:00" " 00:01:30 "])
  /\ (js "699111222" <> [] \/ js "655333444" <> [])
  /\ Forall (fun c => isDigit c = true) (js "699111222")
  /\ Forall (fun c => isDigit c = true) (js "655333444")
  /\ Some sampleLocation
     = parseLocationString
         (js "Bastos (Cell: A1 Long: 11.5 Lat: 3.9 Azimut: 45)")
  /\ trim (js "00:01:30") = js "00:01:30"
  /\ trim [] = []
  /\ trim (js "Bastos (Cell: A1 Long: 11.5 Lat: 3.9 Azimut: 45)")
     = js "Bastos (Cell: A1 Long: 11.5 Lat: 3.9 Azimut: 45)".
Proof.
  assert (H : In (sampleExtracted 1710493200000%Z "00:01:30")
                (parseListingSheet sampleExternals
                   [sampleRow "15/03/2024 09:00:00" " 00:01:30 "])).
  { vm_compute. left. reflexivity. }
  split; [exact H|].
  exact (@extracted_record_well_formed sampleExternals _ _ H).
Defined.

Lemma extractRows_length (E : Externals) (cols : Columns) (i : nat)
    (data : list Row) :
  List.length (extractRows E cols i data) <= List.length data.
Proof.
  revert i. induction data as [|row data IH]; intros i; simpl; [lia|].
  destruct (extractRow E cols i row); simpl; specialize (IH (S i)); lia.
Qed.

Lemma extractRows_no_number_column (E : Externals) (cols : Columns) (i : nat)
    (data : list Row) :
  callerNumberCol cols = None -> calledNumberCol cols = None ->
  extractRows E cols i data = [].
Proof.
  intros H1 H2. revert i. induction data as [|row data IH]; intros i; simpl;
    [reflexivity|].
  unfold extractRow. rewrite H1, H2. simpl. apply IH.
Qed.

(** X8. A sheet yields at most one record per row, none when it has no row,
    and none when no header is classified as a caller or a called number
    column. *)
Theorem extraction_bounds (E : Externals) (data : list Row) :
  List.length (parseListingSheet E data) <= List.length data
  /\ parseListingSheet E [] = []
  /\ (callerNumberCol (identifyColumns (map fst (hd [] data))) = None ->
      calledNumberCol (identifyColumns (map fst (hd [] data))) = None ->
      parseListingSheet E data = []).
Proof.
  repeat split.
  - destruct data as [|first data]; [simpl; lia|]. apply extractRows_length.
  - intros H1 H2. destruct data as [|first data]; [reflexivity|].
    now apply extractRows_no_number_column.
Qed.

Lemma extraction_bounds_witness :
  parseListingSheet sampleExternals
    [[(js "Date", VStr (js "15/03/2024 09:00:00"));
      (js "Duree", VStr (js "00:01:30"));
      (js "Numero IMEI", VStr (js "699111222"))]] = [].
Proof.
  apply (proj2 (proj2 (extraction_bounds sampleExternals _))); reflexivity.
Defined.

(** *** Identifiers *)

From Stdlib Require DecimalNat DecimalFacts.

Lemma string_of_uint_digits (d : Decimal.uint) :
  Forall (fun c => isDigit c = true) (js (NilEmpty.string_of_uint d)).
Proof.
  induction d; simpl; constructor; (reflexivity || assumption).
Qed.

Lemma natToString_digits (n : nat) :
  Forall (fun c => isDigit c = true) (natToString n).
Proof.
  unfold natToString, NilZero.string_of_uint.
  destruct (Nat.to_uint n); try apply string_of_uint_digits.
  repeat constructor.
Qed.

Lemma natToString_inj (n m : nat) : natToString n = natToString m -> n = m.
Proof.
  unfold natToString, js. intros H.
  apply (f_equal string_of_list_ascii) in H.
  rewrite !string_of_list_ascii_of_string in H.
  apply (f_equal NilZero.uint_of_string) in H.
  assert (N : forall k, Nat.to_uint k <> Decimal.Nil).
  { intros k. rewrite <- (DecimalNat.Unsigned.of_to k) at 1.
    rewrite DecimalNat.Unsigned.to_of. apply DecimalFacts.unorm_nonnil. }
  rewrite !NilZero.usu in H by apply N.
  injection H as H. now apply DecimalNat.Unsigned.to_uint_inj.
Qed.

(** Two strings cut at the first occurrence of a separator neither holds
    before the cut are cut at the same place. *)
Lemma cut_unique {A : Type} (x : A) (u v a b : list A) :
  ~ In x u -> ~ In x v -> u ++ x :: a = v ++ x :: b -> u = v.
Proof.
  revert v. induction u as [|y u IH]; intros v Hu Hv H.
  - destruct v as [|z v]; [reflexivity|]. injection H as -> _.
    exfalso. apply Hv. now left.
  - destruct v as [|z v].
    + injection H as -> _. exfalso. apply Hu. now left.
    + injection H as -> H. f_equal. apply IH; [| |assumption].
      * intros I. apply Hu. now right.
      * intros I. apply Hv. now right.
Qed.

Lemma digits_no_dash (s : str) :
  Forall (fun c => isDigit c = true) s -> ~ In "-"%char s.
Proof.
  intros H I. rewrite Forall_forall in H. apply H in I. discriminate I.
Qed.

Lemma extractRow_id (E : Externals) (cols : Columns) (i : nat) (row : Row)
    (r : CallRecord) :
  extractRow E cols i row = Some r ->
  id r = js "record-" ++ natToString i ++ js "-" ++ idSuffix E i.
Proof.
  unfold extractRow. destruct (negb _ || negb _); [|discriminate].
  now intros [= <-].
Qed.

Lemma record_id_index (i j : nat) (a b : str) :
  js "record-" ++ natToString i ++ js "-" ++ a
  = js "record-" ++ natToString j ++ js "-" ++ b ->
  i = j.
Proof.
  intros H. apply app_inv_head in H. apply natToString_inj.
  apply (@cut_unique _ "-"%char _ _ a b);
    [apply digits_no_dash, natToString_digits
    |apply digits_no_dash, natToString_digits|exact H].
Qed.

Lemma extractRows_ids (E : Externals) (cols : Columns) (data : list Row)
    (i : nat) :
  NoDup (map id (extractRows E cols i data)).
Proof.
  revert i. induction data as [|row data IH]; intros i; simpl; [constructor|].
  destruct (extractRow E cols i row) as [r|] eqn:X; [|apply IH].
  simpl. constructor; [|apply IH].
  intros I. apply in_map_iff in I as (r' & Hid & I).
  apply extractRows_In in I as (j & row' & _ & X').
  apply extractRow_id in X, X'. rewrite X, X' in Hid.
  apply record_id_index in Hid. lia.
Qed.

(** X9. The identifiers of the records of one sheet are pairwise distinct,
    whatever the clock and the random source return: the row index in the
    identifier tells them apart. *)
Theorem extracted_ids_distinct (E : Externals) (data : list Row) :
  NoDup (map id (parseListingSheet E data)).
Proof.
  destruct data as [|first data]; [constructor|]. apply extractRows_ids.
Qed.

(** ** The Subscriber Extractor *)

Lemma subscriberStep_number (E : Externals) (s : SubscriberInfo)
    (kv : str * value) :
  Forall (fun c => isDigit c = true) (sub_number s) ->
  Forall (fun c => isDigit c = true) (sub_number (subscriberStep E s kv)).
Proof.
  intros H. unfold subscriberStep.
  repeat match goal with
         | |- context [if ?b then _ else _] => destruct b
         end; cbn [sub_number];
    assumption || apply normalizePhoneNumber_digits.
Qed.

(** X10. Every subscriber the extractor emits has a non-empty number made of
    digits, and a sheet yields at most one subscriber per row. *)
Theorem subscribers_well_formed (E : Externals) (data : list Row) :
  List.length (parseSubscribersSheet E data) <= List.length data
  /\ (forall s, In s (parseSubscribersSheet E data) ->
                sub_number s <> []
                /\ Forall (fun c => isDigit c = true) (sub_number s)).
Proof.
  unfold parseSubscribersSheet. split.
  - induction data as [|row data IH]; simpl; [lia|].
    rewrite length_app.
    destruct (negb (str_eqb (sub_number (fold_left _ row _)) [])); simpl; lia.
  - intros s H. apply in_flat_map in H as (row & _ & H).
    destruct (negb (str_eqb (sub_number (fold_left (subscriberStep E) row _)) []))
      eqn:G; [|destruct H].
    destruct H as [<-|[]]. split.
    + now apply negb_true_iff, str_eqb_neq in G.
    + clear G. generalize (Forall_nil (fun c => isDigit c = true)).
      change (@nil ascii) with
        (sub_number {| sub_number := []; fullName := []; birthDate := None;
                       cniNumber := None; cniExpiration := None;
                       address := None |}) at 1.
      generalize {| sub_number := []; fullName := []; birthDate := None;
                    cniNumber := None; cniExpiration := None; address := None |}.
      induction row as [|kv row IH]; intros s0 H0; simpl; [assumption|].
      apply IH. now apply subscriberStep_number.
Qed.

Lemma subscribers_well_formed_witness :
  In {| sub_number := js "699111222"; fullName := js "Awa Ngono";
        birthDate := None; cniNumber := Some []; cniExpiration := None;
        address := None |}
     (parseSubscribersSheet sampleExternals
        [[(js "Numero", VStr (js "237 699 111 222"));
          (js "Nom et Prenom", VStr (js " Awa Ngono "));
          (js "Numero CNI", VStr [])];
         [(js "Numero", VStr (js "--"));
          (js "Nom et Prenom", VStr (js "Sans numero"))]])
  /\ js "699111222" <> []
  /\ Forall (fun c => isDigit c = true) (js "699111222").
Proof.
  assert (H : In {| sub_number := js "699111222"; fullName := js "Awa Ngono";
                    birthDate := None; cniNumber := Some [];
                    cniExpiration := None; address := None |}
                (parseSubscribersSheet sampleExternals
                   [[(js "Numero", VStr (js "237 699 111 222"));
                     (js "Nom et Prenom", VStr (js " Awa Ngono "));
                     (js "Numero CNI", VStr [])];
                    [(js "Numero", VStr (js "--"));
                     (js "Nom et Prenom", VStr (js "Sans numero"))]])).
  { vm_compute. left. reflexivity. }
  split; [exact H|].
  exact (proj2 (subscribers_well_formed sampleExternals _) _ H).
Defined.

(** ** The Location-String Decoder: what a decoded location looks like *)

Lemma Qltb_false (a b : Q) : Qltb a b = false -> (b <= a)%Q.
Proof.
  unfold Qltb. intros H. apply negb_false_iff in H. now apply Qle_bool_iff.
Qed.

(** X11. Every location the decoder returns has a longitude in [-180, 180] and
    a latitude in [-90, 90], a site name that is not empty and carries no
    white space at either end, and an azimuth that is not empty. *)
Theorem decoded_location_valid (s : str) (loc : LocationData) :
  parseLocationString s = Some loc ->
  (-180 <= longitude loc)%Q /\ (longitude loc <= 180)%Q
  /\ (-90 <= latitude loc)%Q /\ (latitude loc <= 90)%Q
  /\ siteName loc <> [] /\ trim (siteName loc) = siteName loc
  /\ azimuth loc <> [].
Proof.
  unfold parseLocationString.
  destruct (_ || _ || _ || _); [discriminate|].
  destruct (search LOCATION_REGEX s) as [[|m1 [|m2 [|m3 caps]]]|];
    try discriminate.
  destruct (isNaN (parseFloat m1) || isNaN (parseFloat m2)); [discriminate|].
  destruct (lessThan _ _ || _ || _ || _) eqn:R; [discriminate|].
  destruct (parseFloat m1) as [| |lon]; try discriminate.
  destruct (parseFloat m2) as [| |lat]; try discriminate.
  cbn [lessThan] in R.
  apply orb_false_iff in R as [R R4]. apply orb_false_iff in R as [R R3].
  apply orb_false_iff in R as [R1 R2].
  apply Qltb_false in R1, R2, R3, R4.
  intros [= <-]. cbn [longitude latitude siteName azimuth]. cbv zeta.
  repeat split; try assumption.
  - match goal with
    | |- (if str_eqb ?x [] then _ else _) <> [] =>
        destruct (str_eqb x []) eqn:X; [discriminate|now apply str_eqb_neq in X]
    end.
  - match goal with
    | |- trim (if str_eqb ?x [] then _ else _) = _ =>
        destruct (str_eqb x []) eqn:X; [reflexivity|]
    end.
    destruct (_ || _); apply trim_idem.
  - destruct (search AZIMUT_REGEX s) as [[|a [|a' caps]]|]; try discriminate.
    destruct (str_eqb a []) eqn:X; [discriminate|].
    now apply str_eqb_neq in X.
Qed.

Lemma decoded_location_valid_witness :
  parseLocationString (js "Long: 11.5 Lat: 3.75 Azimut: )")
  = Some {| siteName := js "Site inconnu"; cellId := [];
            longitude := (23 # 2)%Q; latitude := (15 # 4)%Q;
            azimuth := js "-" |}
  /\ (-180 <= 23 # 2)%Q /\ (23 # 2 <= 180)%Q
  /\ (-90 <= 15 # 4)%Q /\ (15 # 4 <= 90)%Q
  /\ js "Site inconnu" <> []
  /\ trim (js "Site inconnu") = js "Site inconnu"
  /\ js "-" <> [].
Proof.
  assert (H : parseLocationString (js "Long: 11.5 Lat: 3.75 Azimut: )")
              = Some {| siteName := js "Site inconnu"; cellId := [];
                        longitude := (23 # 2)%Q; latitude := (15 # 4)%Q;
                        azimuth := js "-" |})
    by (vm_compute; reflexivity).
  split; [exact H|].
  exact (@decoded_location_valid _ _ H).
Defined.

Lemma beforeFirst_cons (sep : str) (c : ascii) (s : str) :
  beforeFirst sep (c :: s)
  = if startsWith (c :: s) sep then [] else c :: beforeFirst sep s.
Proof. reflexivity. Qed.

Lemma startsWith_one (x c : ascii) (s : str) :
  startsWith (c :: s) [x] = Ascii.eqb x c.
Proof.
  change (startsWith (c :: s) [x]) with (Ascii.eqb x c && startsWith s []).
  destruct s; apply andb_true_r.
Qed.

Lemma beforeFirst_paren (name rest : str) :
  ~ In "("%char name -> beforeFirst (js "(") (name ++ js "(" ++ rest) = name.
Proof.
  change (js "(") with ["("%char].
  induction name as [|c name IH]; intros H.
  - change ([] ++ ["("%char] ++ rest) with ("("%char :: rest).
    now rewrite beforeFirst_cons, startsWith_one.
  - change ((c :: name) ++ ["("%char] ++ rest)
      with (c :: name ++ ["("%char] ++ rest).
    rewrite beforeFirst_cons, startsWith_one.
    destruct (Ascii.eqb "("%char c) eqn:X.
    + apply Ascii.eqb_eq in X. exfalso. apply H. now left.
    + f_equal. apply IH. intros I. apply H. now right.
Qed.

(** X12. When the text before the first parenthesis is not blank and does not
    itself hold "long:", the site name of the decoded location is that
    text, trimmed. *)
Theorem decoded_site_name (name rest : str) (loc : LocationData) :
  ~ In "("%char name ->
  trim name <> [] ->
  includes (toLowerCase (trim name)) (js "long:") = false ->
  parseLocationString (name ++ js "(" ++ rest) = Some loc ->
  siteName loc = trim name.
Proof.
  intros Hp Hn Hl. unfold parseLocationString.
  destruct (_ || _ || _ || _); [discriminate|].
  destruct (search LOCATION_REGEX _) as [[|m1 [|m2 [|m3 caps]]]|];
    try discriminate.
  destruct (isNaN (parseFloat m1) || isNaN (parseFloat m2)); [discriminate|].
  destruct (_ || _ || _ || _); [discriminate|].
  destruct (parseFloat m1) as [| |lon]; try discriminate.
  destruct (parseFloat m2) as [| |lat]; try discriminate.
  intros [= <-]. cbn [siteName]. cbv zeta.
  pose proof (@beforeFirst_paren name rest Hp) as B.
  cbn [js list_ascii_of_string app] in B, Hl. rewrite B, Hl.
  apply str_eqb_neq in Hn. rewrite Hn. cbn [orb]. now rewrite Hn.
Qed.

Lemma decoded_site_name_witness :
  ~ In "("%char (js " Mvog-Ada 2 ")
  /\ trim (js " Mvog-Ada 2 ") <> []
  /\ includes (toLowerCase (trim (js " Mvog-Ada 2 "))) (js "long:") = false
  /\ parseLocationString (js " Mvog-Ada 2 (Cell: 77 Long: 11.5 Lat: 3.75)")
     = Some {| siteName := js "Mvog-Ada 2"; cellId := js "77";
               longitude := (23 # 2)%Q; latitude := (15 # 4)%Q;
               azimuth := js "-" |}
  /\ js "Mvog-Ada 2" = trim (js " Mvog-Ada 2 ").
Proof.
  assert (H1 : ~ In "("%char (js " Mvog-Ada 2 ")).
  { simpl. intros H. repeat (destruct H as [H|H]; [discriminate H|]).
    exact H. }
  assert (H2 : trim (js " Mvog-Ada 2 ") <> []) by discriminate.
  assert (H3 : includes (toLowerCase (trim (js " Mvog-Ada 2 "))) (js "long:")
               = false) by reflexivity.
  assert (H4 : parseLocationString
                 (js " Mvog-Ada 2 " ++ js "("
                  ++ js "Cell: 77 Long: 11.5 Lat: 3.75)")
               = Some {| siteName := js "Mvog-Ada 2"; cellId := js "77";
                         longitude := (23 # 2)%Q;
                         latitude := (15 # 4)%Q; azimuth := js "-" |})
    by (vm_compute; reflexivity).
  split; [exact H1|]. split; [exact H2|]. split; [exact H3|].
  split; [exact H4|].
  exact (@decoded_site_name _ _ _ H1 H2 H3 H4).
Defined.

(** ** Normalization of names and of phone numbers *)

Lemma normalizeChar_facts (c : ascii) :
  stripMark (lowerChar (stripMark (lowerChar c))) = stripMark (lowerChar c)
  /\ stripMark (lowerChar (lowerChar c)) = stripMark (lowerChar c)
  /\ stripMark (lowerChar (stripMark c)) = stripMark (lowerChar c).
Proof. each_char c; repeat split; reflexivity. Qed.

(** X13. Names are compared up to case and accents: normalizing a name that
    was lower-cased, or stripped of its accents, or already normalized,
    gives the normal form of the name; the normal form has the length of
    the name. *)
Theorem normalizeString_insensitive (s : str) :
  normalizeString (normalizeString s) = normalizeString s
  /\ normalizeString (toLowerCase s) = normalizeString s
  /\ normalizeString (map stripMark s) = normalizeString s
  /\ List.length (normalizeString s) = List.length s.
Proof.
  unfold normalizeString, toLowerCase. rewrite !map_map, !length_map.
  repeat split; apply map_ext; intros c; apply normalizeChar_facts.
Qed.

Lemma trimStart_pad (pad s : str) :
  Forall (fun c => isWhiteSpace c = true) pad ->
  trimStart (pad ++ s) = trimStart s.
Proof.
  induction 1 as [|c pad Hc _ IH]; simpl; [reflexivity|]. now rewrite Hc.
Qed.

Lemma trimEnd_pad (s pad : str) :
  Forall (fun c => isWhiteSpace c = true) pad ->
  trimEnd (s ++ pad) = trimEnd s.
Proof.
  intros H. unfold trimEnd. rewrite rev_app_distr, trimStart_pad;
    [reflexivity|]. now apply Forall_rev.
Qed.

Lemma trim_pad (pad s pad' : str) :
  Forall (fun c => isWhiteSpace c = true) pad ->
  Forall (fun c => isWhiteSpace c = true) pad' ->
  trim (pad ++ s ++ pad') = trim s.
Proof.
  intros H H'. unfold trim. rewrite trimStart_pad by assumption.
  induction s as [|c s IH]; simpl.
  - rewrite <- (app_nil_r pad'), trimStart_pad by assumption. reflexivity.
  - destruct (isWhiteSpace c); [exact IH|].
    now apply (trimEnd_pad (c :: s)).
Qed.

(** X14. White space around a phone number does not change its normal form,
    and a string of digits that follows the prefix 237 is returned as it
    is. *)
Theorem normalizePhoneNumber_padding_and_prefix (E : Externals)
    (pad pad' : str) :
  Forall (fun c => isWhiteSpace c = true) pad ->
  Forall (fun c => isWhiteSpace c = true) pad' ->
  (forall x, normalizePhoneNumber E (VStr (pad ++ x ++ pad'))
             = normalizePhoneNumber E (VStr x))
  /\ (forall d, Forall (fun c => isDigit c = true) d ->
                normalizePhoneNumber E (VStr (pad ++ js "237" ++ d ++ pad')) = d).
Proof.
  intros H H'.
  assert (P : forall x, normalizePhoneNumber E (VStr (pad ++ x ++ pad'))
                        = normalizePhoneNumber E (VStr x)).
  { intros x. unfold normalizePhoneNumber, truthy, String_.
    rewrite (trim_pad x H H').
    destruct (str_eqb x []) eqn:X.
    - apply str_eqb_eq in X. subst x.
      now destruct (negb (negb (str_eqb (pad ++ [] ++ pad') []))).
    - destruct (str_eqb (pad ++ x ++ pad') []) eqn:Y; [|reflexivity].
      apply str_eqb_eq in Y. apply str_eqb_neq in X.
      apply app_eq_nil in Y as [_ Y]. apply app_eq_nil in Y as [Y _].
      congruence. }
  split; [exact P|].
  intros d Hd. rewrite (app_assoc (js "237") d pad'), P.
  assert (D : Forall (fun c => isDigit c = true) (js "237" ++ d)).
  { apply Forall_app. split; [repeat constructor|assumption]. }
  change (normalizePhoneNumber E (VStr (js "237" ++ d)))
    with (normalize E (js "237" ++ d)).
  rewrite (normalize_on_digits E D), startsWith_app. reflexivity.
Qed.

Lemma normalizePhoneNumber_padding_and_prefix_witness :
  normalizePhoneNumber sampleExternals (VStr (js "  237699123456 "))
  = js "699123456".
Proof.
  apply (proj2 (@normalizePhoneNumber_padding_and_prefix sampleExternals
                  (js "  ") (js " ")
                  ltac:(repeat constructor) ltac:(repeat constructor))
           (js "699123456")).
  repeat constructor.
Defined.

(** ** The date formats [DD/MM/YYYY HH:MM:SS] and [DD-MM-YYYY HH:MM:SS] *)

(** A class repeated exactly [n] times takes the next [n] characters. *)
Lemma exec_times (p : ascii -> bool) (n : nat) (c : bool) (r : list atom)
    (u v : str) (caps : list str) (rest : str) :
  List.length u = n ->
  Forall (fun x => p x = true) u ->
  exec r v = Some (caps, rest) ->
  exec (Atom p n (Some n) c :: r) (u ++ v)
  = Some (if c then u :: caps else caps, rest).
Proof.
  intros L Hu Hr. simpl. unfold counts. cbn [hi lo cls].
  rewrite (@run_app p u v Hu), L.
  replace (Nat.min n (n + run p v)) with n by lia.
  replace (S n - n) with 1 by lia. simpl.
  rewrite <- L, skipn_app, Nat.sub_diag, skipn_all, firstn_app, Nat.sub_diag,
    firstn_all. simpl. rewrite Hr, app_nil_r. reflexivity.
Qed.

Lemma In_skipn {A : Type} (x : A) (k : nat) (l : list A) :
  In x (skipn k l) -> In x l.
Proof.
  revert l. induction k as [|k IH]; intros l H; [exact H|].
  destruct l as [|y l]; [exact H|]. right. now apply IH.
Qed.

(** A match consumes, for every atom that must match at least once, a
    character of the class of that atom. *)
Lemma exec_needs_char (r : list atom) (s : str) (res : list str * str)
    (a : atom) :
  exec r s = Some res -> In a r -> 1 <= lo a ->
  exists c, In c s /\ cls a c = true.
Proof.
  revert s res. induction r as [|a0 r IH]; intros s res H Ha Hlo; [destruct Ha|].
  simpl in H. apply firstSome_Some in H as (k & Hk & H).
  destruct (exec r (skipn k s)) as [[caps rest]|] eqn:X; [|discriminate].
  destruct Ha as [->|Ha].
  - unfold counts in Hk. apply in_rev, in_seq in Hk.
    assert (R : 1 <= run (cls a) s) by (destruct (hi a); lia).
    destruct s as [|c s]; [simpl in R; lia|]. simpl in R.
    destruct (cls a c) eqn:C; [|lia]. exists c. split; [now left|assumption].
  - destruct (IH (skipn k s) (caps, rest) X Ha Hlo) as (c & Hc & C). exists c.
    split; [now apply In_skipn in Hc|assumption].
Qed.

Lemma search_needs_char (r : list atom) (s : str) (caps : list str) (a : atom) :
  search r s = Some caps -> In a r -> 1 <= lo a ->
  exists c, In c s /\ cls a c = true.
Proof.
  intros H Ha Hlo. induction s as [|c s IH]; simpl in H.
  - destruct (exec r []) as [res|] eqn:X; [|discriminate].
    exact (@exec_needs_char r [] res a X Ha Hlo).
  - destruct (exec r (c :: s)) as [res|] eqn:X.
    + exact (@exec_needs_char r (c :: s) res a X Ha Hlo).
    + destruct (IH H) as (c' & Hc & C). exists c'. split; [now right|assumption].
Qed.

(** A string of [n] digits. *)
Definition digitsOf (n : nat) (s : str) : Prop :=
  List.length s = n /\ Forall (fun c => isDigit c = true) s.

(** The text [DD x MM x YYYY HH:MM:SS] for a separator [x]. *)
Definition dateText (x : ascii) (dd mm yyyy hh mi ss : str) : str :=
  dd ++ [x] ++ mm ++ [x] ++ yyyy ++ js " " ++ hh ++ js ":" ++ mi ++ js ":" ++ ss.

Lemma search_dateText (x : ascii) (dd mm yyyy hh mi ss : str) :
  digitsOf 2 dd -> digitsOf 2 mm -> digitsOf 4 yyyy ->
  digitsOf 2 hh -> digitsOf 2 mi -> digitsOf 2 ss ->
  search (dateRegex (String x EmptyString)) (dateText x dd mm yyyy hh mi ss)
  = Some [dd; mm; yyyy; hh; mi; ss].
Proof.
  intros [L1 D1] [L2 D2] [L3 D3] [L4 D4] [L5 D5] [L6 D6].
  apply search_here with (rest := []).
  unfold dateRegex, dateText, chars, group, times, plus.
  cbn [js list_ascii_of_string map app cls lo hi].
  assert (E6 : exec [Atom isDigit 2 (Some 2) true] ss = Some ([ss], [])).
  { rewrite <- (app_nil_r ss) at 1.
    now apply (@exec_times isDigit 2 true [] ss [] [] []). }
  apply (@exec_times isDigit 2 true _ dd _ [mm; yyyy; hh; mi; ss] []);
    [assumption|assumption|].
  rewrite exec_one by apply Ascii.eqb_refl.
  apply (@exec_times isDigit 2 true _ mm _ [yyyy; hh; mi; ss] []);
    [assumption|assumption|].
  rewrite exec_one by apply Ascii.eqb_refl.
  apply (@exec_times isDigit 4 true _ yyyy _ [hh; mi; ss] []);
    [assumption|assumption|].
  apply (@exec_greedy_app (Atom isWhiteSpace 1 None false) _ (js " ") _
           [hh; mi; ss] []);
    [reflexivity|repeat constructor| |simpl; lia|].
  { destruct hh as [|c hh]; [discriminate L4|]. simpl.
    inversion D4 as [|? ? Hc _]; subst. now rewrite (digit_not_space _ Hc). }
  apply (@exec_times isDigit 2 true _ hh _ [mi; ss] []);
    [assumption|assumption|].
  rewrite exec_one by reflexivity.
  apply (@exec_times isDigit 2 true _ mi _ [ss] []);
    [assumption|assumption|].
  rewrite exec_one by reflexivity. exact E6.
Qed.

Lemma dateText_no_slash (dd mm yyyy hh mi ss : str) (c : ascii) :
  digitsOf 2 dd -> digitsOf 2 mm -> digitsOf 4 yyyy ->
  digitsOf 2 hh -> digitsOf 2 mi -> digitsOf 2 ss ->
  In c (dateText "-" dd mm yyyy hh mi ss) -> Ascii.eqb "/"%char c = false.
Proof.
  intros [_ D1] [_ D2] [_ D3] [_ D4] [_ D5] [_ D6] H.
  assert (D : forall s, Forall (fun c => isDigit c = true) s ->
                        In c s -> Ascii.eqb "/"%char c = false).
  { intros s Hs I. rewrite Forall_forall in Hs. apply Hs in I.
    destruct (Ascii.eqb "/"%char c) eqn:X; [|reflexivity].
    apply Ascii.eqb_eq in X. subst c. discriminate I. }
  unfold dateText in H.
  repeat (apply in_app_or in H as [H|H]; [eauto|]);
    try (destruct H as [<-|[]]; reflexivity).
  eauto.
Qed.

(** X15. Both day-first formats are read field by field: day, month, year,
    hour, minute and second go to the calendar constructor as numbers,
    the month lowered by one, whatever the separator. *)
Theorem parseExcelDate_day_first (E : Externals) (dd mm yyyy hh mi ss : str) :
  digitsOf 2 dd -> digitsOf 2 mm -> digitsOf 4 yyyy ->
  digitsOf 2 hh -> digitsOf 2 mi -> digitsOf 2 ss ->
  parseExcelDate E (VStr (dateText "/" dd mm yyyy hh mi ss))
  = Some (localDate E (parseInt yyyy) (parseInt mm - 1) (parseInt dd)
            (parseInt hh) (parseInt mi) (parseInt ss))
  /\ parseExcelDate E (VStr (dateText "-" dd mm yyyy hh mi ss))
     = parseExcelDate E (VStr (dateText "/" dd mm yyyy hh mi ss)).
Proof.
  intros H1 H2 H3 H4 H5 H6.
  assert (T : forall x, truthy (VStr (dateText x dd mm yyyy hh mi ss)) = true).
  { intros x. destruct H1 as [L _]. unfold dateText.
    destruct dd; [discriminate L|reflexivity]. }
  assert (S1 : parseExcelDate E (VStr (dateText "/" dd mm yyyy hh mi ss))
               = Some (localDate E (parseInt yyyy) (parseInt mm - 1)
                         (parseInt dd) (parseInt hh) (parseInt mi)
                         (parseInt ss))).
  { unfold parseExcelDate. rewrite T. cbn [negb].
    now rewrite (search_dateText "/" H1 H2 H3 H4 H5 H6). }
  split; [exact S1|]. rewrite S1.
  unfold parseExcelDate. rewrite T. cbn [negb].
  destruct (search (dateRegex "/") (dateText "-" dd mm yyyy hh mi ss))
    as [caps|] eqn:X.
  - exfalso.
    destruct (@search_needs_char _ _ _ (one (Ascii.eqb "/"%char)) X)
      as (c & Hc & C); [right; left; reflexivity|simpl; lia|].
    cbn [one cls] in C.
    rewrite (@dateText_no_slash dd mm yyyy hh mi ss c H1 H2 H3 H4 H5 H6 Hc) in C.
    discriminate.
  - now rewrite (search_dateText "-" H1 H2 H3 H4 H5 H6).
Qed.

Lemma parseExcelDate_day_first_witness :
  parseExcelDate sampleExternals (VStr (js "31/12/1999 23:59:58"))
  = Some (localDate sampleExternals 1999 11 31 23 59 58)
  /\ parseExcelDate sampleExternals (VStr (js "31-12-1999 23:59:58"))
     = parseExcelDate sampleExternals (VStr (js "31/12/1999 23:59:58")).
Proof.
  apply (@parseExcelDate_day_first sampleExternals (js "31") (js "12")
           (js "1999") (js "23") (js "59") (js "58"));
    (split; [reflexivity|repeat constructor]).
Defined.

(** ** The Sheet Classifier *)

Lemma findListingSheets_calls (sheetNames : list str) :
  calls (findListingSheets sheetNames)
  = match findLast isCallsName sheetNames with
    | Some n => Some n
    | None => find isFallbackName sheetNames
    end.
Proof.
  induction sheetNames as [|x l IH] using rev_ind; [reflexivity|].
  rewrite findListingSheets_snoc, findLast_snoc, find_append.
  unfold listingStep. cbn [calls].
  fold (isCallsName x) (isFallbackName x).
  pose proof (find_isSet isCallsName (rev l) isCallsName_nonempty) as S1.
  pose proof (find_isSet isFallbackName l isFallbackName_nonempty) as S2.
  destruct (isCallsName x) eqn:Cx.
  - apply isCallsName_nonempty, str_eqb_neq in Cx. simpl. rewrite Cx.
    now rewrite andb_false_r.
  - rewrite IH. unfold findLast in *.
    destruct (find isCallsName (rev l)) as [n|]; [now rewrite S1, andb_false_r|].
    destruct (find isFallbackName l) as [n|]; [now rewrite S2, andb_false_r|].
    simpl. rewrite andb_true_r. now destruct (isFallbackName x).
Qed.

Lemma find_none_iff {A : Type} (p : A -> bool) (l : list A) :
  find p l = None <-> Forall (fun x => p x = false) l.
Proof.
  induction l as [|x l IH]; simpl; [split; [constructor|reflexivity]|].
  destruct (p x) eqn:P; split.
  - discriminate.
  - intros H. inversion H. congruence.
  - intros H. constructor; [assumption|now apply IH].
  - intros H. inversion H. now apply IH.
Qed.

Lemma findLast_none_iff {A : Type} (p : A -> bool) (l : list A) :
  findLast p l = None <-> Forall (fun x => p x = false) l.
Proof.
  unfold findLast. rewrite find_none_iff. split; intros H.
  - rewrite <- (rev_involutive l). now apply Forall_rev.
  - now apply Forall_rev.
Qed.

Lemma findLast_some {A : Type} (p : A -> bool) (l : list A) (x : A) :
  findLast p l = Some x -> In x l /\ p x = true.
Proof.
  unfold findLast. intros H. apply find_some in H as [H1 H2].
  split; [now apply in_rev|assumption].
Qed.

Lemma detectFileType_NUMERO (sheetNames : list str) :
  detectFileType sheetNames = NUMERO
  <-> ~ Forall (fun n => isCallsName n = false) sheetNames
      \/ ~ Forall (fun n => isSmsName n = false) sheetNames.
Proof.
  unfold detectFileType.
  set (f := fun n => includes n (js "listing appel")
                     || includes n (js "listing sms")).
  destruct (existsb f (map normalizeString sheetNames)) eqn:X.
  - split; [intros _|reflexivity].
    apply existsb_exists in X as (n & Hn & F).
    apply in_map_iff in Hn as (x & <- & Hx). subst f. cbv beta in F.
    apply orb_true_iff in F as [F|F]; [left|right]; intros A;
      rewrite Forall_forall in A; apply A in Hx;
      unfold isCallsName, isSmsName in Hx; congruence.
  - split.
    + intros D.
      destruct (existsb (fun n => includes n (js "imei partage")) _);
        discriminate D.
    + intros H. exfalso.
      assert (N : forall x, In x sheetNames ->
                            isCallsName x = false /\ isSmsName x = false).
      { intros x Hx.
        assert (F : f (normalizeString x) = false).
        { destruct (f (normalizeString x)) eqn:F; [|reflexivity].
          assert (T : existsb f (map normalizeString sheetNames) = true).
          { apply existsb_exists. exists (normalizeString x).
            split; [now apply in_map|assumption]. }
          congruence. }
        subst f. cbv beta in F. now apply orb_false_iff in F. }
      destruct H as [H|H]; apply H, Forall_forall; intros x Hx;
        now apply N in Hx.
Qed.

(** X16. The file type and the listing sheets agree: a file with an SMS sheet
    is of type NUMERO; a file of type NUMERO has a calls sheet or an SMS
    sheet; in a file of another type there is no SMS sheet and the calls
    sheet, if any, is the first sheet named exactly "listing". *)
Theorem fileType_agrees_with_listing_sheets (sheetNames : list str) :
  (sms (findListingSheets sheetNames) <> None ->
   detectFileType sheetNames = NUMERO)
  /\ (detectFileType sheetNames = NUMERO ->
      calls (findListingSheets sheetNames) <> None
      \/ sms (findListingSheets sheetNames) <> None)
  /\ (detectFileType sheetNames <> NUMERO ->
      sms (findListingSheets sheetNames) = None
      /\ calls (findListingSheets sheetNames) = find isFallbackName sheetNames).
Proof.
  rewrite findListingSheets_sms, findListingSheets_calls.
  pose proof (findLast_none_iff isCallsName sheetNames) as NC.
  pose proof (findLast_none_iff isSmsName sheetNames) as NS.
  repeat split.
  - intros H. apply detectFileType_NUMERO. right. intros A. apply H.
    now apply NS.
  - intros H. apply detectFileType_NUMERO in H as [H|H]; [left|right].
    + destruct (findLast isCallsName sheetNames) eqn:F; [discriminate|].
      exfalso. apply H. now apply NC.
    + intros F. apply H. now apply NS.
  - destruct (findLast isSmsName sheetNames) eqn:F; [|reflexivity].
    exfalso. apply H. apply detectFileType_NUMERO. right. intros A.
    apply NS in A. congruence.
  - destruct (findLast isCallsName sheetNames) eqn:F; [|reflexivity].
    exfalso. apply H. apply detectFileType_NUMERO. left. intros A.
    apply NC in A. congruence.
Qed.

Lemma fileType_agrees_with_listing_sheets_witness :
  detectFileType [js "Identification"; js "IMEI partage"; js "Listing"] = IMEI
  /\ sms (findListingSheets
            [js "Identification"; js "IMEI partage"; js "Listing"]) = None
  /\ calls (findListingSheets
              [js "Identification"; js "IMEI partage"; js "Listing"])
     = find isFallbackName
         [js "Identification"; js "IMEI partage"; js "Listing"].
Proof.
  assert (H : detectFileType
                [js "Identification"; js "IMEI partage"; js "Listing"] = IMEI)
    by reflexivity.
  split; [exact H|].
  apply (proj2 (proj2 (fileType_agrees_with_listing_sheets _))).
  rewrite H. discriminate.
Defined.

(** X17. The sheets the classifier selects are sheets of the workbook, with
    the names they were selected for. *)
Theorem selected_sheets_exist (sheetNames : list str) :
  (forall c, calls (findListingSheets sheetNames) = Some c ->
             In c sheetNames /\ (isCallsName c = true \/ isFallbackName c = true))
  /\ (forall s, sms (findListingSheets sheetNames) = Some s ->
                In s sheetNames /\ isSmsName s = true)
  /\ (forall s, findSubscribersSheet sheetNames = Some s ->
                In s sheetNames
                /\ includes (normalizeString s) (js "identification") = true).
Proof.
  rewrite findListingSheets_sms, findListingSheets_calls. repeat apply conj.
  - intros c H. destruct (findLast isCallsName sheetNames) as [n|] eqn:F.
    + injection H as ->. apply findLast_some in F. tauto.
    + apply find_some in H. tauto.
  - intros s H. now apply findLast_some in H.
  - intros s H. unfold findSubscribersSheet in H. now apply find_some in H.
Qed.

Lemma selected_sheets_exist_witness :
  In (js "LISTING SMS") [js "Listing Appels"; js "LISTING SMS"]
  /\ isSmsName (js "LISTING SMS") = true.
Proof.
  apply (proj1 (proj2 (selected_sheets_exist
                         [js "Listing Appels"; js "LISTING SMS"]))).
  reflexivity.
Defined.

(** ** The Column Inferencer: one role per header *)

Lemma identifyColumns_closed (columns : list str) :
  identifyColumns columns
  = {| callerNumberCol := columnOf RCaller columns;
       calledNumberCol := columnOf RCalled columns;
       imeiCol := columnOf RImei columns;
       dateCol := columnOf RDate columns;
       durationCol := columnOf RDuration columns;
       locationCol := columnOf RLocation columns |}.
Proof.
  unfold identifyColumns, columnOf.
  induction columns as [|x l IH] using rev_ind; [reflexivity|].
  rewrite fold_left_app. cbn [fold_left]. rewrite IH, columnStep_classify.
  cbn [callerNumberCol calledNumberCol imeiCol dateCol durationCol locationCol].
  now rewrite !findLast_snoc.
Qed.

Definition optionToList {A : Type} (o : option A) : list A :=
  match o with
  | Some x => [x]
  | None => []
  end.

(** The headers that were given a role, in the order of the fields. *)
Definition assignedColumns (c : Columns) : list str :=
  optionToList (callerNumberCol c) ++ optionToList (calledNumberCol c)
  ++ optionToList (imeiCol c) ++ optionToList (dateCol c)
  ++ optionToList (durationCol c) ++ optionToList (locationCol c).

Lemma columnOf_classify (r : Role) (columns : list str) :
  Forall (fun c => In c columns /\ classify c = Some r)
    (optionToList (columnOf r columns)).
Proof.
  unfold columnOf. destruct (findLast (hasRole r) columns) as [c|] eqn:F;
    [|constructor].
  apply findLast_some in F as [I H]. repeat constructor; [assumption|].
  unfold hasRole in H. destruct (classify c) as [r'|]; [|discriminate].
  destruct r, r'; (reflexivity || discriminate).
Qed.

Lemma NoDup_append {A : Type} (l l' : list A) :
  NoDup l -> NoDup l' -> (forall a, In a l -> ~ In a l') -> NoDup (l ++ l').
Proof.
  induction 1 as [|x l Hx _ IH]; intros H' D; simpl; [assumption|].
  constructor.
  - intros I. apply in_app_or in I as [I|I]; [contradiction|].
    apply (D x); [now left|assumption].
  - apply IH; [assumption|]. intros a Ha. apply D. now right.
Qed.

Lemma columnsOf_roles (roles : list Role) (columns : list str) :
  NoDup roles ->
  NoDup (flat_map (fun r => optionToList (columnOf r columns)) roles)
  /\ (forall c, In c (flat_map (fun r => optionToList (columnOf r columns)) roles) ->
                In c columns /\ exists r, In r roles /\ classify c = Some r).
Proof.
  induction 1 as [|r roles Hr _ [IH1 IH2]]; simpl.
  - split; [constructor|intros c []].
  - pose proof (columnOf_classify r columns) as F. rewrite Forall_forall in F.
    split.
    + apply NoDup_append; [|assumption|].
      * destruct (columnOf r columns); repeat constructor. intros [].
      * intros a Ha I. apply F in Ha as [_ Ha].
        apply IH2 in I as (_ & r' & Hr' & C). congruence.
    + intros c I. apply in_app_or in I as [I|I].
      * apply F in I as [I C]. split; [assumption|]. exists r. auto.
      * apply IH2 in I as (I & r' & Hr' & C). split; [assumption|].
        exists r'. auto.
Qed.

(** X18. No header is given two roles: the columns the inferencer assigns are
    pairwise distinct headers of the sheet. *)
Theorem assigned_columns_distinct (columns : list str) :
  NoDup (assignedColumns (identifyColumns columns))
  /\ incl (assignedColumns (identifyColumns columns)) columns.
Proof.
  rewrite identifyColumns_closed. unfold assignedColumns.
  cbn [callerNumberCol calledNumberCol imeiCol dateCol durationCol locationCol].
  assert (N : NoDup [RCaller; RCalled; RImei; RDate; RDuration; RLocation]).
  { repeat constructor; simpl; intuition discriminate. }
  destruct (columnsOf_roles columns N) as [H1 H2].
  simpl in H1, H2. rewrite app_nil_r in H1, H2.
  split; [exact H1|]. intros c I. now apply H2 in I.
Qed.

(** ** A whole workbook *)

(** X19. A workbook without a listing sheet parses to no record and no
    aggregate, and is not of type NUMERO. *)
Theorem parse_without_listing_sheet (E : Externals) (wb : WorkBook)
    (name : str) :
  Forall (fun n => isCallsName n = false /\ isSmsName n = false
                   /\ isFallbackName n = false) (SheetNames wb) ->
  allRecords (parseExcelFile E wb name) = []
  /\ phoneNumbers (parseExcelFile E wb name) = []
  /\ fileType (parseExcelFile E wb name) <> NUMERO.
Proof.
  intros H.
  assert (HC : Forall (fun n => isCallsName n = false) (SheetNames wb))
    by (eapply Forall_impl; [|exact H]; simpl; tauto).
  assert (HS : Forall (fun n => isSmsName n = false) (SheetNames wb))
    by (eapply Forall_impl; [|exact H]; simpl; tauto).
  assert (HF : Forall (fun n => isFallbackName n = false) (SheetNames wb))
    by (eapply Forall_impl; [|exact H]; simpl; tauto).
  assert (C : calls (findListingSheets (SheetNames wb)) = None).
  { rewrite findListingSheets_calls.
    apply findLast_none_iff in HC. rewrite HC. now apply find_none_iff. }
  assert (S : sms (findListingSheets (SheetNames wb)) = None).
  { rewrite findListingSheets_sms. now apply findLast_none_iff. }
  unfold parseExcelFile. cbn [allRecords phoneNumbers fileType].
  rewrite C, S. repeat split.
  intros T. apply detectFileType_NUMERO in T as [T|T]; contradiction.
Qed.

Lemma parse_without_listing_sheet_witness :
  allRecords (parseExcelFile sampleExternals
                (sampleWorkbook "Feuil1" "15/03/2024 09:00:00" "00:01:30")
                (js "autre.xlsx")) = []
  /\ phoneNumbers (parseExcelFile sampleExternals
                     (sampleWorkbook "Feuil1" "15/03/2024 09:00:00" "00:01:30")
                     (js "autre.xlsx")) = []
  /\ fileType (parseExcelFile sampleExternals
                 (sampleWorkbook "Feuil1" "15/03/2024 09:00:00" "00:01:30")
                 (js "autre.xlsx")) <> NUMERO.
Proof.
  apply parse_without_listing_sheet. repeat constructor.
Defined.

Lemma markSms_fields (r : CallRecord) :
  callerNumber (markSms r) = callerNumber r
  /\ dateTime (markSms r) = dateTime r
  /\ duration (markSms r) <> [].
Proof.
  unfold markSms. destruct (str_eqb (duration r) []) eqn:D.
  - repeat split. discriminate.
  - repeat split. now apply str_eqb_neq in D.
Qed.

(** Every record of a parsed file comes from a row of a sheet, as
    extracted or with the SMS mark. *)
Lemma allRecords_origin (E : Externals) (wb : WorkBook) (name : str)
    (r : CallRecord) :
  In r (allRecords (parseExcelFile E wb name)) ->
  exists data r0, In r0 (parseListingSheet E data)
                  /\ callerNumber r = callerNumber r0
                  /\ dateTime r = dateTime r0.
Proof.
  unfold parseExcelFile. cbn [allRecords]. intros H.
  apply in_app_or in H as [H|H].
  - destruct (calls _) as [c|]; [|destruct H].
    destruct (isSet (Some c)); [|destruct H]. eauto.
  - destruct (sms _) as [c|]; [|destruct H].
    destruct (isSet (Some c)); [|destruct H].
    apply in_map_iff in H as (r0 & <- & H).
    destruct (markSms_fields r0) as (A & B & _). eauto.
Qed.

(** X20. In a parsed file every aggregate is keyed by a string of at least six
    digits, has a first and a last activity, and is made of records of the
    file, each with a timestamp. *)
Theorem parsed_aggregates_well_formed (E : Externals) (wb : WorkBook)
    (name k : str) (agg : PhoneNumber) :
  In (k, agg) (phoneNumbers (parseExcelFile E wb name)) ->
  Forall (fun c => isDigit c = true) k
  /\ 6 <= List.length k
  /\ firstActivity agg <> None
  /\ lastActivity agg <> None
  /\ (forall r, In r (records agg) ->
                In r (allRecords (parseExcelFile E wb name))
                /\ dateTime r <> None).
Proof.
  intros Hin.
  change (phoneNumbers (parseExcelFile E wb name))
    with (aggregateByPhoneNumber (allRecords (parseExcelFile E wb name))
            (subscribers (parseExcelFile E wb name))) in Hin.
  set (rs := allRecords (parseExcelFile E wb name)) in *.
  apply aggregate_entry in Hin as [Hne ->].
  set (p0 := newPhone _ k).
  assert (D : forall r, In r (recordsOf k rs) ->
                        In r rs /\ dateTime r <> None
                        /\ Forall (fun c => isDigit c = true) k
                        /\ 6 <= List.length k).
  { intros r I. pose proof I as I'. apply recordsOf_In in I as (I1 & I2 & I3).
    apply filter_In in I' as [_ A]. apply accepted_inv in A as (_ & _ & L).
    split; [assumption|].
    destruct (allRecords_origin E wb name r I1) as (data & r0 & O & C & T).
    rewrite T. destruct data as [|first data]; [destruct O|].
    apply extractRows_In in O as (j & row & _ & X).
    pose proof (extractRow_dateTime _ _ _ _ X) as DT.
    repeat split; [rewrite DT; discriminate| |assumption].
    rewrite <- I2, C. unfold extractRow in X.
    destruct (negb _ || negb _); [|discriminate]. injection X as <-.
    apply phoneField_digits. }
  destruct (recordsOf k rs) as [|r0 l] eqn:R; [congruence|].
  destruct (D r0 (or_introl eq_refl)) as (_ & T0 & Dk & Lk).
  destruct (addRecords_activity (r0 :: l) p0) as [A1 A2].
  cbn [sortRecords firstActivity lastActivity records].
  repeat split; try assumption.
  - intros N. apply A1 in N as [_ N]. inversion N. congruence.
  - intros N. apply A2 in N as [_ N]. inversion N. congruence.
  - apply sortBy_In in H. rewrite addRecords_records in H. simpl in H.
    now apply D in H.
  - apply sortBy_In in H. rewrite addRecords_records in H. simpl in H.
    now apply D in H.
Qed.

Lemma parsed_aggregates_well_formed_witness :
  In (js "699111222", sampleEntry 1700000000000%Z "00:01:30" 1 0)
     (phoneNumbers
        (parseExcelFile sampleExternals
           (sampleWorkbook "Listing Appel" "" "00:01:30") (js "calls.xlsx")))
  /\ Forall (fun c => isDigit c = true) (js "699111222")
  /\ 6 <= List.length (js "699111222")
  /\ Some 1700000000000%Z <> None
  /\ Some 1700000000000%Z <> None
  /\ (forall r,
        In r [sampleExtracted 1700000000000%Z "00:01:30"] ->
        In r (allRecords
                (parseExcelFile sampleExternals
                   (sampleWorkbook "Listing Appel" "" "00:01:30")
                   (js "calls.xlsx")))
        /\ dateTime r <> None).
Proof.
  assert (H : In (js "699111222", sampleEntry 1700000000000%Z "00:01:30" 1 0)
                (phoneNumbers
                   (parseExcelFile sampleExternals
                      (sampleWorkbook "Listing Appel" "" "00:01:30")
                      (js "calls.xlsx")))).
  { vm_compute. left. reflexivity. }
  split; [exact H|].
  exact (@parsed_aggregates_well_formed sampleExternals _ _ _ _ H).
Defined.
(** ** The merger: numbers, totals, locations *)

Lemma filter_hasNumber_nil (n : str) (l : list PhoneData) :
  filter (hasNumber n) l = [] <-> ~ In n (map pd_number l).
Proof.
  induction l as [|p l IH]; simpl; [tauto|]. unfold hasNumber at 1.
  destruct (str_eqb (pd_number p) n) eqn:H.
  - apply str_eqb_eq in H. split; [discriminate|tauto].
  - apply str_eqb_neq in H. rewrite IH. tauto.
Qed.

Lemma merge_has_number (n : str) (phones : list PhoneData) :
  In n (map pd_number (fold_left mergeInto phones []))
  <-> In n (map pd_number phones).
Proof.
  pose proof (find_hasNumber_None n (fold_left mergeInto phones [])) as A.
  pose proof (filter_hasNumber_nil n phones) as B.
  rewrite merge_find in A. simpl in A.
  destruct (filter (hasNumber n) phones) as [|q qs].
  - split; intros I; exfalso; [now apply (proj1 A)|now apply (proj1 B)].
  - split; intros _.
    + destruct (in_dec (list_eq_dec ascii_dec) n (map pd_number phones))
        as [J|J]; [exact J|]. apply B in J. discriminate J.
    + destruct (in_dec (list_eq_dec ascii_dec) n
                  (map pd_number (fold_left mergeInto phones [])))
        as [J|J]; [exact J|]. apply A in J. discriminate J.
Qed.

Lemma mergeInto_nonempty (all : list PhoneData) (q : PhoneData) :
  mergeInto all q <> [].
Proof.
  destruct all as [|p all]; simpl; [discriminate|].
  destruct (str_eqb (pd_number p) (pd_number q)); discriminate.
Qed.

Lemma merge_nonempty (phones all : list PhoneData) :
  fold_left mergeInto phones all = [] -> phones = [] /\ all = [].
Proof.
  revert all. induction phones as [|q phones IH]; intros all H; simpl in H;
    [now split|].
  apply IH in H as [_ H]. now apply mergeInto_nonempty in H.
Qed.

(** X21. The merged array holds one aggregate per number, and its numbers are
    the numbers of the aggregates of the successful results. *)
Theorem merged_numbers (results : list UploadResult) :
  NoDup (map pd_number (allPhoneNumbers results))
  /\ (forall n, In n (map pd_number (allPhoneNumbers results))
                <-> In n (map pd_number (visited results))).
Proof.
  rewrite allPhoneNumbers_visited. split.
  - apply merge_NoDup. constructor.
  - intros n. apply merge_has_number.
Qed.

Lemma mergeInto_total (f : PhoneData -> nat) (all : list PhoneData)
    (phone : PhoneData) :
  (forall e, f (mergePhone e phone) = f e + f phone) ->
  list_sum (map f (mergeInto all phone)) = list_sum (map f all) + f phone.
Proof.
  intros H. induction all as [|p all IH]; simpl; [lia|].
  destruct (str_eqb (pd_number p) (pd_number phone)); simpl.
  - rewrite H. lia.
  - rewrite IH. lia.
Qed.

Lemma merge_total (f : PhoneData -> nat) (phones all : list PhoneData) :
  (forall e p, f (mergePhone e p) = f e + f p) ->
  list_sum (map f (fold_left mergeInto phones all))
  = list_sum (map f all) + list_sum (map f phones).
Proof.
  intros H. revert all. induction phones as [|q phones IH]; intros all; simpl;
    [lia|]. rewrite IH, mergeInto_total by (intros e; apply H). lia.
Qed.

(** X22. Merging loses and invents nothing that is counted: the call counts,
    the SMS counts and the numbers of records of the merged array add up
    to those of the aggregates of the successful results. *)
Theorem merge_conserves_totals (results : list UploadResult) :
  list_sum (map pd_callCount (allPhoneNumbers results))
  = list_sum (map pd_callCount (visited results))
  /\ list_sum (map pd_smsCount (allPhoneNumbers results))
     = list_sum (map pd_smsCount (visited results))
  /\ list_sum (map (fun p => List.length (pd_records p)) (allPhoneNumbers results))
     = list_sum (map (fun p => List.length (pd_records p)) (visited results)).
Proof.
  rewrite allPhoneNumbers_visited. repeat split.
  - now rewrite merge_total.
  - now rewrite merge_total.
  - rewrite merge_total; [reflexivity|]. intros e p. simpl.
    now rewrite (Permutation_length (sortBy_perm rd_dateTime _)), length_app.
Qed.

Lemma mergeInto_new (all : list PhoneData) (q : PhoneData) :
  ~ In (pd_number q) (map pd_number all) -> mergeInto all q = all ++ [q].
Proof.
  induction all as [|p all IH]; simpl; intros H; [reflexivity|].
  destruct (str_eqb (pd_number p) (pd_number q)) eqn:X.
  - apply str_eqb_eq in X. exfalso. apply H. now left.
  - f_equal. apply IH. intros I. apply H. now right.
Qed.

Lemma merge_distinct (phones all : list PhoneData) :
  NoDup (map pd_number (all ++ phones)) ->
  fold_left mergeInto phones all = all ++ phones.
Proof.
  revert all. induction phones as [|q phones IH]; intros all H; simpl.
  - now rewrite app_nil_r.
  - assert (N : ~ In (pd_number q) (map pd_number all)).
    { rewrite map_app in H. simpl in H. apply NoDup_remove_2 in H.
      intros I. apply H. apply in_or_app. now left. }
    rewrite (mergeInto_new all q N), IH, <- app_assoc; [reflexivity|].
    now rewrite <- app_assoc.
Qed.

(** X23. Aggregates pass through the merger unchanged when no number occurs
    twice in the batch, and an aggregate whose number occurs once in the
    batch is in the merged array as it came. *)
Theorem merge_leaves_single_aggregates (results : list UploadResult) :
  (NoDup (map pd_number (visited results)) ->
   allPhoneNumbers results = visited results)
  /\ (forall p q,
        In p (allPhoneNumbers results) ->
        filter (hasNumber (pd_number p)) (visited results) = [q] ->
        p = q).
Proof.
  split.
  - intros H. rewrite allPhoneNumbers_visited. now apply merge_distinct.
  - intros p q Hin F. apply merged_entry in Hin as (q' & qs & F' & ->).
    rewrite F in F'. now injection F' as <- <-.
Qed.

Lemma merge_leaves_single_aggregates_witness :
  allPhoneNumbers
    [sampleFile "a.xlsx" (samplePhone 100 (39 # 10));
     {| ur_fileName := js "b.xls"; success := false; data := None;
        error := Some (js "Erreur lors du parsing") |}]
  = [samplePhone 100 (39 # 10)].
Proof.
  apply (proj1 (merge_leaves_single_aggregates
                  [sampleFile "a.xlsx" (samplePhone 100 (39 # 10));
                   {| ur_fileName := js "b.xls"; success := false;
                      data := None;
                      error := Some (js "Erreur lors du parsing") |}])).
  repeat constructor. intros [].
Defined.

Lemma sameLocation_refl (l : LocationData) : sameLocation l l = true.
Proof.
  unfold sameLocation. apply andb_true_iff. split; apply Qeq_bool_iff;
    reflexivity.
Qed.

(** The loop over the incoming locations keeps the existing ones in
    place and adds, of the incoming ones, those whose coordinates are
    not there yet. *)
Lemma mergeLocations_spec (incoming existing : list LocationData) :
  (exists added, mergeLocations existing incoming = existing ++ added
                 /\ incl added incoming)
  /\ (forall l, In l incoming ->
                exists l', In l' (mergeLocations existing incoming)
                           /\ sameLocation l' l = true).
Proof.
  unfold mergeLocations. revert existing.
  induction incoming as [|x incoming IH]; intros existing; simpl.
  - split; [exists []; split; [now rewrite app_nil_r|intros a []]|intros l []].
  - set (acc := if existsb (fun l => sameLocation l x) existing
                then existing else existing ++ [x]).
    destruct (IH acc) as [(added & E & I) C]. split.
    + subst acc. destruct (existsb _ existing).
      * exists added. split; [assumption|]. intros a Ha. right. now apply I.
      * exists (x :: added). rewrite E, <- app_assoc. split; [reflexivity|].
        intros a [<-|Ha]; [now left|right; now apply I].
    + intros l [<-|Hl]; [|now apply C].
      assert (X : exists l', In l' acc /\ sameLocation l' x = true).
      { subst acc. destruct (existsb (fun l0 => sameLocation l0 x) existing) eqn:X.
        - apply existsb_exists in X as (l' & H1 & H2). now exists l'.
        - exists x. split; [apply in_or_app; right; now left
                           |apply sameLocation_refl]. }
      destruct X as (l' & H1 & H2). exists l'. split; [|assumption].
      rewrite E. apply in_or_app. now left.
Qed.

Lemma mergePhones_locations (qs : list PhoneData) (q : PhoneData) :
  (exists added, pd_locations (fold_left mergePhone qs q)
                 = pd_locations q ++ added)
  /\ (forall x l, In x qs -> In l (pd_locations x) ->
                  exists l', In l' (pd_locations (fold_left mergePhone qs q))
                             /\ sameLocation l' l = true).
Proof.
  revert q. induction qs as [|y qs IH]; intros q; simpl.
  - split; [exists []; now rewrite app_nil_r|intros x l []].
  - destruct (IH (mergePhone q y)) as [(added & E) C].
    destruct (mergeLocations_spec (pd_locations y) (pd_locations q))
      as [(added' & E' & _) C'].
    simpl in E. split.
    + exists (added' ++ added). now rewrite E, E', <- app_assoc.
    + intros x l [<-|Hx] Hl; [|now apply (C x)].
      destruct (C' l Hl) as (l' & H1 & H2). exists l'. split; [|assumption].
      rewrite E. apply in_or_app. now left.
Qed.

(** X24. In a merged aggregate the locations of the first aggregate of the
    number come first, as they were, and every location of every
    aggregate of that number has its coordinates among the merged
    locations. *)
Theorem merged_locations_cover (results : list UploadResult) (p : PhoneData) :
  In p (allPhoneNumbers results) ->
  exists q added,
    find (hasNumber (pd_number p)) (visited results) = Some q
    /\ pd_locations p = pd_locations q ++ added
    /\ (forall x l,
          In x (visited results) -> pd_number x = pd_number p ->
          In l (pd_locations x) ->
          exists l', In l' (pd_locations p) /\ sameLocation l' l = true).
Proof.
  intros Hin. apply merged_entry in Hin as (q & qs & F & ->).
  destruct (mergePhones_frame qs q) as (N & _).
  destruct (mergePhones_locations qs q) as [(added & E) C].
  exists q, added. rewrite N in *.
  split; [now apply filter_head_find in F|]. split; [assumption|].
  intros x l Hx Hn Hl.
  assert (I : In x (q :: qs)).
  { rewrite <- F. apply filter_In. split; [assumption|].
    now apply str_eqb_eq. }
  destruct I as [<-|I]; [|now apply (C x)].
  exists l. split; [rewrite E; apply in_or_app; now left
                   |apply sameLocation_refl].
Qed.

Lemma merged_locations_cover_witness :
  exists p,
    In p (allPhoneNumbers
            [sampleFile "a.xlsx" (samplePhone 100 (39 # 10));
             sampleFile "b.xlsx" (samplePhone 200 (390 # 100))])
    /\ pd_locations p = [sampleSite (39 # 10)]
    /\ exists q added,
         find (hasNumber (pd_number p))
           (visited [sampleFile "a.xlsx" (samplePhone 100 (39 # 10));
                     sampleFile "b.xlsx" (samplePhone 200 (390 # 100))])
         = Some q
         /\ pd_locations p = pd_locations q ++ added
         /\ (forall x l,
               In x (visited
                       [sampleFile "a.xlsx" (samplePhone 100 (39 # 10));
                        sampleFile "b.xlsx" (samplePhone 200 (390 # 100))]) ->
               pd_number x = pd_number p ->
               In l (pd_locations x) ->
               exists l', In l' (pd_locations p) /\ sameLocation l' l = true).
Proof.
  eexists. split; [left; reflexivity|]. split; [reflexivity|].
  apply merged_locations_cover. left. reflexivity.
Defined.

(** ** The page: state, selection, positions, statistics *)

(** X25. A batch without any aggregate leaves the page as it is; any other
    batch replaces the data shown, whatever was shown before, and closes
    the upload view. *)
Theorem upload_replaces_data (st : HomeState) (results : list UploadResult) :
  (visited results = [] -> handleUploadComplete st results = st)
  /\ (visited results <> [] ->
      handleUploadComplete st results
      = {| uploadedData := allPhoneNumbers results; showUpload := false |}).
Proof.
  unfold handleUploadComplete. split; intros H.
  - rewrite allPhoneNumbers_visited, H. reflexivity.
  - destruct (allPhoneNumbers results) as [|p l] eqn:A; [|reflexivity].
    exfalso. rewrite allPhoneNumbers_visited in A.
    now apply merge_nonempty in A as [A _].
Qed.

Lemma upload_replaces_data_witness :
  handleUploadComplete
    {| uploadedData := [samplePhone 100 (39 # 10)]; showUpload := false |}
    [{| ur_fileName := js "b.txt"; success := false; data := None;
        error := Some (js "Format de fichier non supporte") |}]
  = {| uploadedData := [samplePhone 100 (39 # 10)]; showUpload := false |}
  /\ handleUploadComplete
       {| uploadedData := [samplePhone 100 (39 # 10)]; showUpload := true |}
       [sampleFile "c.xlsx" (samplePhone 300 (41 # 10))]
     = {| uploadedData := allPhoneNumbers
                            [sampleFile "c.xlsx" (samplePhone 300 (41 # 10))];
          showUpload := false |}.
Proof.
  split.
  - apply (proj1 (upload_replaces_data _ _)). reflexivity.
  - apply (proj2 (upload_replaces_data _ _)). discriminate.
Defined.

(** *** Selection, positions and statistics ([src/app/page.tsx]) *)

(** [selectedPhoneData]: the entry of the selected number, if one is
    selected and shown. *)
Definition selectedPhoneData (selectedNumber : option str)
    (uploaded : list PhoneData) : option PhoneData :=
  match selectedNumber with
  | Some n =>
      if isSet selectedNumber
      then find (fun p => str_eqb (pd_number p) n) uploaded
      else None
  | None => None
  end.

Record Position := {
  lat : Q;
  lng : Q;
  timestamp : Date;
  pos_siteName : str;
  index : nat
}.

(** [l.map((x, index) => f(x, index))], counting from [i]. *)
Fixpoint mapIndexed {A B : Type} (f : A -> nat -> B) (i : nat) (l : list A)
  : list B :=
  match l with
  | [] => []
  | x :: l' => f x i :: mapIndexed f (S i) l'
  end.

(** [records.filter(r => r.location)], each record with the location the
    callback of [map] reads from it. *)
Definition locatedRecords (rs : list RecordData)
  : list (RecordData * LocationData) :=
  flat_map (fun r => match rd_location r with
                     | Some loc => [(r, loc)]
                     | None => []
                     end) rs.

Definition mapPositions (selected : option PhoneData) : list Position :=
  match selected with
  | None => []
  | Some p =>
      mapIndexed
        (fun rl i =>
           {| lat := latitude (snd rl); lng := longitude (snd rl);
              timestamp := rd_dateTime (fst rl);
              pos_siteName := siteName (snd rl); index := i |})
        0 (locatedRecords (pd_records p))
  end.

Record Stats := {
  totalNumbers : nat;
  numbersWithLocation : nat;
  totalRecords : nat;
  totalLocations : nat
}.

Definition stats (uploaded : list PhoneData) : Stats :=
  {| totalNumbers := List.length uploaded;
     numbersWithLocation :=
       List.length (filter (fun p => 0 <? List.length (pd_locations p)) uploaded);
     totalRecords :=
       fold_left (fun sum p => sum + List.length (pd_records p)) uploaded 0;
     totalLocations :=
       fold_left (fun sum p => sum + List.length (pd_locations p)) uploaded 0 |}.

Lemma mapIndexed_spec {A B : Type} (f : A -> nat -> B) (g : B -> nat)
    (i : nat) (l : list A) :
  (forall x k, g (f x k) = k) ->
  List.length (mapIndexed f i l) = List.length l
  /\ map g (mapIndexed f i l) = seq i (List.length l).
Proof.
  intros H. revert i. induction l as [|x l IH]; intros i; simpl; [auto|].
  destruct (IH (S i)) as [-> ->]. now rewrite H.
Qed.

Lemma mapIndexed_map {A B C : Type} (f : A -> nat -> B) (g : B -> C)
    (h : A -> C) (i : nat) (l : list A) :
  (forall x k, g (f x k) = h x) ->
  map g (mapIndexed f i l) = map h l.
Proof.
  intros H. revert i. induction l as [|x l IH]; intros i; simpl; [auto|].
  now rewrite H, IH.
Qed.

Lemma locatedRecords_times (rs : list RecordData) :
  map (fun rl => rd_dateTime (fst rl)) (locatedRecords rs)
  = map rd_dateTime (filter (fun r => isSome (rd_location r)) rs).
Proof.
  unfold locatedRecords. induction rs as [|r rs IH]; simpl; [reflexivity|].
  destruct (rd_location r); simpl; now rewrite IH.
Qed.

Lemma StronglySorted_filter {A : Type} (R : A -> A -> Prop) (f : A -> bool)
    (l : list A) :
  StronglySorted R l -> StronglySorted R (filter f l).
Proof.
  induction 1 as [|x l _ IH F]; simpl; [constructor|].
  destruct (f x); [|assumption]. constructor; [assumption|].
  rewrite Forall_forall in *. intros y Hy. apply filter_In in Hy as [Hy _].
  now apply F.
Qed.

Lemma StronglySorted_map_key {A : Type} (key : A -> Z) (l : list A) :
  StronglySorted (keyLe key) l -> StronglySorted Z.le (map key l).
Proof.
  induction 1 as [|x l _ IH F]; simpl; constructor; [assumption|].
  rewrite Forall_forall in *. intros y Hy.
  apply in_map_iff in Hy as (z & <- & Hz). now apply F.
Qed.

Lemma keyLe_trans {A : Type} (key : A -> Z) :
  Relations_1.Transitive (keyLe key).
Proof. intros x y z. unfold keyLe. lia. Qed.

(** X26. The positions drawn on the map are the records of the selected
    number that have a location, in the order of the records and
    numbered 0, 1, 2, ...; their timestamps ascend when the records
    are sorted. *)
Theorem mapPositions_follow_records (p : PhoneData) :
  map index (mapPositions (Some p))
  = seq 0 (List.length (mapPositions (Some p)))
  /\ map timestamp (mapPositions (Some p))
     = map rd_dateTime (filter (fun r => isSome (rd_location r)) (pd_records p))
  /\ List.length (mapPositions (Some p)) <= List.length (pd_records p)
  /\ (Sorted (keyLe rd_dateTime) (pd_records p) ->
      StronglySorted Z.le (map timestamp (mapPositions (Some p)))).
Proof.
  unfold mapPositions.
  set (f := fun (rl : RecordData * LocationData) (i : nat) => _).
  destruct (@mapIndexed_spec _ _ f index 0 (locatedRecords (pd_records p)))
    as [L I]; [reflexivity|].
  assert (T : map timestamp (mapIndexed f 0 (locatedRecords (pd_records p)))
              = map rd_dateTime
                  (filter (fun r => isSome (rd_location r)) (pd_records p))).
  { rewrite <- locatedRecords_times. now apply mapIndexed_map. }
  repeat split.
  - now rewrite I, L.
  - exact T.
  - rewrite <- (length_map timestamp), T, length_map. apply filter_length_le.
  - intros S. rewrite T. apply StronglySorted_map_key, StronglySorted_filter.
    apply Sorted_StronglySorted; [apply keyLe_trans|assumption].
Qed.

Lemma mapPositions_follow_records_witness :
  StronglySorted Z.le
    (map timestamp
       (mapPositions
          (Some {| pd_number := js "699111222"; pd_identity := None;
                   pd_operator := None; pd_callCount := 2; pd_smsCount := 0;
                   pd_firstActivity := Some 100%Z;
                   pd_lastActivity := Some 100%Z;
                   pd_locations := [sampleSite (39 # 10)];
                   pd_records := [sampleCall 50 (39 # 10);
                                  sampleCall 100 (39 # 10)] |}))).
Proof.
  apply (proj2 (proj2 (proj2 (mapPositions_follow_records _)))).
  simpl. repeat constructor; unfold keyLe; simpl; lia.
Defined.

Lemma fold_sum (f : PhoneData -> nat) (l : list PhoneData) (a : nat) :
  fold_left (fun sum p => sum + f p) l a = a + list_sum (map f l).
Proof.
  revert a. induction l as [|p l IH]; intros a; simpl; [lia|].
  rewrite IH. lia.
Qed.

Lemma located_le_locations (l : list PhoneData) :
  List.length (filter (fun p => 0 <? List.length (pd_locations p)) l)
  <= 0 + list_sum (map (fun p => List.length (pd_locations p)) l).
Proof.
  induction l as [|p l IH]; simpl; [lia|].
  destruct (pd_locations p); simpl in *; lia.
Qed.

Lemma uploaded_shown (st : HomeState) (results : list UploadResult) :
  visited results <> [] ->
  uploadedData (handleUploadComplete st results) = allPhoneNumbers results.
Proof.
  intros H. unfold handleUploadComplete.
  destruct (allPhoneNumbers results) as [|p l] eqn:A; [|reflexivity].
  exfalso. rewrite allPhoneNumbers_visited in A.
  now apply merge_nonempty in A as [A _].
Qed.

(** X27. The statistics shown after an upload: as many numbers as the batch
    holds distinct ones, as many records as the aggregates of the batch
    hold together, and no more numbers with a location than numbers or
    than locations. *)
Theorem stats_after_upload (st : HomeState) (results : list UploadResult) :
  visited results <> [] ->
  let shown := stats (uploadedData (handleUploadComplete st results)) in
  totalNumbers shown
  = List.length (nodup (list_eq_dec ascii_dec)
                   (map pd_number (visited results)))
  /\ totalRecords shown
     = list_sum (map (fun p => List.length (pd_records p)) (visited results))
  /\ numbersWithLocation shown <= totalNumbers shown
  /\ numbersWithLocation shown <= totalLocations shown.
Proof.
  intros H shown. subst shown. rewrite (@uploaded_shown st results H).
  cbn [uploadedData stats totalNumbers totalRecords numbersWithLocation
         totalLocations].
  rewrite allPhoneNumbers_visited. repeat split.
  - rewrite <- (length_map pd_number). apply Permutation_length.
    apply NoDup_Permutation;
      [apply merge_NoDup; constructor|apply NoDup_nodup|].
    intros n. rewrite nodup_In. apply merge_has_number.
  - rewrite fold_sum, merge_total; [reflexivity|]. intros e p. simpl.
    now rewrite (Permutation_length (sortBy_perm rd_dateTime _)), length_app.
  - apply filter_length_le.
  - rewrite fold_sum. apply located_le_locations.
Qed.

Lemma stats_after_upload_witness :
  stats (uploadedData
           (handleUploadComplete
              {| uploadedData := []; showUpload := true |}
              [sampleFile "a.xlsx" (samplePhone 100 (39 # 10));
               sampleFile "b.xlsx" (samplePhone 200 (390005 # 100000))]))
  = {| totalNumbers := 1; numbersWithLocation := 1; totalRecords := 2;
       totalLocations := 2 |}
  /\ 1 = List.length
           (nodup (list_eq_dec ascii_dec)
              (map pd_number
                 (visited [sampleFile "a.xlsx" (samplePhone 100 (39 # 10));
                           sampleFile "b.xlsx"
                             (samplePhone 200 (390005 # 100000))]))).
Proof.
  split; [vm_compute; reflexivity|].
  apply (@stats_after_upload {| uploadedData := []; showUpload := true |}
           [sampleFile "a.xlsx" (samplePhone 100 (39 # 10));
            sampleFile "b.xlsx" (samplePhone 200 (390005 # 100000))]).
  discriminate.
Defined.

(** X28. After an upload every number of the batch can be selected, and the
    selection is the merged aggregate of that number; nothing is selected
    when no number is, or when the selected number is not shown. *)
Theorem selection_after_upload (results : list UploadResult) (n : str) :
  n <> [] ->
  (In n (map pd_number (visited results)) ->
   exists p, selectedPhoneData (Some n) (allPhoneNumbers results) = Some p
             /\ In p (allPhoneNumbers results) /\ pd_number p = n)
  /\ (~ In n (map pd_number (visited results)) ->
      selectedPhoneData (Some n) (allPhoneNumbers results) = None)
  /\ selectedPhoneData None (allPhoneNumbers results) = None.
Proof.
  intros Hn. unfold selectedPhoneData.
  assert (S : isSet (Some n) = true)
    by (simpl; apply str_eqb_neq in Hn; now rewrite Hn).
  rewrite S.
  assert (M : In n (map pd_number (allPhoneNumbers results))
              <-> In n (map pd_number (visited results)))
    by (rewrite allPhoneNumbers_visited; apply merge_has_number).
  fold (hasNumber n). repeat split.
  - intros I. apply M in I.
    destruct (find (hasNumber n) (allPhoneNumbers results)) as [p|] eqn:F.
    + exists p. apply find_some in F as [F1 F2].
      repeat split; [assumption|now apply str_eqb_eq in F2].
    + apply find_hasNumber_None in F. contradiction.
  - intros I. apply find_hasNumber_None. intros J. apply I. now apply M.
Qed.

Lemma selection_after_upload_witness :
  exists p,
    selectedPhoneData (Some (js "699111222"))
      (allPhoneNumbers [sampleFile "a.xlsx" (samplePhone 100 (39 # 10))])
    = Some p
    /\ In p (allPhoneNumbers [sampleFile "a.xlsx" (samplePhone 100 (39 # 10))])
    /\ pd_number p = js "699111222".
Proof.
  apply (proj1 (@selection_after_upload
                  [sampleFile "a.xlsx" (samplePhone 100 (39 # 10))]
                  (js "699111222") ltac:(discriminate))).
  left. reflexivity.
Defined.
